(** * The gitserver client and its memoizing consumer, embedded in Rocq

    A shallow embedding of the gitserver client (package [gitserver]: shard
    routing, remote [git] execution over HTTP with trailers, the streaming
    reader, the fan-out list query) and of the GraphQL mirror-info resolver
    that memoizes [RepoInfo] (package [graphqlbackend]); and of
    [findMatchRange], the function of the package.json dependency
    diagnostics (TypeScript) that locates a string in a text.

    Go values are modelled as follows: [string] as [string] (a byte
    sequence), [[]byte] as [list Z] with every element in [0, 256), [uint64]
    as [Z] in [0, 2^64), [error] as the inductive [error] ([None] is [nil]),
    [http.Header] as a [gmap] from canonical keys to value lists, slices as
    lists indexed with [!!], a pointer that may be [nil] as an [option].
    Effects (HTTP requests, the Prometheus counter, run-time panics) are
    threaded through the state monad [M]. A JavaScript string is the list
    of its UTF-16 code units. *)

From Stdlib Require Import ZArith Lia String Ascii List Bool.
From stdpp Require Import base tactics option list gmap strings sorting pretty.

Import ListNotations.

(** ** The Go standard library functions the client calls *)

(** [[]byte(s)]: the bytes of a string. *)
Definition bytes_of_string (s : string) : list Z :=
  (λ c, Z.of_N (N_of_ascii c)) <$> list_ascii_of_string s.

(** [string(b)]: the string of a byte slice. *)
Definition string_of_bytes (b : list Z) : string :=
  string_of_list_ascii ((λ x, ascii_of_N (Z.to_N x)) <$> b).

Definition is_byte (x : Z) : Prop := (0 ≤ x < 256)%Z.

(** The double-quote character, as a string. *)
Definition dquote : string :=
  String (Ascii false true false false false true false false) EmptyString.

(** [crypto/md5]: [md5.Sum], the RFC 1321 digest, on 32-bit words kept in
    [Z] with the wrap-around written out. *)
Module md5.
Local Open Scope Z_scope.

Definition w32 (x : Z) : Z := x mod 2 ^ 32.

Definition rotl32 (x s : Z) : Z :=
  w32 (Z.lor (Z.shiftl x s) (Z.shiftr x (32 - s))).

(** Little-endian encodings: a 32-bit word as 4 bytes, a 64-bit length
    as 8 bytes, and 4 bytes as a word. *)
Definition le32 (x : Z) : list Z :=
  [x mod 256; (x / 2 ^ 8) mod 256; (x / 2 ^ 16) mod 256; (x / 2 ^ 24) mod 256].

Definition le64 (x : Z) : list Z :=
  le32 (x mod 2 ^ 32) ++ le32 ((x / 2 ^ 32) mod 2 ^ 32).

Definition word_le (b : list Z) : Z :=
  match b with
  | [b0; b1; b2; b3] => b0 + b1 * 2 ^ 8 + b2 * 2 ^ 16 + b3 * 2 ^ 24
  | _ => 0
  end.

(** The sine table and the per-round shift amounts. *)
Definition K : list Z :=
  [ 3614090360; 3905402710; 606105819; 3250441966;
    4118548399; 1200080426; 2821735955; 4249261313;
    1770035416; 2336552879; 4294925233; 2304563134;
    1804603682; 4254626195; 2792965006; 1236535329;
    4129170786; 3225465664; 643717713; 3921069994;
    3593408605; 38016083; 3634488961; 3889429448;
    568446438; 3275163606; 4107603335; 1163531501;
    2850285829; 4243563512; 1735328473; 2368359562;
    4294588738; 2272392833; 1839030562; 4259657740;
    2763975236; 1272893353; 4139469664; 3200236656;
    681279174; 3936430074; 3572445317; 76029189;
    3654602809; 3873151461; 530742520; 3299628645;
    4096336452; 1126891415; 2878612391; 4237533241;
    1700485571; 2399980690; 4293915773; 2240044497;
    1873313359; 4264355552; 2734768916; 1309151649;
    4149444226; 3174756917; 718787259; 3951481745 ].

Definition shifts : list Z :=
  [ 7; 12; 17; 22; 7; 12; 17; 22; 7; 12; 17; 22; 7; 12; 17; 22;
    5; 9; 14; 20; 5; 9; 14; 20; 5; 9; 14; 20; 5; 9; 14; 20;
    4; 11; 16; 23; 4; 11; 16; 23; 4; 11; 16; 23; 4; 11; 16; 23;
    6; 10; 15; 21; 6; 10; 15; 21; 6; 10; 15; 21; 6; 10; 15; 21 ].

Definition digest : Type := Z * Z * Z * Z.

Definition init : digest := (1732584193, 4023233417, 2562383102, 271733878).

(** The message as the padded sequence of 64-byte blocks. *)
Definition pad (data : list Z) : list Z :=
  let len := Z.of_nat (length data) in
  data ++ [128] ++ replicate (Z.to_nat ((55 - len) mod 64)) 0
       ++ le64 ((8 * len) mod 2 ^ 64).

Definition words (block : list Z) : list Z :=
  (λ i : nat, word_le (take 4 (drop (4 * i) block))) <$> seq 0 16.

(** One of the 64 steps of the block function. *)
Definition step (m : list Z) (st : digest) (i : nat) : digest :=
  let '(a, b, c, d) := st in
  let '(f, g) :=
    if (i <? 16)%nat then
      (Z.lor (Z.land b c) (Z.land (Z.lnot b) d), i)
    else if (i <? 32)%nat then
      (Z.lor (Z.land d b) (Z.land (Z.lnot d) c), ((5 * i + 1) mod 16)%nat)
    else if (i <? 48)%nat then
      (Z.lxor (Z.lxor b c) d, ((3 * i + 5) mod 16)%nat)
    else
      (Z.lxor c (Z.lor b (Z.lnot d)), ((7 * i) mod 16)%nat) in
  let f' := w32 (w32 f + a + K !!! i + m !!! g) in
  (d, w32 (b + rotl32 f' (shifts !!! i)), b, c).

Definition block (st : digest) (blk : list Z) : digest :=
  let '(a0, b0, c0, d0) := st in
  let '(a, b, c, d) := foldl (step (words blk)) st (seq 0 64) in
  (w32 (a0 + a), w32 (b0 + b), w32 (c0 + c), w32 (d0 + d)).

Definition blocks (padded : list Z) : list (list Z) :=
  (λ i : nat, take 64 (drop (64 * i) padded)) <$> seq 0 (length padded / 64).

(** [md5.Sum(data)]: the 16 bytes of the digest. *)
Definition Sum (data : list Z) : list Z :=
  let '(a, b, c, d) := foldl block init (blocks (pad data)) in
  le32 a ++ le32 b ++ le32 c ++ le32 d.
End md5.

(** [encoding/binary]: [binary.BigEndian.Uint64(b)] reads [b[0..7]]; it
    panics ([None]) on a slice shorter than 8 bytes. *)
Definition BigEndian_Uint64 (b : list Z) : option Z :=
  match b with
  | b0 :: b1 :: b2 :: b3 :: b4 :: b5 :: b6 :: b7 :: _ =>
      Some (Z.lor (Z.lor (Z.lor (Z.lor (Z.lor (Z.lor (Z.lor
        b7 (Z.shiftl b6 8)) (Z.shiftl b5 16)) (Z.shiftl b4 24))
        (Z.shiftl b3 32)) (Z.shiftl b2 40)) (Z.shiftl b1 48)) (Z.shiftl b0 56))
  | _ => None
  end.

Definition hexdigit (x : Z) : ascii :=
  ascii_of_N (Z.to_N (if (x <? 10)%Z then 48 + x else 87 + x)%Z).

(** [hex.EncodeToString], used to read digests in the examples. *)
Fixpoint hex (b : list Z) : string :=
  match b with
  | [] => ""
  | x :: b => String (hexdigit (x / 16)) (String (hexdigit (x mod 16)) (hex b))
  end.

(** ** Errors, headers and readers *)

(** The two sentinel causes a [*strconv.NumError] wraps. *)
Inductive NumErrKind := ErrSyntax | ErrRange.

(** Go [error] values, by the type that produced them. [nil] is [None] of
    [option error]. Two [errors_New] values with the same text are equal in
    the model; the package-level sentinels are constructors of their own,
    so a comparison with [context.Canceled] is a comparison with
    [context_Canceled]. *)
Inductive error :=
  | context_Canceled
  | context_DeadlineExceeded
  | io_EOF
  | errors_New (msg : string)
  | vcs_RepoNotExistError (CloneInProgress : bool)
  | url_Error (Op URL : string) (Err : error)
  | strconv_NumError (Func Num : string) (Err : NumErrKind)
  | transport_error (msg : string)
  | json_error (msg : string).

(** [listErr != context.Canceled] is [negb (is_Canceled listErr)]. *)
Definition is_Canceled (e : error) : bool :=
  match e with context_Canceled => true | _ => false end.

(** A failure of the connection or of the context, as opposed to an answer
    of the server. *)
Definition is_transport_error (e : error) : bool :=
  match e with
  | transport_error _ | context_Canceled | context_DeadlineExceeded => true
  | _ => false
  end.

(** [strconv.Atoi]: an optional sign and at least one decimal digit; the
    result must fit a 64-bit [int]. The value is returned next to the error,
    as in Go (0 on a syntax error, the nearest bound on a range error). *)
Module strconv.
Local Open Scope Z_scope.

Definition digit (c : ascii) : option Z :=
  let n := Z.of_N (N_of_ascii c) in
  if (48 <=? n) && (n <=? 57) then Some (n - 48) else None.

Fixpoint digits (acc : Z) (s : string) : option Z :=
  match s with
  | EmptyString => Some acc
  | String c s' =>
      match digit c with
      | Some d => digits (10 * acc + d) s'
      | None => None
      end
  end.

Definition unsigned (s : string) : option Z :=
  match s with
  | EmptyString => None
  | _ => digits 0 s
  end.

Definition Atoi (s : string) : Z * option error :=
  let '(neg, body) :=
    match s with
    | String "-" s' => (true, s')
    | String "+" s' => (false, s')
    | _ => (false, s)
    end in
  match unsigned body with
  | None => (0, Some (strconv_NumError "Atoi" s ErrSyntax))
  | Some n =>
      let v := if neg then - n else n in
      if v <? - 2 ^ 63 then (- 2 ^ 63, Some (strconv_NumError "Atoi" s ErrRange))
      else if 2 ^ 63 - 1 <? v then (2 ^ 63 - 1, Some (strconv_NumError "Atoi" s ErrRange))
      else (v, None)
  end.
End strconv.

(** [http.Header]: canonical key to the values received under it. *)
Abbreviation Header := (gmap string (list string)).

(** [h.Get(key)]: the first value under [key], or the empty string. The
    keys the client asks for are already in canonical form. *)
Definition Header_Get (h : Header) (key : string) : string :=
  match h !! key with
  | Some (v :: _) => v
  | _ => ""
  end.

(** An [io.ReadCloser], as the results its successive [Read] calls will
    give: the bytes handed over and the error returned with them. Go's
    reader contract lets a [Read] return bytes together with an error, and
    [io.EOF] in particular may come with the last bytes or alone after
    them. Once the script is used up the reader answers [0, io.EOF]. *)
Definition Reader := list (list Z * option error).

(** [r.Read(p)] with [len(p) = cap]: the next scripted result, cut to the
    capacity of the buffer (the rest stays for the next call). *)
Definition Reader_Read (r : Reader) (cap : nat)
    : (list Z * option error) * Reader :=
  match r with
  | [] => (([], Some io_EOF), [])
  | (data, err) :: r' =>
      if decide (length data ≤ cap) then ((data, err), r')
      else ((take cap data, None), (drop cap data, err) :: r')
  end.

(** [ioutil.ReadAll(r)]: everything read until the first error; [io.EOF]
    is the clean end and is reported as [nil]. *)
Fixpoint ReadAll (r : Reader) : list Z * option error :=
  match r with
  | [] => ([], None)
  | (data, None) :: r' => let '(rest, e) := ReadAll r' in (data ++ rest, e)
  | (data, Some io_EOF) :: _ => (data, None)
  | (data, Some e) :: _ => (data, Some e)
  end.

(** All the bytes a reader holds before its end of stream. *)
Fixpoint Reader_bytes (r : Reader) : list Z :=
  match r with
  | [] => []
  | (data, None) :: r' => data ++ Reader_bytes r'
  | (data, Some _) :: _ => data
  end.

(** A body that arrives in one piece, followed by a separate end of stream. *)
Definition Reader_of_string (s : string) : Reader :=
  [(bytes_of_string s, None)].

(** [sort.Strings]: ascending byte-wise order. The sorted arrangement of a
    list of strings is unique, so the algorithm does not matter. *)
Definition sort_Strings (l : list string) : list string :=
  merge_sort String.le l.

(** ** Requests, responses and the world *)

(** Modelled from the spec: the request types of package [protocol] are not
    among the sources; each is the JSON body of one endpoint, with the
    fields the client sets. *)
Inductive Payload :=
  | ExecRequest (Repo EnsureRevision : string) (Args : list string)
  | RepoUpdateRequest (Repo : string)
  | IsRepoCloneableRequest (Repo : string)
  | IsRepoClonedRequest (Repo : string)
  | RepoInfoRequest (Repo : string)
  | RepoFromRemoteURLRequest (RemoteURL : string).

Inductive Request :=
  | POST (url : string) (body : Payload)
  | GET (url : string).

Record Response := {
  StatusCode : Z;
  Body : Reader;
  Trailer : Header;
  Request_URL : string;
}.

(** [context.Context]: what [ctx.Err()] and [ctx.Value(key)] answer. *)
Record Context := {
  ctx_Err : option error;
  ctx_Value : string → option string;
}.

(** [context.WithCancel(ctx)]: the derived context reports the parent's
    error if there is one, and [context.Canceled] once [cancel] was called. *)
Definition WithCancel (ctx : Context) (cancelled : bool) : Context :=
  {| ctx_Err := match ctx_Err ctx with
                | Some e => Some e
                | None => if cancelled then Some context_Canceled else None
                end;
     ctx_Value := ctx_Value ctx |}.

(** The world outside the process: the network (what an HTTP exchange
    answers, given the context it runs under and the requests made so far),
    the log of the requests handed to it, and the Prometheus counter
    [src_gitserver_client_deadline_exceeded]. *)
Record World := {
  network : Context → list Request → Request → Response + error;
  http_log : list Request;
  deadlineExceededCounter : nat;
}.

(** ** The monad of effects: state, and run-time panics *)

Inductive Result (A : Type) :=
  | Ok (a : A)
  | Panic (msg : string).
Arguments Ok {A} a.
Arguments Panic {A} msg.

Definition M (S A : Type) : Type := S → Result A * S.

Definition ret {S A} (a : A) : M S A := λ s, (Ok a, s).

Definition panic {S A} (msg : string) : M S A := λ s, (Panic msg, s).

Definition bind {S A B} (m : M S A) (k : A → M S B) : M S B :=
  λ s, match m s with
       | (Ok a, s') => k a s'
       | (Panic msg, s') => (Panic msg, s')
       end.

Notation "x <- m ;; k" := (bind m (λ x, k))
  (at level 100, m at next level, right associativity).
Notation "m ;;; k" := (bind m (λ _, k))
  (at level 100, right associativity).

(** A value that may be a run-time panic, inside the monad. *)
Definition lift {S A} (r : Result A) : M S A := λ s, (r, s).

(** [x % y] on unsigned integers panics when [y] is zero. *)
Definition go_mod (x y : Z) : Result Z :=
  if (y =? 0)%Z then Panic "runtime error: integer divide by zero"
  else Ok (x mod y)%Z.

(** [l[i]] panics when [i] is out of range. *)
Definition go_index {A} (l : list A) (i : Z) : Result A :=
  match l !! Z.to_nat i with
  | Some a => Ok a
  | None => Panic "runtime error: index out of range"
  end.

(** [*p] panics when [p] is [nil]. *)
Definition go_deref {A} (p : option A) : Result A :=
  match p with
  | Some a => Ok a
  | None => Panic "runtime error: invalid memory address or nil pointer dereference"
  end.

(** The exchange itself: the request is logged and the network answers. *)
Definition http_Do (ctx : Context) (req : Request) : M World (Response + error) :=
  λ w, (Ok (network w ctx (http_log w) req),
        {| network := network w;
           http_log := http_log w ++ [req];
           deadlineExceededCounter := deadlineExceededCounter w |}).

(** [deadlineExceededCounter.Inc()]. *)
Definition deadlineExceededCounter_Inc : M World unit :=
  λ w, (Ok tt,
        {| network := network w;
           http_log := http_log w;
           deadlineExceededCounter := S (deadlineExceededCounter w) |}).

(** ** Package gitserver *)

(** Package [api], imported as [sourcegraph]. *)
Module sourcegraph.
(** Modelled from the spec: the declaration of [Repo] is not among the
    sources; a repository is named by its identifier, the one field the
    client reads. *)
Record Repo := { URI : string }.
End sourcegraph.

(** Package [protocol]. *)
Module protocol.
(** Modelled from the spec: the declaration of [NotFoundPayload] is not
    among the sources; it is the body of a 404 answer, the one flag
    [cloneInProgress]. *)
Record NotFoundPayload := { nf_CloneInProgress : bool }.

(** Modelled from the spec: the declaration of [RepoInfoResponse] is not
    among the sources; it holds the remote URL, whether the repository is
    cloned, whether a clone is in progress, and an optional time of the last
    fetch (kept as a number). The field names are those the resolver
    reads. *)
Record RepoInfoResponse := {
  URL : string;
  Cloned : bool;
  CloneInProgress : bool;
  LastFetched : option Z;
}.
End protocol.

(** [Client]. The [HTTPClient] and the [HTTPLimiter] of the Go struct are
    the world's [network]: every exchange goes through [http_Do]. *)
Record Client := {
  Addrs : list string;
  NoCreds : bool;
}.

(** [Cmd], a command to be executed remotely. *)
Record Cmd := {
  client : Client;
  Args : list string;
  Repo : option sourcegraph.Repo;
  EnsureRevision : string;
  ExitStatus : Z;
}.

(** [cmdReader], the stream [StdoutReader] returns. *)
Record cmdReader := {
  rc : Reader;
  trailer : Header;
}.

(** What one [Read(p)] gives its caller: the bytes the call left in [p],
    and the returned count and error. The caller may use [p[:n]] only. *)
Record ReadResult := {
  rr_p : list Z;
  rr_n : nat;
  rr_err : option error;
}.

(** The bytes a [Read] delivered: [p[:n]]. *)
Definition delivered (r : ReadResult) : list Z := take (rr_n r) (rr_p r).

(** What [UploadPack] does with the inbound exchange. *)
Inductive UploadPackOutcome :=
  | ProxyTo (target : string)
  | http_Error (err : error) (code : Z).

Section gitserver.
(** Functions of this repository and of the Go library that are used as
    given: [protocol.NormalizeRepo]; [strconv.Quote], which the verb [%q]
    applies; the [encoding/json] decoders of the three answer types
    (value decoded so far, and the error); [url.Parse] (its error, if
    any) and [url.QueryEscape]. *)
Variable NormalizeRepo : string → string.
Variable strconv_Quote : string → string.
Variable json_NotFoundPayload : Reader → protocol.NotFoundPayload * option error.
Variable json_strings : Reader → list string * option error.
Variable json_RepoInfoResponse : Reader → option protocol.RepoInfoResponse * option error.
Variable url_Parse : string → option error.
Variable url_QueryEscape : string → string.

(** [Client.httpPost]: one POST of [payload] to [http://addr/method].
    Marshalling these payloads cannot fail; a URL that [http.NewRequest]
    rejects is an error answer of the exchange. *)
Definition httpPost (c : Client) (ctx : Context) (addr method : string)
    (payload : Payload) : M World (Response + error) :=
  http_Do ctx (POST ("http://" +:+ addr +:+ "/" +:+ method) payload).

(** [Cmd.sendExec]. The tracing span is not modelled, except that
    tagging it evaluates [c.Args[1:]]. *)
Definition sendExec (c : Cmd) (ctx : Context)
    : M World (Reader * Header + error) :=
  repo <- lift (go_deref (Repo c)) ;;
  let repoURI := NormalizeRepo (sourcegraph.URI repo) in
  match Args c with
  | [] => panic "runtime error: slice bounds out of range"
  | _ :: args =>
      match ctx_Err ctx with
      | Some err => deadlineExceededCounter_Inc ;;; ret (inr err)
      | None =>
          let sum := md5.Sum (bytes_of_string repoURI) in
          match BigEndian_Uint64 sum with
          | None => panic "runtime error: index out of range"
          | Some h =>
              serverIndex <- lift (go_mod h (Z.of_nat (length (Addrs (client c))))) ;;
              addr <- lift (go_index (Addrs (client c)) serverIndex) ;;
              r <- httpPost (client c) ctx addr "exec"
                     (ExecRequest repoURI (EnsureRevision c) args) ;;
              match r with
              | inr err => ret (inr err)
              | inl resp =>
                  if decide (StatusCode resp = 200%Z) then
                    ret (inl (Body resp, Trailer resp))
                  else if decide (StatusCode resp = 404%Z) then
                    let '(payload, err) := json_NotFoundPayload (Body resp) in
                    match err with
                    | Some err => ret (inr err)
                    | None =>
                        ret (inr (vcs_RepoNotExistError (protocol.nf_CloneInProgress payload)))
                    end
                  else
                    ret (inr (errors_New
                      ("unexpected status code: " +:+ pretty (StatusCode resp))))
              end
          end
      end
  end.

(** [Client.Command]: the command name must be [git], otherwise it
    panics. *)
Definition Command (c : Client) (name : string) (arg : list string)
    : Result Cmd :=
  if decide (name ≠ "git") then
    Panic "gitserver: command name must be 'git'"
  else
    Ok {| client := c; Args := "git" :: arg; Repo := None;
          EnsureRevision := ""; ExitStatus := 0 |}.

Definition set_ExitStatus (c : Cmd) (status : Z) : Cmd :=
  {| client := client c; Args := Args c; Repo := Repo c;
     EnsureRevision := EnsureRevision c; ExitStatus := status |}.

(** [Cmd.DividedOutput]: standard output, standard error and the error;
    the command comes back with its [ExitStatus] field as assigned. *)
Definition DividedOutput (c : Cmd) (ctx : Context)
    : M World (Cmd * (list Z * list Z * option error)) :=
  r <- sendExec c ctx ;;
  match r with
  | inr err => ret (c, ([], [], Some err))
  | inl (rc, trailer) =>
      let '(stdout, err) := ReadAll rc in
      match err with
      | Some err => ret (c, ([], [], Some err))
      | None =>
          let '(status, err) :=
            strconv.Atoi (Header_Get trailer "X-Exec-Exit-Status") in
          let c := set_ExitStatus c status in
          match err with
          | Some err => ret (c, ([], [], Some err))
          | None =>
              let stderr := bytes_of_string (Header_Get trailer "X-Exec-Stderr") in
              let errorMsg := Header_Get trailer "X-Exec-Error" in
              if decide (errorMsg ≠ "") then
                ret (c, (stdout, stderr, Some (errors_New errorMsg)))
              else
                ret (c, (stdout, stderr, None))
          end
      end
  end.

(** [StdoutReader]. *)
Definition StdoutReader (ctx : Context) (c : Cmd)
    : M World (cmdReader + error) :=
  r <- sendExec c ctx ;;
  match r with
  | inr err => ret (inr err)
  | inl (rc, trailer) => ret (inl {| rc := rc; trailer := trailer |})
  end.

(** The stderr that the reader puts in its error message. *)
Definition truncate_stderr (stderr : string) : string :=
  if decide (100 < String.length stderr) then
    substring 0 100 stderr +:+ "... (truncated)"
  else stderr.

(** [cmdReader.Read] with a buffer of [cap] bytes. *)
Definition cmdReader_Read (c : cmdReader) (cap : nat)
    : ReadResult * cmdReader :=
  let '((data, err), rc') := Reader_Read (rc c) cap in
  let c' := {| rc := rc'; trailer := trailer c |} in
  let n := length data in
  let pass := {| rr_p := data; rr_n := n; rr_err := err |} in
  match err with
  | Some io_EOF =>
      let stderr := truncate_stderr (Header_Get (trailer c) "X-Exec-Stderr") in
      let errorMsg := Header_Get (trailer c) "X-Exec-Error" in
      if decide (errorMsg ≠ "") then
        ({| rr_p := data; rr_n := 0;
            rr_err := Some (errors_New
              (errorMsg +:+ " (stderr: " +:+ strconv_Quote stderr +:+ ")")) |}, c')
      else
        let exitStatus := Header_Get (trailer c) "X-Exec-Exit-Status" in
        if decide (exitStatus ≠ "0") then
          ({| rr_p := data; rr_n := 0;
              rr_err := Some (errors_New
                ("non-zero exit status: " +:+ exitStatus
                 +:+ " (stderr: " +:+ strconv_Quote stderr +:+ ")")) |}, c')
        else (pass, c')
  | _ => (pass, c')
  end.

(** [doListOne]: one GET of [/list] on one gitserver. *)
Definition doListOne (ctx : Context) (urlSuffix addr : string)
    : M World (list string * option error) :=
  r <- http_Do ctx (GET ("http://" +:+ addr +:+ "/list" +:+ urlSuffix)) ;;
  match r with
  | inr err => ret ([], Some err)
  | inl resp => ret (json_strings (Body resp))
  end.

(** [Client.RepoInfo]. *)
Definition RepoInfo (c : Client) (ctx : Context) (repo : string)
    : M World (option protocol.RepoInfoResponse * option error) :=
  addr <- lift (go_index (Addrs c) 0) ;;
  r <- httpPost c ctx addr "repo" (RepoInfoRequest repo) ;;
  match r with
  | inr err => ret (None, Some err)
  | inl resp =>
      if decide (StatusCode resp ≠ 200%Z) then
        ret (None, Some (url_Error "RepoInfo" (Request_URL resp)
               (errors_New ("RepoInfo: http status " +:+ pretty (StatusCode resp)))))
      else ret (json_RepoInfoResponse (Body resp))
  end.

(** [Client.UploadPack]: the shard is chosen as in [sendExec], and the
    exchange is handed to a reverse proxy aimed at it. *)
Definition UploadPack (c : Client) (repoURI : string)
    : Result UploadPackOutcome :=
  let repoURI := NormalizeRepo repoURI in
  let sum := md5.Sum (bytes_of_string repoURI) in
  match BigEndian_Uint64 sum with
  | None => Panic "runtime error: index out of range"
  | Some h =>
      match go_mod h (Z.of_nat (length (Addrs c))) with
      | Panic msg => Panic msg
      | Ok serverIndex =>
          match go_index (Addrs c) serverIndex with
          | Panic msg => Panic msg
          | Ok addr =>
              let u := "http://" +:+ addr +:+ "/upload-pack?repo="
                       +:+ url_QueryEscape repoURI in
              match url_Parse u with
              | Some err => Ok (http_Error err 500)
              | None => Ok (ProxyTo u)
              end
          end
      end
  end.
End gitserver.

(** ** Package gitserver: the other calls of the client *)

Section gitserver_calls.
(** As above: [protocol.NormalizeRepo] and the [encoding/json] decoders,
    here also those of a [bool] and of a [string] answer. *)
Variable NormalizeRepo : string → string.
Variable json_NotFoundPayload : Reader → protocol.NotFoundPayload * option error.
Variable json_strings : Reader → list string * option error.
Variable json_bool : Reader → bool * option error.
Variable json_string : Reader → string * option error.

(** [Cmd.Run]. *)
Definition Run (c : Cmd) (ctx : Context) : M World (Cmd * option error) :=
  r <- DividedOutput NormalizeRepo json_NotFoundPayload c ctx ;;
  let '(c', (_, _, err)) := r in
  ret (c', err).

(** [Cmd.Output]. *)
Definition Output (c : Cmd) (ctx : Context)
    : M World (Cmd * (list Z * option error)) :=
  r <- DividedOutput NormalizeRepo json_NotFoundPayload c ctx ;;
  let '(c', (stdout, _, err)) := r in
  ret (c', (stdout, err)).

(** [Cmd.CombinedOutput]. *)
Definition CombinedOutput (c : Cmd) (ctx : Context)
    : M World (Cmd * (list Z * option error)) :=
  r <- DividedOutput NormalizeRepo json_NotFoundPayload c ctx ;;
  let '(c', (stdout, stderr, err)) := r in
  ret (c', (stdout ++ stderr, err)).

(** [Client.ListGitolite]. *)
Definition ListGitolite (c : Client) (ctx : Context)
    : M World (list string * option error) :=
  addr <- lift (go_index (Addrs c) 0) ;;
  doListOne json_strings ctx "?gitolite" addr.

(** [Client.EnqueueRepoUpdate]. *)
Definition EnqueueRepoUpdate (c : Client) (ctx : Context) (repo : string)
    : M World (option error) :=
  addr <- lift (go_index (Addrs c) 0) ;;
  r <- httpPost c ctx addr "enqueue-repo-update" (RepoUpdateRequest repo) ;;
  match r with
  | inr err => ret (Some err)
  | inl _ => ret None
  end.

(** [Client.IsRepoCloneable]. *)
Definition IsRepoCloneable (c : Client) (ctx : Context) (repo : string)
    : M World (bool * option error) :=
  addr <- lift (go_index (Addrs c) 0) ;;
  r <- httpPost c ctx addr "is-repo-cloneable" (IsRepoCloneableRequest repo) ;;
  match r with
  | inr err => ret (false, Some err)
  | inl resp => ret (json_bool (Body resp))
  end.

(** [Client.IsRepoCloned]. *)
Definition IsRepoCloned (c : Client) (ctx : Context) (repo : string)
    : M World (bool * option error) :=
  addr <- lift (go_index (Addrs c) 0) ;;
  r <- httpPost c ctx addr "is-repo-cloned" (IsRepoClonedRequest repo) ;;
  match r with
  | inr err => ret (false, Some err)
  | inl resp =>
      let cloned := if decide (StatusCode resp = 200%Z) then true else false in
      ret (cloned, None)
  end.

(** [Client.RepoFromRemoteURL]. *)
Definition RepoFromRemoteURL (c : Client) (ctx : Context) (remoteURL : string)
    : M World (string * option error) :=
  addr <- lift (go_index (Addrs c) 0) ;;
  r <- httpPost c ctx addr "repo-from-remote-url"
         (RepoFromRemoteURLRequest remoteURL) ;;
  match r with
  | inr err => ret ("", Some err)
  | inl resp => ret (json_string (Body resp))
  end.
End gitserver_calls.

(** ** The fan-out list query *)

(** [doListMulti] starts one goroutine per address. A goroutine first runs
    [doListOne] and then, holding the mutex, records its result; the
    scheduler decides in which order the goroutines take these two steps.
    The model runs the goroutines under an explicit schedule (the list of
    the goroutine indices, one entry per step taken). A request is one
    step: it is answered under the context as it is at that step, which
    covers a request that completes before a sibling calls [cancel] (its
    step comes first) and one that is cut short by it (its step comes
    after). *)
Inductive Worker :=
  | Started (addr : string)
  | Fetched (list : list string) (listErr : option error)
  | Finished.

(** The variables the goroutines share: [err], [combinedList], whether
    [cancel] was called; and, for the statements below, the results in the
    order in which they were recorded, each with the index of its
    goroutine. *)
Record FanOut := {
  workers : list Worker;
  fo_err : option error;
  combinedList : list string;
  cancelled : bool;
  commits : list (nat * (list string * option error));
}.

(** [listErr != nil && listErr != context.Canceled && err == nil]. *)
Definition first_hard_failure (listErr err : option error) : bool :=
  match listErr, err with
  | Some e, None => negb (is_Canceled e)
  | _, _ => false
  end.

(** The critical section of goroutine [i]. *)
Definition commit (st : FanOut) (i : nat) (list : list string)
    (listErr : option error) : FanOut :=
  let hard := first_hard_failure listErr (fo_err st) in
  {| workers := <[i := Finished]> (workers st);
     fo_err := if hard then listErr else fo_err st;
     combinedList := combinedList st ++ list;
     cancelled := if hard then true else cancelled st;
     commits := commits st ++ [(i, (list, listErr))] |}.

Definition all_finished (st : FanOut) : bool :=
  forallb (λ w, match w with Finished => true | _ => false end) (workers st).

Section fanout.
Variable json_strings : Reader → list string * option error.

(** One step of goroutine [i]: its request, under the shared derived
    context, or its critical section. A goroutine that has finished (or
    an index that names none) takes no step. *)
Definition worker_step (ctx : Context) (urlSuffix : string) (st : FanOut)
    (i : nat) : M World FanOut :=
  match workers st !! i with
  | Some (Started addr) =>
      r <- doListOne json_strings (WithCancel ctx (cancelled st)) urlSuffix addr ;;
      ret {| workers := <[i := Fetched (fst r) (snd r)]> (workers st);
             fo_err := fo_err st;
             combinedList := combinedList st;
             cancelled := cancelled st;
             commits := commits st |}
  | Some (Fetched list listErr) => ret (commit st i list listErr)
  | _ => ret st
  end.

Fixpoint run_schedule (ctx : Context) (urlSuffix : string)
    (sched : list nat) (st : FanOut) : M World FanOut :=
  match sched with
  | [] => ret st
  | i :: sched' =>
      st' <- worker_step ctx urlSuffix st i ;;
      run_schedule ctx urlSuffix sched' st'
  end.

Definition fanout_init (addrs : list string) : FanOut :=
  {| workers := Started <$> addrs; fo_err := None; combinedList := [];
     cancelled := false; commits := [] |}.

(** The state in which [wg.Wait()] finds the shared variables, if the
    schedule lets every goroutine finish. *)
Definition fanout (sched : list nat) (ctx : Context) (urlSuffix : string)
    (addrs : list string) : M World (option FanOut) :=
  st <- run_schedule ctx urlSuffix sched (fanout_init addrs) ;;
  ret (if all_finished st then Some st else None).

(** [doListMulti] under the schedule [sched]; [None] when the schedule
    ends while [wg.Wait()] is still blocked. *)
Definition doListMulti (sched : list nat) (ctx : Context)
    (urlSuffix : string) (addrs : list string)
    : M World (option (list string * option error)) :=
  if decide (length addrs = 1) then
    addr <- lift (go_index addrs 0) ;;
    r <- doListOne json_strings ctx urlSuffix addr ;;
    ret (Some r)
  else
    st <- fanout sched ctx urlSuffix addrs ;;
    ret ((λ st, (sort_Strings (combinedList st), fo_err st)) <$> st).

(** [Client.ListCloning]. *)
Definition ListCloning (sched : list nat) (c : Client) (ctx : Context)
    : M World (option (list string * option error)) :=
  doListMulti sched ctx "?cloning" (Addrs c).
End fanout.

(** A schedule that lets every one of [n] goroutines finish: all the
    requests, then all the critical sections. *)
Definition round_robin (n : nat) : list nat := seq 0 n ++ seq 0 n.

(** ** Package graphqlbackend: the mirror-info resolver *)

Module graphqlbackend.

(** [repositoryResolver], by the field read here; the pointers
    [r.repository] and [r.repository.repo] are the ones [MirrorInfo] was
    given and are not nil. *)
Record repositoryResolver := { repo : sourcegraph.Repo }.

(** [repositoryMirrorInfoResolver]; [repoInfoOnce] is the [done] flag of
    the [sync.Once]. *)
Record repositoryMirrorInfoResolver := {
  repository : repositoryResolver;
  repoInfoOnce : bool;
  repoInfoResponse : option protocol.RepoInfoResponse;
  repoInfoErr : option error;
}.

(** [repositoryResolver.MirrorInfo]. *)
Definition MirrorInfo (r : repositoryResolver) : repositoryMirrorInfoResolver :=
  {| repository := r; repoInfoOnce := false;
     repoInfoResponse := None; repoInfoErr := None |}.

(** The methods run on the resolver object and the world. *)
Definition Heap : Type := repositoryMirrorInfoResolver * World.

(** The four exported methods and what they return. *)
Inductive Method := MRemoteURL | MCloned | MCloneInProgress | MUpdatedAt.

Inductive Value :=
  | VString (s : string)
  | VBool (b : bool)
  | VStringPtr (s : option string).

Section resolver.
Variable json_RepoInfoResponse : Reader → option protocol.RepoInfoResponse * option error.
(** [gitserver.DefaultClient], [backend.CheckCurrentUserIsSiteAdmin] and
    [Time.Format(time.RFC3339)]. *)
Variable DefaultClient : Client.
Variable CheckCurrentUserIsSiteAdmin : Context → option error.
Variable Format_RFC3339 : Z → string.

(** [r.repoInfoOnce.Do(f)]: [f] runs if the flag is not set, and the
    flag is set when [f] returns or panics. Callers that arrive while [f]
    runs wait for it, so the calls are taken one after another. *)
Definition repoInfoOnce_Do (f : M Heap unit) : M Heap unit :=
  λ h,
    if repoInfoOnce (fst h) then (Ok tt, h)
    else
      let '(res, (r, w)) := f h in
      (res, ({| repository := repository r; repoInfoOnce := true;
                repoInfoResponse := repoInfoResponse r;
                repoInfoErr := repoInfoErr r |}, w)).

(** The function handed to the [sync.Once]. *)
Definition fetch_repoInfo (ctx : Context) : M Heap unit :=
  λ h,
    let r := fst h in
    match RepoInfo json_RepoInfoResponse DefaultClient ctx
            (sourcegraph.URI (repo (repository r))) (snd h) with
    | (Ok (resp, err), w) =>
        (Ok tt, ({| repository := repository r; repoInfoOnce := repoInfoOnce r;
                    repoInfoResponse := resp; repoInfoErr := err |}, w))
    | (Panic msg, w) => (Panic msg, (r, w))
    end.

(** [repositoryMirrorInfoResolver.gitserverRepoInfo]. *)
Definition gitserverRepoInfo (ctx : Context)
    : M Heap (option protocol.RepoInfoResponse * option error) :=
  repoInfoOnce_Do (fetch_repoInfo ctx) ;;;
  λ h, (Ok (repoInfoResponse (fst h), repoInfoErr (fst h)), h).

Definition RemoteURL (ctx : Context) : M Heap (string * option error) :=
  match CheckCurrentUserIsSiteAdmin ctx with
  | Some err => ret ("", Some err)
  | None =>
      x <- gitserverRepoInfo ctx ;;
      match snd x with
      | Some err => ret ("", Some err)
      | None => info <- lift (go_deref (fst x)) ;; ret (protocol.URL info, None)
      end
  end.

Definition Cloned (ctx : Context) : M Heap (bool * option error) :=
  x <- gitserverRepoInfo ctx ;;
  match snd x with
  | Some err => ret (false, Some err)
  | None => info <- lift (go_deref (fst x)) ;; ret (protocol.Cloned info, None)
  end.

Definition CloneInProgress (ctx : Context) : M Heap (bool * option error) :=
  x <- gitserverRepoInfo ctx ;;
  match snd x with
  | Some err => ret (false, Some err)
  | None => info <- lift (go_deref (fst x)) ;; ret (protocol.CloneInProgress info, None)
  end.

Definition UpdatedAt (ctx : Context) : M Heap (option string * option error) :=
  x <- gitserverRepoInfo ctx ;;
  match snd x with
  | Some err => ret (None, Some err)
  | None =>
      info <- lift (go_deref (fst x)) ;;
      match protocol.LastFetched info with
      | None => ret (None, snd x)
      | Some t => ret (Some (Format_RFC3339 t), None)
      end
  end.

(** A call of one of the four methods. *)
Definition call (m : Method) (ctx : Context) : M Heap (Value * option error) :=
  match m with
  | MRemoteURL => x <- RemoteURL ctx ;; ret (VString (fst x), snd x)
  | MCloned => x <- Cloned ctx ;; ret (VBool (fst x), snd x)
  | MCloneInProgress => x <- CloneInProgress ctx ;; ret (VBool (fst x), snd x)
  | MUpdatedAt => x <- UpdatedAt ctx ;; ret (VStringPtr (fst x), snd x)
  end.

(** A sequence of calls on one resolver. A call that panics ends alone:
    the resolver and the world stay as the panic left them, and the next
    call runs on them. *)
Fixpoint calls (l : list (Method * Context)) (h : Heap)
    : list (Result (Value * option error)) * Heap :=
  match l with
  | [] => ([], h)
  | (m, ctx) :: l' =>
      let '(res, h') := call m ctx h in
      let '(rest, h'') := calls l' h' in
      (res :: rest, h'')
  end.
End resolver.
End graphqlbackend.

(** ** The package.json dependency diagnostics: locating a match *)

Module packageJsonDependency.

(** A JavaScript string, as the sequence of its UTF-16 code units. *)
Definition JSString : Type := list nat.

(** The code unit of the line feed. *)
Definition LF : nat := 10.

(** Whether [str] stands at the start of [line]. *)
Fixpoint starts_with (str line : JSString) : bool :=
  match str, line with
  | [], _ => true
  | _ :: _, [] => false
  | c :: str', d :: line' =>
      if decide (c = d) then starts_with str' line' else false
  end.

(** [line.indexOf(str)], searching from the start of [line], whose first
    code unit has position [k] in the whole line: the smallest position at
    which [str] occurs, or [-1]. The empty string occurs at position 0. *)
Fixpoint indexOf_from (k : nat) (line str : JSString) : Z :=
  if starts_with str line then Z.of_nat k
  else
    match line with
    | [] => (-1)%Z
    | _ :: line' => indexOf_from (S k) line' str
    end.

Definition indexOf (line str : JSString) : Z := indexOf_from 0 line str.

(** [text.split('\n')]: the pieces between the line feeds; there is one
    more piece than there are line feeds. *)
Fixpoint split (text : JSString) : list JSString :=
  match text with
  | [] => [[]]
  | c :: text' =>
      if decide (c = LF) then [] :: split text'
      else
        match split text' with
        | line :: lines => (c :: line) :: lines
        | [] => [[c]]
        end
  end.

(** [new sourcegraph.Range(startLine, startCharacter, endLine,
    endCharacter)], by the four numbers it is built from. *)
Record Range := {
  startLine : Z;
  startCharacter : Z;
  endLine : Z;
  endCharacter : Z;
}.

(** The loop of [findMatchRange] over the entries [[i, line]] that are
    left, [i] being the index of the first of them. *)
Fixpoint findMatchRange_from (i : nat) (lines : list JSString) (str : JSString)
    : option Range :=
  match lines with
  | [] => None
  | line :: lines' =>
      let j := indexOf line str in
      if decide (j ≠ (-1)%Z) then
        Some {| startLine := Z.of_nat i; startCharacter := j;
                endLine := Z.of_nat i;
                endCharacter := j + Z.of_nat (length str) |}
      else findMatchRange_from (S i) lines' str
  end.

(** [findMatchRange]. *)
Definition findMatchRange (text str : JSString) : option Range :=
  findMatchRange_from 0 (split text) str.
End packageJsonDependency.

(** * Definitions used to state the properties *)

(** The value of a byte sequence read as a big-endian number, as the
    specification words it. *)
Definition be_uint (b : list Z) : Z := foldl (λ acc x, 256 * acc + x)%Z 0%Z b.

(** The router as the specification describes it: normalize, digest, first
    8 bytes as a big-endian number, modulo the table size, index. It is
    defined on non-empty tables. *)
Definition route (normalize : string → string) (id : string)
    (table : list string) : option string :=
  match table with
  | [] => None
  | _ =>
      let digest := md5.Sum (bytes_of_string (normalize id)) in
      table !! Z.to_nat (be_uint (take 8 digest) mod Z.of_nat (length table))
  end.

(** The world after one more exchange. *)
Definition logged (w : World) (req : Request) : World :=
  {| network := network w; http_log := http_log w ++ [req];
     deadlineExceededCounter := deadlineExceededCounter w |}.

(** The world after one more start with an expired context. *)
Definition counted (w : World) : World :=
  {| network := network w; http_log := http_log w;
     deadlineExceededCounter := S (deadlineExceededCounter w) |}.

(** The request of an exec call for the repository [uri], sent to [addr]. *)
Definition exec_request (normalize : string → string) (c : Cmd)
    (uri : string) (args : list string) (addr : string) : Request :=
  POST ("http://" +:+ addr +:+ "/exec")
       (ExecRequest (normalize uri) (EnsureRevision c) args).

(** An exec call of a well-formed command under a live context, routed to
    a shard, to which the network gives [answer]. *)
Definition exec_answered (normalize : string → string) (c : Cmd)
    (ctx : Context) (w : World) (req : Request) (answer : Response + error)
    : Prop :=
  ∃ r name args addr,
    Repo c = Some r ∧ Args c = name :: args ∧ ctx_Err ctx = None
    ∧ route normalize (sourcegraph.URI r) (Addrs (client c)) = Some addr
    ∧ req = exec_request normalize c (sourcegraph.URI r) args addr
    ∧ network w ctx (http_log w) req = answer.

(** The failure a recorded result counts as: an error other than
    [context.Canceled]. *)
Definition hard_failure (c : nat * (list string * option error)) : option error :=
  match snd (snd c) with
  | Some e => if is_Canceled e then None else Some e
  | None => None
  end.

(** The first such failure, in recording order. *)
Fixpoint first_failure (cs : list (nat * (list string * option error)))
    : option error :=
  match cs with
  | [] => None
  | c :: cs' =>
      match hard_failure c with
      | Some e => Some e
      | None => first_failure cs'
      end
  end.

(** The request [doListOne] makes to [addr]. *)
Definition list_request (urlSuffix addr : string) : Request :=
  GET ("http://" +:+ addr +:+ "/list" +:+ urlSuffix).

(** The request of the goroutine of index [i]. *)
Definition request_of (urlSuffix : string) (addrs : list string) (i : nat)
    : Request :=
  list_request urlSuffix (default "" (addrs !! i)).

(** The world once the requests [reqs] have been made in the world [w0]. *)
Definition world_after (w0 : World) (reqs : list Request) : World :=
  {| network := network w0; http_log := http_log w0 ++ reqs;
     deadlineExceededCounter := deadlineExceededCounter w0 |}.

(** The number of steps a schedule gives the goroutine [i]. The first
    step of a goroutine is its request and the second its critical
    section; further steps find it finished. *)
Definition steps_of (sched : list nat) (i : nat) : nat :=
  count_occ Nat.eq_dec sched i.

(** The part of a schedule that comes before the first step of the
    goroutine [i]. *)
Fixpoint before_first (sched : list nat) (i : nat) : list nat :=
  match sched with
  | [] => []
  | j :: sched' => if decide (j = i) then [] else j :: before_first sched' i
  end.

(** The goroutines, of [n], that have recorded their result by the end of
    a schedule: those that were given both their steps. *)
Definition recorded_by (n : nat) (sched : list nat) : list nat :=
  filter (λ j, 2 ≤ steps_of sched j) (seq 0 n).

(** The number of results that are recorded when the goroutine [i] makes
    its request. *)
Definition recorded_before (n : nat) (sched : list nat) (i : nat) : nat :=
  length (recorded_by n (before_first sched i)).

(** Whether [cancel] had been called when the first [m] of the results
    [cs] were recorded: whether one of them is a failure other than a
    cancellation. *)
Definition cancelled_when (cs : list (nat * (list string * option error)))
    (m : nat) : bool :=
  match first_failure (take m cs) with
  | Some _ => true
  | None => false
  end.

Section fanout_spec.
Variable json_strings : Reader → list string * option error.
Variable ctx : Context.
Variable urlSuffix : string.
Variable addrs : list string.

(** The result [(l, e)] is what [doListOne] returned to the goroutine [i]
    in the run that started in the world [w0] and in which the goroutines
    made their requests in the order [sent]: the goroutine called it for
    its own address, in the world as the requests made before its own had
    left it, under the derived context, on which [cancel] had been called
    at that moment if [b] and had not been called otherwise. *)
Definition produced (w0 : World) (sent : list nat) (i : nat) (b : bool)
    (l : list string) (e : option error) : Prop :=
  ∃ k addr,
    sent !! k = Some i
    ∧ addrs !! i = Some addr
    ∧ fst (doListOne json_strings (WithCancel ctx b) urlSuffix addr
             (world_after w0 (request_of urlSuffix addrs <$> take k sent)))
      = Ok (l, e).

(** What holds of the shared variables between the steps of the
    goroutines. *)
Record fanout_inv (st : FanOut) : Prop := {
  inv_length : length (workers st) = length addrs;
  inv_started : ∀ i addr, workers st !! i = Some (Started addr) →
                          addrs !! i = Some addr;
  inv_err : fo_err st = first_failure (commits st);
  inv_list : combinedList st = concat ((λ c, fst (snd c)) <$> commits st);
  inv_cancel :
    cancelled st = match fo_err st with Some _ => true | None => false end;
  inv_nodup : NoDup (fst <$> commits st);
  inv_done : ∀ i, i ∈ (fst <$> commits st) ↔ workers st !! i = Some Finished;
}.

(** What holds of the shared variables and the world together once the
    steps [done] of the schedule are taken, in the run that started in
    [w0]; [sent] are the goroutines that have made their request, in the
    order of the requests. A goroutine is where the number of its steps
    puts it; the world has changed by the requests and by nothing else;
    every result held or recorded is the one [doListOne] returned in this
    run, under the context as the results recorded before the request had
    left it. *)
Record run_inv (w0 : World) (done sent : list nat) (st : FanOut) (w : World)
    : Prop := {
  run_world : w = world_after w0 (request_of urlSuffix addrs <$> sent);
  run_nodup : NoDup sent;
  run_steps :
    ∀ i wk, workers st !! i = Some wk →
      match wk with
      | Started _ => steps_of done i = 0 ∧ i ∉ sent
      | Fetched _ _ => steps_of done i = 1 ∧ i ∈ sent
      | Finished => 2 ≤ steps_of done i ∧ i ∈ sent
      end;
  run_sent :
    ∀ i, i ∈ sent →
      i < length addrs
      ∧ recorded_before (length addrs) done i ≤ length (commits st);
  run_fetched :
    ∀ i l e, workers st !! i = Some (Fetched l e) →
      produced w0 sent i
        (cancelled_when (commits st) (recorded_before (length addrs) done i))
        l e;
  run_commits :
    Forall (λ c, produced w0 sent (fst c)
                   (cancelled_when (commits st)
                      (recorded_before (length addrs) done (fst c)))
                   (fst (snd c)) (snd (snd c)))
           (commits st);
}.
End fanout_spec.

(** A goroutine that has its result and has not recorded it yet. *)
Definition is_fetched (wk : Worker) : Prop :=
  match wk with Fetched _ _ => True | _ => False end.

(** The resolver once the [sync.Once] has run the read that returned
    [res], or that panicked. *)
Definition memoized (r : graphqlbackend.repositoryMirrorInfoResolver)
    (res : Result (option protocol.RepoInfoResponse * option error))
    : graphqlbackend.repositoryMirrorInfoResolver :=
  match res with
  | Ok (resp, err) =>
      {| graphqlbackend.repository := graphqlbackend.repository r;
         graphqlbackend.repoInfoOnce := true;
         graphqlbackend.repoInfoResponse := resp;
         graphqlbackend.repoInfoErr := err |}
  | Panic _ =>
      {| graphqlbackend.repository := graphqlbackend.repository r;
         graphqlbackend.repoInfoOnce := true;
         graphqlbackend.repoInfoResponse := graphqlbackend.repoInfoResponse r;
         graphqlbackend.repoInfoErr := graphqlbackend.repoInfoErr r |}
  end.

(** What a method of the resolver returns together with an error. *)
Definition zero_value (m : graphqlbackend.Method) : graphqlbackend.Value :=
  match m with
  | graphqlbackend.MRemoteURL => graphqlbackend.VString ""
  | graphqlbackend.MCloned => graphqlbackend.VBool false
  | graphqlbackend.MCloneInProgress => graphqlbackend.VBool false
  | graphqlbackend.MUpdatedAt => graphqlbackend.VStringPtr None
  end.

(** What a method of the resolver reads from a response. *)
Definition field_of (Format_RFC3339 : Z → string) (m : graphqlbackend.Method)
    (info : protocol.RepoInfoResponse) : graphqlbackend.Value :=
  match m with
  | graphqlbackend.MRemoteURL => graphqlbackend.VString (protocol.URL info)
  | graphqlbackend.MCloned => graphqlbackend.VBool (protocol.Cloned info)
  | graphqlbackend.MCloneInProgress =>
      graphqlbackend.VBool (protocol.CloneInProgress info)
  | graphqlbackend.MUpdatedAt =>
      graphqlbackend.VStringPtr (Format_RFC3339 <$> protocol.LastFetched info)
  end.

(** The caller under [ctx] gets past the access check of the method [m]:
    only [RemoteURL] has one. *)
Definition allowed (CheckCurrentUserIsSiteAdmin : Context → option error)
    (m : graphqlbackend.Method) (ctx : Context) : Prop :=
  m = graphqlbackend.MRemoteURL → CheckCurrentUserIsSiteAdmin ctx = None.

(** A caller's read loop over the stream, with a buffer of [cap] bytes: it
    collects the bytes each [Read] delivers and stops at the first error
    (which is [io.EOF] when the stream ends cleanly). *)
Fixpoint read_to_end (strconv_Quote : string → string) (cap fuel : nat)
    (c : cmdReader) : list Z * option error :=
  match fuel with
  | 0 => ([], None)
  | S fuel' =>
      let '(res, c') := cmdReader_Read strconv_Quote c cap in
      match rr_err res with
      | Some e => (delivered res, Some e)
      | None =>
          let '(rest, e) := read_to_end strconv_Quote cap fuel' c' in
          (delivered res ++ rest, e)
      end
  end.

(** A body that reports its end of stream alone, after the last bytes. *)
Definition separate_EOF (r : Reader) : Prop :=
  Forall (λ ev, snd ev = Some io_EOF → fst ev = []) r.

(** The number of reads that surely use up a script. *)
Fixpoint reads_bound (r : Reader) : nat :=
  match r with
  | [] => 1
  | (data, _) :: r' => S (length data) + reads_bound r'
  end.

(** The request of a call that goes to the first address by convention. *)
Definition first_address_request (addr method : string) (payload : Payload)
    : Request :=
  POST ("http://" +:+ addr +:+ "/" +:+ method) payload.


(** The error [cmdReader.Read] returns in place of the body's [io.EOF]:
    the one of the error trailer, else the one of an exit status other
    than the string [0], else [io.EOF] itself. *)
Definition end_of_stream_error (strconv_Quote : string → string) (tr : Header)
    : error :=
  let stderr := truncate_stderr (Header_Get tr "X-Exec-Stderr") in
  if decide (Header_Get tr "X-Exec-Error" ≠ "") then
    errors_New (Header_Get tr "X-Exec-Error"
                +:+ " (stderr: " +:+ strconv_Quote stderr +:+ ")")
  else if decide (Header_Get tr "X-Exec-Exit-Status" ≠ "0") then
    errors_New ("non-zero exit status: " +:+ Header_Get tr "X-Exec-Exit-Status"
                +:+ " (stderr: " +:+ strconv_Quote stderr +:+ ")")
  else io_EOF.

(** The answers to an exec request for which [sendExec] returns the error
    [err]: the exchange failed with it; or the status is neither 200 nor
    404 and [err] names it; or the status is 404 and [err] is the error of
    decoding the body. *)
Definition exec_refused
    (json_NotFoundPayload : Reader → protocol.NotFoundPayload * option error)
    (answer : Response + error) (err : error) : Prop :=
  answer = inr err
  ∨ (∃ resp,
       answer = inl resp
       ∧ StatusCode resp ≠ 200%Z ∧ StatusCode resp ≠ 404%Z
       ∧ err = errors_New ("unexpected status code: " +:+ pretty (StatusCode resp)))
  ∨ (∃ resp payload,
       answer = inl resp
       ∧ StatusCode resp = 404%Z
       ∧ json_NotFoundPayload (Body resp) = (payload, Some err)).

(** What [doListOne] makes of the answer to its request. *)
Definition list_result (json_strings : Reader → list string * option error)
    (answer : Response + error) : list string * option error :=
  match answer with
  | inr err => ([], Some err)
  | inl resp => json_strings (Body resp)
  end.

(** What holds of the world between the steps of the goroutines, [w0]
    being the world [doListMulti] started in: the requests sent so far are
    those of the goroutines that have left their start, one each, in the
    order [sent], and nothing else has changed. *)
Definition requests_inv (urlSuffix : string) (addrs : list string)
    (w0 : World) (st : FanOut) (w : World) : Prop :=
  ∃ sent : list nat,
    NoDup sent
    ∧ (∀ i, i ∈ sent ↔
            ∃ wk, workers st !! i = Some wk ∧ ∀ addr, wk ≠ Started addr)
    ∧ http_log w = http_log w0 ++ (request_of urlSuffix addrs <$> sent)
    ∧ network w = network w0
    ∧ deadlineExceededCounter w = deadlineExceededCounter w0.

(** What holds of the shared variables when no request has failed so far:
    nobody has called [cancel], and every result held or recorded is the
    one that [net] gives for the address of its goroutine. *)
Definition clean_inv (json_strings : Reader → list string * option error)
    (net : string → Response + error) (addrs : list string) (st : FanOut)
    : Prop :=
  cancelled st = false
  ∧ fo_err st = None
  ∧ (∀ i l e, workers st !! i = Some (Fetched l e) →
              ∃ addr, addrs !! i = Some addr
                      ∧ (l, e) = list_result json_strings (net addr))
  ∧ Forall (λ c, ∃ addr, addrs !! fst c = Some addr
                         ∧ snd c = list_result json_strings (net addr))
           (commits st).

(** [str] occurs in [line] at the position [j]. *)
Definition occurs_at (str line : packageJsonDependency.JSString) (j : nat) : Prop :=
  ∃ pre post, line = pre ++ str ++ post ∧ length pre = j.

(** The lines put together again, with a line feed between two of them. *)
Fixpoint join_lines (lines : list packageJsonDependency.JSString)
    : packageJsonDependency.JSString :=
  match lines with
  | [] => []
  | [line] => line
  | line :: lines' => line ++ packageJsonDependency.LF :: join_lines lines'
  end.

(** * Inputs for the examples *)

(** The table and the functions used to run the model on examples: the
    identity for [NormalizeRepo] and [url.QueryEscape], double quotes for
    [strconv.Quote], a [url.Parse] that accepts, and JSON decoders that
    know the documents of the examples. *)
Module example.
Definition table : list string :=
  ["gitserver-0:3178"; "gitserver-1:3178"; "gitserver-2:3178"].

Definition cl : Client := {| Addrs := table; NoCreds := false |}.

Definition normalize (s : string) : string := s.
Definition quote (s : string) : string := dquote +:+ s +:+ dquote.
Definition parse (u : string) : option error := None.
Definition escape (s : string) : string := s.

(** The document [{"cloneInProgress":b}]. *)
Definition not_found_body (b : string) : string :=
  "{" +:+ dquote +:+ "cloneInProgress" +:+ dquote +:+ ":" +:+ b +:+ "}".

Definition decode_NotFoundPayload (body : Reader)
    : protocol.NotFoundPayload * option error :=
  let text := string_of_bytes (Reader_bytes body) in
  if decide (text = not_found_body "true") then
    ({| protocol.nf_CloneInProgress := true |}, None)
  else if decide (text = not_found_body "false") then
    ({| protocol.nf_CloneInProgress := false |}, None)
  else ({| protocol.nf_CloneInProgress := false |},
        Some (json_error "invalid character")).

(** A command as a caller builds it: [Command("git", "log")] with the
    repository set. *)
Definition cmd : Cmd :=
  {| client := cl; Args := ["git"; "log"];
     Repo := Some {| sourcegraph.URI := "github.com/gorilla/mux" |};
     EnsureRevision := ""; ExitStatus := 0 |}.

Definition background : Context :=
  {| ctx_Err := None; ctx_Value := λ _, None |}.

Definition expired : Context :=
  {| ctx_Err := Some context_DeadlineExceeded; ctx_Value := λ _, None |}.

(** A world in which every exchange is answered by [answer]. *)
Definition world (answer : Response + error) : World :=
  {| network := λ _ _ _, answer; http_log := []; deadlineExceededCounter := 0 |}.

(** A 200 answer with the given body script and exec trailers. *)
Definition exec_answer (body : Reader) (status stderr errorMsg : string)
    : Response :=
  {| StatusCode := 200; Body := body;
     Trailer := {[ "X-Exec-Exit-Status" := [status];
                   "X-Exec-Stderr" := [stderr];
                   "X-Exec-Error" := [errorMsg] ]};
     Request_URL := "http://gitserver-0:3178/exec" |}.
End example.

(** A stderr of 101 bytes. *)
Definition long_stderr : string := string_of_list_ascii (replicate 101 "e"%char).

(** The 404 answer of the specification's example. *)
Definition not_found_answer : Response :=
  {| StatusCode := 404;
     Body := Reader_of_string (example.not_found_body "true");
     Trailer := ∅;
     Request_URL := "http://gitserver-0:3178/repo" |}.

(** Three shards: the first two list [b a] and [c], the third refuses the
    connection; a request under a cancelled context fails with the context
    error. The decoder of the example reads a body as words. *)
Module fanout_example.
Definition decode_strings (body : Reader) : list string * option error :=
  (String.words (string_of_bytes (Reader_bytes body)), None).

Definition answer (text : string) : Response + error :=
  inl {| StatusCode := 200; Body := Reader_of_string text; Trailer := ∅;
         Request_URL := "" |}.

Definition net (ctx : Context) (log : list Request) (req : Request)
    : Response + error :=
  match ctx_Err ctx with
  | Some e => inr e
  | None =>
      match req with
      | GET url =>
          if decide (url = "http://gitserver-0:3178/list?cloning") then answer "b a"
          else if decide (url = "http://gitserver-1:3178/list?cloning") then answer "c"
          else inr (transport_error "connection refused")
      | POST _ _ => inr (transport_error "connection refused")
      end
  end.

Definition w : World :=
  {| network := net; http_log := []; deadlineExceededCounter := 0 |}.
End fanout_example.

(** A resolver, a gitserver answer and an access check for the examples:
    the repository is cloned, and no caller is a site admin. *)
Module memo_example.
Definition rr : graphqlbackend.repositoryResolver :=
  {| graphqlbackend.repo := {| sourcegraph.URI := "github.com/gorilla/mux" |} |}.

Definition info : protocol.RepoInfoResponse :=
  {| protocol.URL := "https://github.com/gorilla/mux";
     protocol.Cloned := true;
     protocol.CloneInProgress := false;
     protocol.LastFetched := None |}.

Definition decode (body : Reader)
    : option protocol.RepoInfoResponse * option error := (Some info, None).

Definition w : World :=
  example.world (inl {| StatusCode := 200; Body := Reader_of_string "{}";
                        Trailer := ∅;
                        Request_URL := "http://gitserver-0:3178/repo" |}).

Definition not_admin (ctx : Context) : option error :=
  Some (errors_New "must be site admin").

Definition format (t : Z) : string := pretty t.
End memo_example.

(** * Properties *)

(** ** The library models on known values *)

Example md5_empty :
  hex (md5.Sum (bytes_of_string "")) = "d41d8cd98f00b204e9800998ecf8427e".
Proof. vm_compute. reflexivity. Qed.

Example md5_abc :
  hex (md5.Sum (bytes_of_string "abc")) = "900150983cd24fb0d6963f7d28e17f72".
Proof. vm_compute. reflexivity. Qed.

Example md5_two_blocks :
  hex (md5.Sum (bytes_of_string
    "12345678901234567890123456789012345678901234567890123456789012345678901234567890"))
  = "57edf4a22be3c955ac49da2e2107b67a".
Proof. vm_compute. reflexivity. Qed.

Example md5_route_prefix :
  BigEndian_Uint64 (md5.Sum (bytes_of_string "github.com/gorilla/mux"))
  = Some 18415279788091273713%Z.
Proof. vm_compute. reflexivity. Qed.

Example Atoi_zero : strconv.Atoi "0" = (0%Z, None).
Proof. reflexivity. Qed.
Example Atoi_double_zero : strconv.Atoi "00" = (0%Z, None).
Proof. reflexivity. Qed.
Example Atoi_negative : strconv.Atoi "-128" = ((-128)%Z, None).
Proof. reflexivity. Qed.
Example Atoi_empty :
  strconv.Atoi "" = (0%Z, Some (strconv_NumError "Atoi" "" ErrSyntax)).
Proof. reflexivity. Qed.
Example Atoi_text :
  strconv.Atoi "1x" = (0%Z, Some (strconv_NumError "Atoi" "1x" ErrSyntax)).
Proof. reflexivity. Qed.

Example sort_Strings_example :
  sort_Strings ["c"; "a"; "b"; "B"; "ab"] = ["B"; "a"; "ab"; "b"; "c"].
Proof. vm_compute. reflexivity. Qed.

(** Whatever algorithm sorts a list of strings, the result is that of
    [sort_Strings]. *)
Lemma sort_Strings_unique (l sorted : list string) :
  Sorted String.le sorted → sorted ≡ₚ l → sorted = sort_Strings l.
Proof.
  intros Hsorted Hperm.
  apply (Sorted_unique String.le); [exact Hsorted | |].
  - apply (Sorted_merge_sort String.le).
  - rewrite Hperm. symmetry. apply (merge_sort_Permutation String.le).
Qed.

(** ** Digest and big-endian decoding *)

Lemma le32_length x : length (md5.le32 x) = 4.
Proof. reflexivity. Qed.

Lemma le32_bytes x : Forall is_byte (md5.le32 x).
Proof.
  unfold md5.le32, is_byte.
  repeat constructor; apply Z.mod_pos_bound; lia.
Qed.

Lemma md5_Sum_length data : length (md5.Sum data) = 16.
Proof.
  unfold md5.Sum.
  destruct (foldl md5.block md5.init _) as [[[a b] c] d].
  reflexivity.
Qed.

Lemma md5_Sum_bytes data : Forall is_byte (md5.Sum data).
Proof.
  unfold md5.Sum.
  destruct (foldl md5.block md5.init _) as [[[a b] c] d].
  repeat (apply Forall_app; split); apply le32_bytes.
Qed.

(** On disjoint bit ranges [|] is [+]. *)
Lemma lor_shiftl_add a b k :
  (0 ≤ k → 0 ≤ a < 2 ^ k → Z.lor a (Z.shiftl b k) = a + b * 2 ^ k)%Z.
Proof.
  intros Hk Ha.
  rewrite Z.shiftl_mul_pow2 by lia.
  assert (Hland : Z.land a (b * 2 ^ k) = 0%Z).
  { apply Z.bits_inj'. intros n Hn.
    rewrite Z.land_spec, Z.bits_0.
    destruct (Z.lt_ge_cases n k) as [Hlt | Hge].
    - rewrite Z.mul_pow2_bits_low by lia. apply andb_false_r.
    - destruct (Z.eq_dec a 0%Z) as [-> | Hne].
      + rewrite Z.bits_0. reflexivity.
      + rewrite (Z.bits_above_log2 a n); [reflexivity | lia |].
        apply Z.log2_lt_pow2; [lia |].
        apply Z.lt_le_trans with (2 ^ k)%Z; [lia |].
        apply Z.pow_le_mono_r; lia. }
  rewrite <- Z.lxor_lor by exact Hland.
  symmetry. apply Z.add_nocarry_lxor. exact Hland.
Qed.

Lemma BigEndian_Uint64_be_uint (b : list Z) :
  Forall is_byte b → 8 ≤ length b →
  BigEndian_Uint64 b = Some (be_uint (take 8 b))
  ∧ (0 ≤ be_uint (take 8 b) < 2 ^ 64)%Z.
Proof.
  intros Hb Hlen.
  destruct b as [| b0 [| b1 [| b2 [| b3 [| b4 [| b5 [| b6 [| b7 b]]]]]]]];
    try (simpl in Hlen; lia).
  repeat match goal with
         | H : Forall _ (_ :: _) |- _ =>
             apply Forall_cons in H; destruct H as [? H]
         end.
  unfold is_byte in *.
  cbn [BigEndian_Uint64 take be_uint foldl].
  change (2 ^ 64)%Z with 18446744073709551616%Z.
  rewrite (lor_shiftl_add b7 b6 8) by lia.
  rewrite (lor_shiftl_add _ b5 16) by lia.
  rewrite (lor_shiftl_add _ b4 24) by lia.
  rewrite (lor_shiftl_add _ b3 32) by lia.
  rewrite (lor_shiftl_add _ b2 40) by lia.
  rewrite (lor_shiftl_add _ b1 48) by lia.
  rewrite (lor_shiftl_add _ b0 56) by lia.
  rewrite take_0. cbn [foldl].
  split; [f_equal |]; lia.
Qed.

(** ** Shard routing *)

Example route_three_shards :
  route (λ s, s) "github.com/gorilla/mux"
    ["gitserver-0:3178"; "gitserver-1:3178"; "gitserver-2:3178"]
  = Some "gitserver-0:3178".
Proof. vm_compute. reflexivity. Qed.

Example route_empty_table : route (λ s, s) "github.com/gorilla/mux" [] = None.
Proof. vm_compute. reflexivity. Qed.

(** What the routing code of [sendExec] and [UploadPack] computes, step by
    step, on a non-empty table. *)
Lemma routing_steps (table : list string) (data : list Z) :
  table ≠ [] →
  ∃ h addr,
    BigEndian_Uint64 (md5.Sum data) = Some h
    ∧ h = be_uint (take 8 (md5.Sum data))
    ∧ go_mod h (Z.of_nat (length table)) = Ok (h mod Z.of_nat (length table))%Z
    ∧ go_index table (h mod Z.of_nat (length table))%Z = Ok addr
    ∧ table !! Z.to_nat (h mod Z.of_nat (length table)) = Some addr.
Proof.
  intros Hne.
  destruct (BigEndian_Uint64_be_uint (md5.Sum data)) as [Hbe Hrange].
  { apply md5_Sum_bytes. }
  { rewrite md5_Sum_length. lia. }
  assert (Hlen : (0 < Z.of_nat (length table))%Z).
  { destruct table; [congruence | simpl; lia]. }
  pose proof (Z.mod_pos_bound (be_uint (take 8 (md5.Sum data)))
                (Z.of_nat (length table)) Hlen) as Hmod.
  destruct (lookup_lt_is_Some_2 table
              (Z.to_nat (be_uint (take 8 (md5.Sum data))
                         mod Z.of_nat (length table)))) as [addr Haddr].
  { lia. }
  exists (be_uint (take 8 (md5.Sum data))), addr.
  repeat split; try assumption.
  - unfold go_mod. destruct (Z.eqb_spec (Z.of_nat (length table)) 0); [lia | reflexivity].
  - unfold go_index. rewrite Haddr. reflexivity.
Qed.

(** C1. On a non-empty address table, both [sendExec] and [UploadPack]
    address the shard that the specified router picks: the table entry at
    (first 8 digest bytes of the normalized identifier, big-endian) modulo
    the table size. The address depends on the normalized identifier and
    the table only: not on the world, the context, or the other fields of
    the command, and two identifiers with the same normal form get the same
    address. *)
Theorem routing_by_md5_prefix
    (NormalizeRepo : string → string)
    (json_NotFoundPayload : Reader → protocol.NotFoundPayload * option error)
    (url_Parse : string → option error) (url_QueryEscape : string → string)
    (cl : Client) (uri : string) :
  Addrs cl ≠ [] →
  ∃ addr,
    route NormalizeRepo uri (Addrs cl) = Some addr
    ∧ addr ∈ Addrs cl
    ∧ (∀ (c : Cmd) (ctx : Context) (w : World) (name : string) (args : list string),
         client c = cl → Repo c = Some {| sourcegraph.URI := uri |} →
         Args c = name :: args → ctx_Err ctx = None →
         ∃ res,
           sendExec NormalizeRepo json_NotFoundPayload c ctx w
           = (Ok res,
              {| network := network w;
                 http_log := http_log w ++
                   [POST ("http://" +:+ addr +:+ "/exec")
                      (ExecRequest (NormalizeRepo uri) (EnsureRevision c) args)];
                 deadlineExceededCounter := deadlineExceededCounter w |}))
    ∧ UploadPack NormalizeRepo url_Parse url_QueryEscape cl uri
      = Ok (let u := "http://" +:+ addr +:+ "/upload-pack?repo="
                     +:+ url_QueryEscape (NormalizeRepo uri) in
            match url_Parse u with
            | Some err => http_Error err 500
            | None => ProxyTo u
            end)
    ∧ (∀ uri', NormalizeRepo uri' = NormalizeRepo uri →
         route NormalizeRepo uri' (Addrs cl) = Some addr).
Proof.
  intros Hne.
  destruct (routing_steps (Addrs cl) (bytes_of_string (NormalizeRepo uri)) Hne)
    as (h & addr & Hbe & Hh & Hmod & Hidx & Hlook).
  exists addr.
  assert (Hroute : route NormalizeRepo uri (Addrs cl) = Some addr).
  { unfold route. destruct (Addrs cl) eqn:Htable; [congruence |].
    cbv zeta. rewrite <- Hh. exact Hlook. }
  split; [exact Hroute |].
  split; [eapply list_elem_of_lookup_2; exact Hlook |].
  split; [| split].
  - intros c ctx w name args Hcl HRepo HArgs Hctx.
    unfold sendExec, bind, lift, httpPost, http_Do, ret.
    rewrite HRepo, HArgs, Hctx, Hcl. cbn [go_deref sourcegraph.URI].
    rewrite Hbe, Hmod, Hidx.
    destruct (network w ctx (http_log w) _) as [resp | err]; [| eauto].
    repeat case_decide; try destruct (json_NotFoundPayload _) as [? [?|]]; eauto.
  - unfold UploadPack. cbv zeta. rewrite Hbe, Hmod, Hidx.
    destruct (url_Parse _); reflexivity.
  - intros uri' Hnorm. unfold route in *. rewrite Hnorm. exact Hroute.
Qed.

Lemma routing_by_md5_prefix_witness :
  Addrs example.cl ≠ []
  ∧ UploadPack example.normalize example.parse example.escape example.cl
      "github.com/gorilla/mux"
    = Ok (ProxyTo "http://gitserver-0:3178/upload-pack?repo=github.com/gorilla/mux").
Proof.
  split; [discriminate |].
  destruct (routing_by_md5_prefix example.normalize example.decode_NotFoundPayload
              example.parse example.escape example.cl "github.com/gorilla/mux")
    as (addr & Hroute & _ & _ & Hup & _).
  { discriminate. }
  vm_compute in Hroute. injection Hroute as <-.
  rewrite Hup. reflexivity.
Defined.

(** ** The command gate *)

(** C2. A command name other than [git] makes [Client.Command] panic, and
    a program that builds such a command and goes on to use it stops at the
    panic with the world as it was: no HTTP request has been made. *)
Theorem Command_rejects_other_programs
    (c : Client) (name : string) (arg : list string) :
  name ≠ "git" →
  Command c name arg = Panic "gitserver: command name must be 'git'"
  ∧ ∀ (B : Type) (k : Cmd → M World B) (w : World),
      (cmd <- lift (Command c name arg) ;; k cmd) w
      = (Panic "gitserver: command name must be 'git'", w).
Proof.
  intros Hname.
  assert (HC : Command c name arg = Panic "gitserver: command name must be 'git'").
  { unfold Command. case_decide; [reflexivity | contradiction]. }
  split; [exact HC |].
  intros B k w. unfold bind, lift. rewrite HC. reflexivity.
Qed.

Lemma Command_rejects_other_programs_witness :
  "sh" ≠ "git"
  ∧ (cmd <- lift (Command example.cl "sh" ["-c"; "id"]) ;;
     DividedOutput example.normalize example.decode_NotFoundPayload cmd
       example.background) (example.world (inr (transport_error "unreachable")))
    = (Panic "gitserver: command name must be 'git'",
       example.world (inr (transport_error "unreachable"))).
Proof.
  split; [discriminate |].
  apply (Command_rejects_other_programs example.cl "sh" ["-c"; "id"]).
  discriminate.
Defined.

(** The gate lets [git] through. *)
Lemma Command_git (c : Client) (arg : list string) :
  Command c "git" arg
  = Ok {| client := c; Args := "git" :: arg; Repo := None;
          EnsureRevision := ""; ExitStatus := 0 |}.
Proof. reflexivity. Qed.

(** ** What an exec call sends and how the answer is dispatched *)

Section exec.
Variable NormalizeRepo : string → string.
Variable json_NotFoundPayload : Reader → protocol.NotFoundPayload * option error.

Lemma sendExec_dispatch c ctx w req answer :
  exec_answered NormalizeRepo c ctx w req answer →
  sendExec NormalizeRepo json_NotFoundPayload c ctx w
  = (Ok match answer with
        | inr err => inr err
        | inl resp =>
            if decide (StatusCode resp = 200%Z) then
              inl (Body resp, Trailer resp)
            else if decide (StatusCode resp = 404%Z) then
              match json_NotFoundPayload (Body resp) with
              | (_, Some err) => inr err
              | (payload, None) =>
                  inr (vcs_RepoNotExistError (protocol.nf_CloneInProgress payload))
              end
            else
              inr (errors_New
                ("unexpected status code: " +:+ pretty (StatusCode resp)))
        end,
     logged w req).
Proof.
  intros (r & name & args & addr & HRepo & HArgs & Hctx & Hroute & -> & <-).
  assert (Hne : Addrs (client c) ≠ []).
  { intros Hnil. unfold route in Hroute. rewrite Hnil in Hroute. discriminate. }
  destruct (routing_steps (Addrs (client c))
              (bytes_of_string (NormalizeRepo (sourcegraph.URI r))) Hne)
    as (h & addr' & Hbe & Hh & Hmod & Hidx & Hlook).
  assert (addr' = addr) as ->.
  { unfold route in Hroute. destruct (Addrs (client c)); [congruence |].
    cbv zeta in Hroute. rewrite <- Hh in Hroute. congruence. }
  unfold sendExec, bind, lift, httpPost, http_Do, ret, exec_request, logged.
  rewrite HRepo, HArgs, Hctx. cbn [go_deref].
  rewrite Hbe, Hmod, Hidx.
  destruct (network w ctx (http_log w) _) as [resp | err]; [| reflexivity].
  repeat case_decide; try reflexivity.
  destruct (json_NotFoundPayload _) as [? [?|]]; reflexivity.
Qed.

Lemma sendExec_200 c ctx w req resp :
  exec_answered NormalizeRepo c ctx w req (inl resp) →
  StatusCode resp = 200%Z →
  sendExec NormalizeRepo json_NotFoundPayload c ctx w
  = (Ok (inl (Body resp, Trailer resp)), logged w req).
Proof.
  intros Hans Hcode. rewrite (sendExec_dispatch _ _ _ _ _ Hans).
  rewrite decide_True by exact Hcode. reflexivity.
Qed.

Lemma sendExec_expired c ctx w r name args err :
  Repo c = Some r → Args c = name :: args → ctx_Err ctx = Some err →
  sendExec NormalizeRepo json_NotFoundPayload c ctx w = (Ok (inr err), counted w).
Proof.
  intros HRepo HArgs Hctx.
  unfold sendExec, bind, lift, ret, deadlineExceededCounter_Inc.
  rewrite HRepo, HArgs, Hctx. reflexivity.
Qed.

(** Whatever happens to a call that starts under a live context, the
    counter stays as it was. *)
Lemma sendExec_live_counter c ctx w :
  ctx_Err ctx = None →
  deadlineExceededCounter
    (snd (sendExec NormalizeRepo json_NotFoundPayload c ctx w))
  = deadlineExceededCounter w.
Proof.
  intros Hctx.
  unfold sendExec, bind, lift, ret, panic, httpPost, http_Do.
  rewrite Hctx.
  destruct (Repo c); cbn [go_deref]; [| reflexivity].
  destruct (Args c); [reflexivity |].
  destruct (BigEndian_Uint64 _); [| reflexivity].
  destruct (go_mod _ _); [| reflexivity].
  destruct (go_index _ _); [| reflexivity].
  cbn.
  destruct (network w ctx (http_log w) _) as [resp | err]; [| reflexivity].
  repeat case_decide; try reflexivity.
  destruct (json_NotFoundPayload _) as [? [?|]]; reflexivity.
Qed.
End exec.

(** ** The expired-context check *)

(** C8. An exec call that starts under an expired context ([ctx.Err()] is
    not nil) returns that context error at once: no request is made, and
    the counter [client_deadline_exceeded] goes up by one; this holds for
    [sendExec] and so for [DividedOutput] and [StdoutReader]. A call that
    starts under a live context never moves the counter, whatever the
    network does to it afterwards. *)
Theorem expired_context_fails_fast
    (NormalizeRepo : string → string)
    (json_NotFoundPayload : Reader → protocol.NotFoundPayload * option error)
    (c : Cmd) (ctx : Context) (w : World)
    (r : sourcegraph.Repo) (name : string) (args : list string) :
  Repo c = Some r → Args c = name :: args →
  (∀ err, ctx_Err ctx = Some err →
     sendExec NormalizeRepo json_NotFoundPayload c ctx w
       = (Ok (inr err), counted w)
     ∧ DividedOutput NormalizeRepo json_NotFoundPayload c ctx w
       = (Ok (c, ([], [], Some err)), counted w)
     ∧ StdoutReader NormalizeRepo json_NotFoundPayload ctx c w
       = (Ok (inr err), counted w)
     ∧ http_log (counted w) = http_log w
     ∧ deadlineExceededCounter (counted w) = S (deadlineExceededCounter w))
  ∧ (ctx_Err ctx = None →
     deadlineExceededCounter
       (snd (sendExec NormalizeRepo json_NotFoundPayload c ctx w))
     = deadlineExceededCounter w).
Proof.
  intros HRepo HArgs. split.
  - intros err Hctx.
    pose proof (sendExec_expired NormalizeRepo json_NotFoundPayload
                  c ctx w r name args err HRepo HArgs Hctx) as Hsend.
    repeat split; try assumption.
    + unfold DividedOutput, bind. rewrite Hsend. reflexivity.
    + unfold StdoutReader, bind. rewrite Hsend. reflexivity.
  - apply sendExec_live_counter.
Qed.

Lemma expired_context_fails_fast_witness :
  DividedOutput example.normalize example.decode_NotFoundPayload
    example.cmd example.expired
    (example.world (inl (example.exec_answer [] "0" "" "")))
  = (Ok (example.cmd, ([], [], Some context_DeadlineExceeded)),
     counted (example.world (inl (example.exec_answer [] "0" "" "")))).
Proof.
  apply (expired_context_fails_fast example.normalize example.decode_NotFoundPayload
           example.cmd example.expired _
           {| sourcegraph.URI := "github.com/gorilla/mux" |} "git" ["log"]
           eq_refl eq_refl).
  reflexivity.
Defined.

(** ** Decoding the trailers: the buffering executor *)

Lemma Atoi_error (s : string) (v : Z) (e : error) :
  strconv.Atoi s = (v, Some e) → ∃ kind, e = strconv_NumError "Atoi" s kind.
Proof.
  unfold strconv.Atoi.
  destruct (match s with
            | String "-" s' => (true, s')
            | String "+" s' => (false, s')
            | _ => (false, s)
            end) as [neg body].
  destruct (strconv.unsigned body) as [n |]; [| intros [= _ <-]; eauto].
  repeat case_match; intros [= _ <-]; eauto.
Qed.

Section executor.
Variable NormalizeRepo : string → string.
Variable json_NotFoundPayload : Reader → protocol.NotFoundPayload * option error.

(** [DividedOutput] on a 200 answer, in one equation. *)
Lemma DividedOutput_200 c ctx w req resp :
  exec_answered NormalizeRepo c ctx w req (inl resp) →
  StatusCode resp = 200%Z →
  DividedOutput NormalizeRepo json_NotFoundPayload c ctx w
  = (Ok match ReadAll (Body resp) with
        | (_, Some err) => (c, ([], [], Some err))
        | (stdout, None) =>
            match strconv.Atoi (Header_Get (Trailer resp) "X-Exec-Exit-Status") with
            | (v, Some err) => (set_ExitStatus c v, ([], [], Some err))
            | (v, None) =>
                (set_ExitStatus c v,
                 (stdout,
                  bytes_of_string (Header_Get (Trailer resp) "X-Exec-Stderr"),
                  if decide (Header_Get (Trailer resp) "X-Exec-Error" ≠ "")
                  then Some (errors_New (Header_Get (Trailer resp) "X-Exec-Error"))
                  else None))
            end
        end,
     logged w req).
Proof.
  intros Hans Hcode.
  unfold DividedOutput, bind.
  rewrite (sendExec_200 _ _ _ _ _ _ _ Hans Hcode).
  destruct (ReadAll (Body resp)) as [stdout [err |]]; [reflexivity |].
  destruct (strconv.Atoi _) as [v [err |]]; [reflexivity |].
  case_decide; reflexivity.
Qed.
End executor.

(** C3. On a 200 answer whose body was read to its end without
    a read error: if the exit-status trailer does not parse as an integer,
    [DividedOutput] fails with the [strconv] error and returns neither
    stdout nor stderr, whatever the error trailer says; if it parses and the
    error trailer is not empty, the call returns that message as its error,
    also when the exit status is zero, together with the stdout and stderr
    bytes. *)
Theorem DividedOutput_trailers
    (NormalizeRepo : string → string)
    (json_NotFoundPayload : Reader → protocol.NotFoundPayload * option error)
    (c : Cmd) (ctx : Context) (w : World) (req : Request) (resp : Response)
    (stdout : list Z) :
  exec_answered NormalizeRepo c ctx w req (inl resp) →
  StatusCode resp = 200%Z →
  ReadAll (Body resp) = (stdout, None) →
  (∀ v e,
     strconv.Atoi (Header_Get (Trailer resp) "X-Exec-Exit-Status") = (v, Some e) →
     (∃ kind, e = strconv_NumError "Atoi"
                    (Header_Get (Trailer resp) "X-Exec-Exit-Status") kind)
     ∧ DividedOutput NormalizeRepo json_NotFoundPayload c ctx w
       = (Ok (set_ExitStatus c v, ([], [], Some e)), logged w req))
  ∧ (∀ v,
     strconv.Atoi (Header_Get (Trailer resp) "X-Exec-Exit-Status") = (v, None) →
     Header_Get (Trailer resp) "X-Exec-Error" ≠ "" →
     DividedOutput NormalizeRepo json_NotFoundPayload c ctx w
     = (Ok (set_ExitStatus c v,
            (stdout,
             bytes_of_string (Header_Get (Trailer resp) "X-Exec-Stderr"),
             Some (errors_New (Header_Get (Trailer resp) "X-Exec-Error")))),
        logged w req)).
Proof.
  intros Hans Hcode Hread.
  pose proof (DividedOutput_200 NormalizeRepo json_NotFoundPayload
                c ctx w req resp Hans Hcode) as Heq.
  rewrite Hread in Heq.
  split.
  - intros v e Hatoi. split; [eapply Atoi_error; exact Hatoi |].
    rewrite Heq, Hatoi. reflexivity.
  - intros v Hatoi Hmsg. rewrite Heq, Hatoi.
    rewrite decide_True by exact Hmsg. reflexivity.
Qed.

Lemma example_exec_answered (answer : Response + error) :
  exec_answered example.normalize example.cmd example.background
    (example.world answer)
    (POST "http://gitserver-0:3178/exec"
       (ExecRequest "github.com/gorilla/mux" "" ["log"]))
    answer.
Proof.
  exists {| sourcegraph.URI := "github.com/gorilla/mux" |}, "git", ["log"],
    "gitserver-0:3178".
  repeat split.
Defined.

Lemma DividedOutput_trailers_witness :
  DividedOutput example.normalize example.decode_NotFoundPayload
    example.cmd example.background
    (example.world (inl (example.exec_answer (Reader_of_string "ok") "0" "" "boom")))
  = (Ok (example.cmd, (bytes_of_string "ok", [], Some (errors_New "boom"))),
     logged (example.world
               (inl (example.exec_answer (Reader_of_string "ok") "0" "" "boom")))
            (POST "http://gitserver-0:3178/exec"
               (ExecRequest "github.com/gorilla/mux" "" ["log"]))).
Proof.
  pose proof (DividedOutput_trailers example.normalize
                example.decode_NotFoundPayload example.cmd example.background _ _
                (example.exec_answer (Reader_of_string "ok") "0" "" "boom")
                (bytes_of_string "ok")
                (example_exec_answered _) eq_refl eq_refl) as [_ Hmsg].
  apply (Hmsg 0%Z); vm_compute; [reflexivity | discriminate].
Defined.

(** The exit status is looked at before the error trailer: with a 200
    answer whose exit-status trailer is empty and whose error trailer is
    [boom], the call fails with the [strconv] error and returns no
    output. *)
Example DividedOutput_exit_status_comes_first :
  let resp := example.exec_answer (Reader_of_string "ok") "" "" "boom" in
  StatusCode resp = 200%Z
  ∧ Header_Get (Trailer resp) "X-Exec-Error" = "boom"
  ∧ ReadAll (Body resp) = (bytes_of_string "ok", None)
  ∧ fst (DividedOutput example.normalize example.decode_NotFoundPayload
           example.cmd example.background (example.world (inl resp)))
    = Ok (example.cmd, ([], [], Some (strconv_NumError "Atoi" "" ErrSyntax)))
  ∧ Some (strconv_NumError "Atoi" "" ErrSyntax) ≠ Some (errors_New "boom").
Proof.
  cbv zeta. repeat split; try (vm_compute; reflexivity). discriminate.
Qed.

(** ** The streaming reader *)

Lemma String_length_append (s1 s2 : string) :
  String.length (s1 +:+ s2) = String.length s1 + String.length s2.
Proof. induction s1 as [| a s1 IH]; simpl; [reflexivity | rewrite IH; reflexivity]. Qed.

Lemma String_length_prefix (n : nat) (s : string) :
  n ≤ String.length s → String.length (substring 0 n s) = n.
Proof.
  revert s. induction n as [| n IH]; intros s Hlen.
  - destruct s; reflexivity.
  - destruct s as [| a s]; simpl in *; [lia |].
    rewrite IH by lia. reflexivity.
Qed.

Lemma truncate_stderr_short (s : string) :
  String.length s ≤ 100 → truncate_stderr s = s.
Proof. intros Hlen. unfold truncate_stderr. rewrite decide_False by lia. reflexivity. Qed.

Lemma truncate_stderr_long (s : string) :
  100 < String.length s →
  truncate_stderr s = substring 0 100 s +:+ "... (truncated)"
  ∧ String.length (truncate_stderr s) = 115.
Proof.
  intros Hlen. unfold truncate_stderr. rewrite decide_True by lia.
  split; [reflexivity |].
  rewrite String_length_append, String_length_prefix by lia. reflexivity.
Qed.

Section reader.
Variable strconv_Quote : string → string.

(** A read that does not end the stream is passed through as it is. *)
Lemma cmdReader_Read_passes_through (c : cmdReader) (cap : nat)
    (data : list Z) (err : option error) (rc' : Reader) :
  Reader_Read (rc c) cap = ((data, err), rc') →
  err ≠ Some io_EOF →
  cmdReader_Read strconv_Quote c cap
  = ({| rr_p := data; rr_n := length data; rr_err := err |},
     {| rc := rc'; trailer := trailer c |}).
Proof.
  intros Hread Herr. unfold cmdReader_Read. rewrite Hread.
  destruct err as [[] |]; try reflexivity. congruence.
Qed.

(** The read that ends the stream, in one equation. *)
Lemma cmdReader_Read_EOF (c : cmdReader) (cap : nat)
    (data : list Z) (rc' : Reader) :
  Reader_Read (rc c) cap = ((data, Some io_EOF), rc') →
  cmdReader_Read strconv_Quote c cap
  = (let stderr := truncate_stderr (Header_Get (trailer c) "X-Exec-Stderr") in
     if decide (Header_Get (trailer c) "X-Exec-Error" ≠ "") then
       {| rr_p := data; rr_n := 0;
          rr_err := Some (errors_New
            (Header_Get (trailer c) "X-Exec-Error"
             +:+ " (stderr: " +:+ strconv_Quote stderr +:+ ")")) |}
     else if decide (Header_Get (trailer c) "X-Exec-Exit-Status" ≠ "0") then
       {| rr_p := data; rr_n := 0;
          rr_err := Some (errors_New
            ("non-zero exit status: "
             +:+ Header_Get (trailer c) "X-Exec-Exit-Status"
             +:+ " (stderr: " +:+ strconv_Quote stderr +:+ ")")) |}
     else {| rr_p := data; rr_n := length data; rr_err := Some io_EOF |},
     {| rc := rc'; trailer := trailer c |}).
Proof.
  intros Hread. unfold cmdReader_Read. rewrite Hread. cbv zeta.
  repeat case_decide; reflexivity.
Qed.
End reader.

Lemma delivered_all (data : list Z) (err : option error) :
  delivered {| rr_p := data; rr_n := length data; rr_err := err |} = data.
Proof. unfold delivered. simpl. apply firstn_all. Qed.

(** When the body reports its end of stream alone, the caller has received
    every byte of the body by the time a read returns an error, and under
    failing trailers that error is not [io.EOF]. *)
Lemma read_to_end_delivers_all
    (strconv_Quote : string → string) (tr : Header) (cap : nat) :
  0 < cap →
  ∀ fuel r,
    separate_EOF r → reads_bound r ≤ fuel →
    ∃ e,
      read_to_end strconv_Quote cap fuel {| rc := r; trailer := tr |}
      = (Reader_bytes r, Some e)
      ∧ (Header_Get tr "X-Exec-Error" ≠ "" ∨ Header_Get tr "X-Exec-Exit-Status" ≠ "0" →
         e ≠ io_EOF).
Proof.
  intros Hcap. induction fuel as [| fuel IH]; intros r Hsep Hfuel.
  { destruct r as [| [? ?] ?]; simpl in Hfuel; lia. }
  cbn [read_to_end].
  destruct r as [| [data err] r'].
  - rewrite (cmdReader_Read_EOF strconv_Quote {| rc := []; trailer := tr |}
               cap [] [] eq_refl). cbv zeta.
    cbn [trailer].
    repeat case_decide; cbn [rr_err delivered rr_n rr_p take Reader_bytes];
      eexists; (split; [reflexivity |]); intros Hfail; try discriminate.
    tauto.
  - apply Forall_cons in Hsep. destruct Hsep as [Hev Hsep]. cbn [fst snd] in Hev.
    cbn [reads_bound] in Hfuel.
    destruct (decide (length data ≤ cap)) as [Hfit | Hbig].
    + assert (Hread : Reader_Read (rc {| rc := (data, err) :: r'; trailer := tr |}) cap
                      = ((data, err), r')).
      { cbn [rc Reader_Read]. rewrite decide_True by exact Hfit. reflexivity. }
      destruct err as [e |].
      * assert (e = io_EOF ∨ e ≠ io_EOF) as [-> | Hne]
          by (destruct e; (left; reflexivity) || (right; discriminate)).
        -- rewrite (cmdReader_Read_EOF strconv_Quote _ cap data r' Hread). cbv zeta.
           cbn [trailer]. rewrite (Hev eq_refl).
           repeat case_decide; cbn [rr_err delivered rr_n rr_p take Reader_bytes];
             eexists; (split; [reflexivity |]); intros Hfail; try discriminate.
           tauto.
        -- rewrite (cmdReader_Read_passes_through strconv_Quote _ cap data (Some e) r' Hread)
             by congruence.
           cbn [rr_err trailer]. rewrite delivered_all.
           exists e. split; [reflexivity | intros _; exact Hne].
      * rewrite (cmdReader_Read_passes_through strconv_Quote _ cap data None r' Hread)
          by discriminate.
        cbn [rr_err trailer]. rewrite delivered_all.
        destruct (IH r' Hsep) as (e & Hrec & He); [lia |].
        rewrite Hrec. exists e. split; [reflexivity | exact He].
    + assert (Hread : Reader_Read (rc {| rc := (data, err) :: r'; trailer := tr |}) cap
                      = ((take cap data, None), (drop cap data, err) :: r')).
      { cbn [rc Reader_Read]. rewrite decide_False by exact Hbig. reflexivity. }
      rewrite (cmdReader_Read_passes_through strconv_Quote _ cap _ None _ Hread)
        by discriminate.
      cbn [rr_err trailer]. rewrite delivered_all.
      destruct (IH ((drop cap data, err) :: r')) as (e & Hrec & He).
      { constructor; [| exact Hsep]. cbn [fst snd]. intros Heof.
        specialize (Hev Heof). subst data. simpl in Hbig. lia. }
      { cbn [reads_bound]. rewrite length_drop. lia. }
      rewrite Hrec. exists e. split; [| exact He].
      f_equal. cbn [Reader_bytes].
      destruct err as [e' |].
      * apply take_drop.
      * rewrite app_assoc, take_drop. reflexivity.
Qed.

(** C10. At the end of the stream, with an empty error trailer, the
    streaming reader compares the exit-status trailer with the string [0]:
    on [0] the end of stream is passed on; on every other string, the empty
    one of a missing trailer and the spelling [00] included, the read
    returns the error [non-zero exit status: ...] with the string as it is.
    The buffering executor parses the trailer instead: on the same answer it
    reports no error whenever the trailer parses as an integer, as [00]
    does, and fails with a [strconv] error on the empty string. *)
Theorem stream_exit_status_literal
    (strconv_Quote : string → string) (c : cmdReader) (cap : nat)
    (data : list Z) (rc' : Reader) :
  Reader_Read (rc c) cap = ((data, Some io_EOF), rc') →
  Header_Get (trailer c) "X-Exec-Error" = "" →
  cmdReader_Read strconv_Quote c cap
  = (if decide (Header_Get (trailer c) "X-Exec-Exit-Status" = "0") then
       {| rr_p := data; rr_n := length data; rr_err := Some io_EOF |}
     else
       {| rr_p := data; rr_n := 0;
          rr_err := Some (errors_New
            ("non-zero exit status: "
             +:+ Header_Get (trailer c) "X-Exec-Exit-Status"
             +:+ " (stderr: "
             +:+ strconv_Quote (truncate_stderr (Header_Get (trailer c) "X-Exec-Stderr"))
             +:+ ")")) |},
     {| rc := rc'; trailer := trailer c |})
  ∧ (∀ NormalizeRepo json_NotFoundPayload cmd ctx w req resp stdout v,
       exec_answered NormalizeRepo cmd ctx w req (inl resp) →
       StatusCode resp = 200%Z → Trailer resp = trailer c →
       ReadAll (Body resp) = (stdout, None) →
       strconv.Atoi (Header_Get (trailer c) "X-Exec-Exit-Status") = (v, None) →
       DividedOutput NormalizeRepo json_NotFoundPayload cmd ctx w
       = (Ok (set_ExitStatus cmd v,
              (stdout, bytes_of_string (Header_Get (trailer c) "X-Exec-Stderr"), None)),
          logged w req))
  ∧ (strconv.Atoi "00" = (0%Z, None) ∧ "00" ≠ "0")
  ∧ (strconv.Atoi "" = (0%Z, Some (strconv_NumError "Atoi" "" ErrSyntax)) ∧ "" ≠ "0").
Proof.
  intros Hread Hmsg.
  split; [| split; [| split; split; [reflexivity | discriminate
                                    | reflexivity | discriminate]]].
  - rewrite (cmdReader_Read_EOF strconv_Quote c cap data rc' Hread). cbv zeta.
    rewrite decide_False by (intros Hne; apply Hne; exact Hmsg).
    repeat case_decide; try reflexivity; contradiction.
  - intros N J cmd ctx w req resp stdout v Hans Hcode Htr Hall Hatoi.
    rewrite (DividedOutput_200 N J cmd ctx w req resp Hans Hcode).
    rewrite Hall, Htr, Hatoi.
    rewrite decide_False by (intros Hne; apply Hne; exact Hmsg).
    reflexivity.
Qed.

Lemma stream_exit_status_literal_witness :
  fst (cmdReader_Read example.quote
         {| rc := []; trailer := Trailer (example.exec_answer [] "00" "" "") |} 512)
  = {| rr_p := []; rr_n := 0;
       rr_err := Some (errors_New
         ("non-zero exit status: 00 (stderr: " +:+ dquote +:+ dquote +:+ ")")) |}.
Proof.
  pose proof (stream_exit_status_literal example.quote
                {| rc := []; trailer := Trailer (example.exec_answer [] "00" "" "") |}
                512 [] [] eq_refl eq_refl) as [Heq _].
  rewrite Heq. vm_compute. reflexivity.
Defined.

(** C7, as amended. The truncation is the streaming reader's: the stderr
    that [cmdReader.Read] quotes in the error it returns at the end of the
    stream is the stderr trailer itself when that has at most 100 bytes, and
    its first 100 bytes followed by the marker [... (truncated)], 115 bytes
    in all, when it has more. The buffering executor [DividedOutput]
    returns the stderr trailer in full. *)
Theorem stream_error_truncates_stderr
    (strconv_Quote : string → string) (c : cmdReader) (cap : nat)
    (data : list Z) (rc' : Reader) :
  Reader_Read (rc c) cap = ((data, Some io_EOF), rc') →
  Header_Get (trailer c) "X-Exec-Error" ≠ ""
  ∨ Header_Get (trailer c) "X-Exec-Exit-Status" ≠ "0" →
  (∃ reason shown,
     rr_err (fst (cmdReader_Read strconv_Quote c cap))
     = Some (errors_New (reason +:+ " (stderr: " +:+ strconv_Quote shown +:+ ")"))
     ∧ (String.length (Header_Get (trailer c) "X-Exec-Stderr") ≤ 100 →
        shown = Header_Get (trailer c) "X-Exec-Stderr")
     ∧ (100 < String.length (Header_Get (trailer c) "X-Exec-Stderr") →
        shown = substring 0 100 (Header_Get (trailer c) "X-Exec-Stderr")
                +:+ "... (truncated)"
        ∧ String.length shown = 115))
  ∧ (∀ NormalizeRepo json_NotFoundPayload cmd ctx w req resp stdout v,
       exec_answered NormalizeRepo cmd ctx w req (inl resp) →
       StatusCode resp = 200%Z → Trailer resp = trailer c →
       ReadAll (Body resp) = (stdout, None) →
       strconv.Atoi (Header_Get (trailer c) "X-Exec-Exit-Status") = (v, None) →
       ∃ err,
         DividedOutput NormalizeRepo json_NotFoundPayload cmd ctx w
         = (Ok (set_ExitStatus cmd v,
                (stdout, bytes_of_string (Header_Get (trailer c) "X-Exec-Stderr"), err)),
            logged w req)).
Proof.
  intros Hread Hfail. split.
  - rewrite (cmdReader_Read_EOF strconv_Quote c cap data rc' Hread). cbv zeta.
    destruct (decide (Header_Get (trailer c) "X-Exec-Error" ≠ "")) as [Hmsg | Hmsg].
    + eexists _, _. split; [reflexivity |].
      split; [apply truncate_stderr_short | apply truncate_stderr_long].
    + destruct (decide (Header_Get (trailer c) "X-Exec-Exit-Status" ≠ "0"))
        as [Hst | Hst]; [| tauto].
      exists ("non-zero exit status: " +:+ Header_Get (trailer c) "X-Exec-Exit-Status").
      eexists. split; [reflexivity |].
      split; [apply truncate_stderr_short | apply truncate_stderr_long].
  - intros N J cmd ctx w req resp stdout v Hans Hcode Htr Hall Hatoi.
    rewrite (DividedOutput_200 N J cmd ctx w req resp Hans Hcode).
    rewrite Hall, Htr, Hatoi. eauto.
Qed.

Lemma stream_error_truncates_stderr_witness :
  ∃ reason shown,
    rr_err (fst (cmdReader_Read example.quote
                   {| rc := [];
                      trailer := Trailer (example.exec_answer [] "1" long_stderr "") |}
                   512))
    = Some (errors_New (reason +:+ " (stderr: " +:+ example.quote shown +:+ ")"))
    ∧ shown = string_of_list_ascii (replicate 100 "e"%char) +:+ "... (truncated)"
    ∧ String.length shown = 115.
Proof.
  destruct (stream_error_truncates_stderr example.quote
              {| rc := [];
                 trailer := Trailer (example.exec_answer [] "1" long_stderr "") |}
              512 [] [] eq_refl) as [(reason & shown & Herr & _ & Hlong) _].
  { right. vm_compute. discriminate. }
  exists reason, shown. split; [exact Herr |].
  apply Hlong. vm_compute. lia.
Defined.

(** C7 as stated fails for the executor: [DividedOutput] hands the 101
    bytes of stderr to its caller as they came, neither cut to 100 bytes nor
    marked. *)
Lemma DividedOutput_stderr_in_full_counterexample :
  String.length long_stderr = 101
  ∧ fst (DividedOutput example.normalize example.decode_NotFoundPayload
           example.cmd example.background
           (example.world (inl (example.exec_answer [] "1" long_stderr ""))))
    = Ok (set_ExitStatus example.cmd 1, ([], bytes_of_string long_stderr, None))
  ∧ length (bytes_of_string long_stderr) = 101
  ∧ bytes_of_string long_stderr ≠ bytes_of_string (truncate_stderr long_stderr).
Proof.
  repeat split; try (vm_compute; reflexivity).
  vm_compute. discriminate.
Qed.

(** C4 on a concrete stream. The body hands over its last three bytes
    together with [io.EOF], as Go's reader contract allows, and the trailer
    reports exit status 1. [cmdReader.Read] returns the count 0 with the
    error: the three bytes are in the buffer but are not delivered, the
    error comes in place of the last successful read, and a caller that
    reads to the end has received nothing. With exit status 0 the same read
    delivers the three bytes. *)
Lemma stream_drops_bytes_read_with_EOF :
  let body : Reader := [(bytes_of_string "abc", Some io_EOF)] in
  let failed :=
    fst (cmdReader_Read example.quote
           {| rc := body; trailer := Trailer (example.exec_answer body "1" "" "") |} 512) in
  let clean :=
    fst (cmdReader_Read example.quote
           {| rc := body; trailer := Trailer (example.exec_answer body "0" "" "") |} 512) in
  StdoutReader example.normalize example.decode_NotFoundPayload
    example.background example.cmd
    (example.world (inl (example.exec_answer body "1" "" "")))
  = (Ok (inl {| rc := body; trailer := Trailer (example.exec_answer body "1" "" "") |}),
     logged (example.world (inl (example.exec_answer body "1" "" "")))
       (POST "http://gitserver-0:3178/exec"
          (ExecRequest "github.com/gorilla/mux" "" ["log"])))
  ∧ Reader_bytes body = bytes_of_string "abc"
  ∧ rr_p failed = bytes_of_string "abc"
  ∧ rr_n failed = 0
  ∧ delivered failed = []
  ∧ rr_err failed
    = Some (errors_New
        ("non-zero exit status: 1 (stderr: " +:+ dquote +:+ dquote +:+ ")"))
  ∧ delivered clean = bytes_of_string "abc"
  ∧ rr_err clean = Some io_EOF
  ∧ read_to_end example.quote 512 8
      {| rc := body; trailer := Trailer (example.exec_answer body "1" "" "") |}
    = ([], Some (errors_New
        ("non-zero exit status: 1 (stderr: " +:+ dquote +:+ dquote +:+ ")"))).
Proof.
  cbv zeta. repeat split; vm_compute; reflexivity.
Qed.

(** ** Not found *)

(** C6, as amended. On [/exec], a 404 answer whose body decodes to a
    [NotFoundPayload] makes [sendExec] (and so [DividedOutput] and
    [StdoutReader]) return the typed [vcs.RepoNotExistError] carrying the
    payload's clone-in-progress flag; it is neither a transport error nor
    the generic status-code error. On [/repo], [RepoInfo] does not read the
    body of a 404: like every answer other than 200 it becomes a
    [url.Error] that names the status code, and the call returns no
    response. A missing repository is not an error for [RepoInfo] when the
    server says so in a 200 answer. *)
Theorem not_found_is_typed_on_exec_only
    (NormalizeRepo : string → string)
    (json_NotFoundPayload : Reader → protocol.NotFoundPayload * option error)
    (json_RepoInfoResponse : Reader → option protocol.RepoInfoResponse * option error) :
  (∀ c ctx w req resp payload,
     exec_answered NormalizeRepo c ctx w req (inl resp) →
     StatusCode resp = 404%Z →
     json_NotFoundPayload (Body resp) = (payload, None) →
     let e := vcs_RepoNotExistError (protocol.nf_CloneInProgress payload) in
     sendExec NormalizeRepo json_NotFoundPayload c ctx w = (Ok (inr e), logged w req)
     ∧ DividedOutput NormalizeRepo json_NotFoundPayload c ctx w
       = (Ok (c, ([], [], Some e)), logged w req)
     ∧ StdoutReader NormalizeRepo json_NotFoundPayload ctx c w
       = (Ok (inr e), logged w req)
     ∧ is_transport_error e = false
     ∧ (∀ msg, e ≠ errors_New msg))
  ∧ (∀ cl ctx repo w addr resp,
       Addrs cl !! 0 = Some addr →
       network w ctx (http_log w)
         (POST ("http://" +:+ addr +:+ "/repo") (RepoInfoRequest repo)) = inl resp →
       (StatusCode resp ≠ 200%Z →
        RepoInfo json_RepoInfoResponse cl ctx repo w
        = (Ok (None,
               Some (url_Error "RepoInfo" (Request_URL resp)
                       (errors_New ("RepoInfo: http status "
                                    +:+ pretty (StatusCode resp))))),
           logged w (POST ("http://" +:+ addr +:+ "/repo") (RepoInfoRequest repo))))
       ∧ (StatusCode resp = 200%Z →
          RepoInfo json_RepoInfoResponse cl ctx repo w
          = (Ok (json_RepoInfoResponse (Body resp)),
             logged w (POST ("http://" +:+ addr +:+ "/repo") (RepoInfoRequest repo))))).
Proof.
  split.
  - intros c ctx w req resp payload Hans Hcode Hjson e.
    assert (Hsend : sendExec NormalizeRepo json_NotFoundPayload c ctx w
                    = (Ok (inr e), logged w req)).
    { rewrite (sendExec_dispatch _ _ _ _ _ _ _ Hans).
      rewrite decide_False by (rewrite Hcode; discriminate).
      rewrite decide_True by exact Hcode.
      rewrite Hjson. reflexivity. }
    repeat split; try exact Hsend; try discriminate.
    + unfold DividedOutput, bind. rewrite Hsend. reflexivity.
    + unfold StdoutReader, bind. rewrite Hsend. reflexivity.
  - intros cl ctx repo w addr resp Haddr Hnet.
    unfold RepoInfo, bind, lift, go_index, httpPost, http_Do, ret.
    change (Z.to_nat 0) with 0. rewrite Haddr.
    change ("/" +:+ "repo") with "/repo". rewrite Hnet.
    split; intros Hcode; case_decide; try contradiction; reflexivity.
Qed.

Example sendExec_not_found :
  fst (sendExec example.normalize example.decode_NotFoundPayload
         example.cmd example.background (example.world (inl not_found_answer)))
  = Ok (inr (vcs_RepoNotExistError true)).
Proof. vm_compute. reflexivity. Qed.

(** C6 as stated fails on [/repo]: the same 404 answer makes [RepoInfo]
    return an error, and the error is the generic [url.Error] with the
    status code, not the typed not-exist condition with the flag. *)
Lemma RepoInfo_not_found_counterexample :
  StatusCode not_found_answer = 404%Z
  ∧ fst (RepoInfo (λ _, (None, None)) example.cl example.background
           "github.com/gorilla/mux" (example.world (inl not_found_answer)))
    = Ok (None,
          Some (url_Error "RepoInfo" "http://gitserver-0:3178/repo"
                  (errors_New "RepoInfo: http status 404")))
  ∧ url_Error "RepoInfo" "http://gitserver-0:3178/repo"
      (errors_New "RepoInfo: http status 404")
    ≠ vcs_RepoNotExistError true.
Proof.
  repeat split; try (vm_compute; reflexivity). discriminate.
Qed.

(** ** The fan-out query: merge and first error *)

Lemma first_failure_snoc cs c :
  first_failure (cs ++ [c])
  = match first_failure cs with
    | Some e => Some e
    | None => hard_failure c
    end.
Proof.
  induction cs as [| c0 cs IH]; simpl.
  - destruct (hard_failure c); reflexivity.
  - destruct (hard_failure c0); [reflexivity | exact IH].
Qed.

Lemma first_failure_split cs :
  match first_failure cs with
  | None => Forall (λ c, hard_failure c = None) cs
  | Some e =>
      ∃ pre c post,
        cs = pre ++ c :: post ∧ snd (snd c) = Some e ∧ e ≠ context_Canceled
        ∧ Forall (λ c, hard_failure c = None) pre
  end.
Proof.
  induction cs as [| c0 cs IH]; simpl; [constructor |].
  destruct (hard_failure c0) as [e |] eqn:Hc0.
  - exists [], c0, cs. unfold hard_failure in Hc0.
    destruct (snd (snd c0)) as [e0 |]; [| discriminate].
    destruct (is_Canceled e0) eqn:Hcan; [discriminate |].
    injection Hc0 as <-.
    repeat split; [| constructor].
    intros ->. discriminate.
  - destruct (first_failure cs) as [e |].
    + destruct IH as (pre & c & post & -> & Hc & Hne & Hpre).
      exists (c0 :: pre), c, post. repeat split; try assumption.
      constructor; assumption.
    + constructor; assumption.
Qed.

Lemma hard_failure_None c :
  hard_failure c = None ↔
  snd (snd c) = None ∨ snd (snd c) = Some context_Canceled.
Proof.
  unfold hard_failure. destruct (snd (snd c)) as [e |]; [| tauto].
  destruct e; simpl; split; try tauto; try discriminate;
    intros [? | ?]; discriminate.
Qed.

Section fanout_properties.
Variable json_strings : Reader → list string * option error.
Variable ctx : Context.
Variable urlSuffix : string.
Variable addrs : list string.

Lemma fanout_inv_init : fanout_inv addrs (fanout_init addrs).
Proof.
  split; simpl; try reflexivity.
  - apply length_fmap.
  - intros i addr. rewrite list_lookup_fmap.
    destruct (addrs !! i); simpl; congruence.
  - constructor.
  - intros i. split.
    + intros Hin. inversion Hin.
    + rewrite list_lookup_fmap. destruct (addrs !! i); discriminate.
Qed.

Lemma fanout_inv_commit st i l e :
  fanout_inv addrs st →
  workers st !! i = Some (Fetched l e) →
  fanout_inv addrs (commit st i l e).
Proof.
  intros [Hlen Hst Herr Hlist Hcan Hnd Hdone] Hi.
  assert (Hfresh : i ∉ (fst <$> commits st)).
  { intros Hin. apply Hdone in Hin. congruence. }
  assert (Hlt : i < length (workers st)) by (eapply lookup_lt_Some; exact Hi).
  split; simpl.
  - rewrite length_insert. exact Hlen.
  - intros j addr Hj. destruct (decide (i = j)) as [<- | Hne].
    + rewrite list_lookup_insert_eq in Hj by exact Hlt. discriminate.
    + rewrite list_lookup_insert_ne in Hj by exact Hne. eauto.
  - rewrite first_failure_snoc, <- Herr. unfold first_hard_failure, hard_failure.
    simpl. destruct e as [e |], (fo_err st); try reflexivity.
    destruct (is_Canceled e); reflexivity.
  - rewrite fmap_app, concat_app, <- Hlist. simpl. rewrite app_nil_r. reflexivity.
  - rewrite Hcan. unfold first_hard_failure.
    destruct e as [e |], (fo_err st); try reflexivity.
    destruct (is_Canceled e); reflexivity.
  - rewrite fmap_app. apply NoDup_app. split; [exact Hnd |].
    split; [| apply NoDup_singleton].
    intros j Hj Hji. apply list_elem_of_singleton in Hji. simpl in Hji. congruence.
  - intros j. rewrite fmap_app. cbn [fmap list_fmap fst].
    rewrite elem_of_app, list_elem_of_singleton.
    destruct (decide (i = j)) as [<- | Hne].
    + rewrite list_lookup_insert_eq by exact Hlt. tauto.
    + rewrite list_lookup_insert_ne by exact Hne. rewrite Hdone.
      split; [intros [? | ?]; [assumption | congruence] | tauto].
Qed.

Lemma fanout_inv_fetch st i addr l e :
  fanout_inv addrs st →
  workers st !! i = Some (Started addr) →
  fanout_inv addrs
             {| workers := <[i := Fetched l e]> (workers st);
                fo_err := fo_err st; combinedList := combinedList st;
                cancelled := cancelled st; commits := commits st |}.
Proof.
  intros [Hlen Hst Herr Hlist Hcan Hnd Hdone] Hi.
  assert (Hlt : i < length (workers st)) by (eapply lookup_lt_Some; exact Hi).
  split; simpl; try assumption.
  - rewrite length_insert. exact Hlen.
  - intros j addr' Hj. destruct (decide (i = j)) as [<- | Hne].
    + rewrite list_lookup_insert_eq in Hj by exact Hlt. discriminate.
    + rewrite list_lookup_insert_ne in Hj by exact Hne. eauto.
  - intros j. rewrite Hdone.
    destruct (decide (i = j)) as [<- | Hne].
    + rewrite list_lookup_insert_eq by exact Hlt.
      rewrite Hi. split; discriminate.
    + rewrite list_lookup_insert_ne by exact Hne. tauto.
Qed.

Lemma doListOne_returns ctx' addr w :
  ∃ r, doListOne json_strings ctx' urlSuffix addr w
       = (Ok r, logged w (GET ("http://" +:+ addr +:+ "/list" +:+ urlSuffix))).
Proof.
  unfold doListOne, bind, http_Do, ret.
  destruct (network w ctx' (http_log w) _); eauto.
Qed.

Lemma worker_step_inv st i w :
  fanout_inv addrs st →
  ∃ st' w',
    worker_step json_strings ctx urlSuffix st i w = (Ok st', w')
    ∧ fanout_inv addrs st'.
Proof.
  intros Hinv. unfold worker_step.
  destruct (workers st !! i) as [[addr | l e |] |] eqn:Hi.
  - unfold bind.
    destruct (doListOne_returns (WithCancel ctx (cancelled st)) addr w)
      as [r Hr].
    rewrite Hr. eexists _, _. split; [reflexivity |].
    eapply fanout_inv_fetch; eassumption.
  - eexists _, _. split; [reflexivity |].
    apply fanout_inv_commit; assumption.
  - eexists _, _. split; [reflexivity | assumption].
  - eexists _, _. split; [reflexivity | assumption].
Qed.

Lemma run_schedule_inv sched st w :
  fanout_inv addrs st →
  ∃ st' w',
    run_schedule json_strings ctx urlSuffix sched st w = (Ok st', w')
    ∧ fanout_inv addrs st'.
Proof.
  revert st w. induction sched as [| i sched IH]; intros st w Hinv.
  - eexists _, _. split; [reflexivity | assumption].
  - destruct (worker_step_inv st i w Hinv) as (st1 & w1 & Hstep & Hinv1).
    destruct (IH st1 w1 Hinv1) as (st' & w' & Hrun & Hinv').
    exists st', w'. split; [| assumption].
    cbn [run_schedule]. unfold bind. rewrite Hstep. exact Hrun.
Qed.

(** When every goroutine has finished, every index was recorded once. *)
Lemma fanout_inv_finished st :
  fanout_inv addrs st → all_finished st = true →
  (fst <$> commits st) ≡ₚ seq 0 (length addrs).
Proof.
  intros [Hlen _ _ _ _ Hnd Hdone] Hall.
  apply NoDup_Permutation; [exact Hnd | apply NoDup_seq |].
  intros i. rewrite Hdone, elem_of_seq.
  split.
  - intros Hi. apply lookup_lt_Some in Hi. lia.
  - intros [_ Hi].
    destruct (lookup_lt_is_Some_2 (workers st) i) as [wk Hwk]; [lia |].
    unfold all_finished in Hall.
    apply Is_true_true, forallb_True in Hall.
    rewrite Forall_lookup in Hall. specialize (Hall i wk Hwk).
    destruct wk; simpl in Hall; try contradiction. exact Hwk.
Qed.
End fanout_properties.

(** *** The run, step by step *)

Lemma steps_of_snoc done j i :
  steps_of (done ++ [j]) i
  = steps_of done i + (if decide (j = i) then 1 else 0).
Proof.
  unfold steps_of. rewrite count_occ_app. cbn [count_occ].
  destruct (Nat.eq_dec j i); case_decide; congruence.
Qed.

Lemma steps_of_elem done i : i ∈ done ↔ 0 < steps_of done i.
Proof.
  unfold steps_of. induction done as [| j done IH]; cbn [count_occ].
  - split; [intros Hin; inversion Hin | lia].
  - rewrite elem_of_cons, IH. destruct (Nat.eq_dec j i) as [-> | Hne].
    + split; [lia | left; reflexivity].
    + split; [intros [-> | ?]; [congruence | assumption] | right; assumption].
Qed.

Lemma before_first_app_elem done s i :
  i ∈ done → before_first (done ++ s) i = before_first done i.
Proof.
  induction done as [| j done IH]; intros Hin; [inversion Hin |].
  cbn [app before_first]. case_decide as Hj; [reflexivity |].
  apply elem_of_cons in Hin. destruct Hin as [-> | Hin]; [congruence |].
  rewrite IH by exact Hin. reflexivity.
Qed.

Lemma before_first_app_fresh done s i :
  i ∉ done → before_first (done ++ s) i = done ++ before_first s i.
Proof.
  induction done as [| j done IH]; intros Hnot; [reflexivity |].
  cbn [app before_first]. rewrite decide_False.
  - rewrite IH; [reflexivity |].
    intros Hin. apply Hnot. apply elem_of_cons. right. exact Hin.
  - intros ->. apply Hnot. apply elem_of_cons. left. reflexivity.
Qed.

Lemma recorded_before_stable n done s i :
  i ∈ done → recorded_before n (done ++ s) i = recorded_before n done i.
Proof.
  intros Hin. unfold recorded_before. rewrite before_first_app_elem by exact Hin.
  reflexivity.
Qed.

Lemma recorded_before_request n done i :
  i ∉ done → recorded_before n (done ++ [i]) i = length (recorded_by n done).
Proof.
  intros Hnot. unfold recorded_before.
  rewrite before_first_app_fresh by exact Hnot.
  cbn [before_first]. rewrite decide_True by reflexivity.
  rewrite app_nil_r. reflexivity.
Qed.

Lemma cancelled_when_app cs cs' m :
  m ≤ length cs → cancelled_when (cs ++ cs') m = cancelled_when cs m.
Proof.
  intros Hm. unfold cancelled_when. rewrite take_app_le by exact Hm. reflexivity.
Qed.

Lemma cancelled_when_all cs :
  cancelled_when cs (length cs)
  = match first_failure cs with Some _ => true | None => false end.
Proof. unfold cancelled_when. rewrite take_ge by lia. reflexivity. Qed.

Lemma world_after_nil w : world_after w [] = w.
Proof. destruct w. unfold world_after. simpl. rewrite app_nil_r. reflexivity. Qed.

Lemma world_after_logged w0 reqs req :
  logged (world_after w0 reqs) req = world_after w0 (reqs ++ [req]).
Proof. unfold logged, world_after. simpl. rewrite app_assoc. reflexivity. Qed.

Section fanout_run.
Variable json_strings : Reader → list string * option error.
Variable ctx : Context.
Variable urlSuffix : string.
Variable addrs : list string.
Variable w0 : World.

Lemma produced_snoc sent j i b l e :
  produced json_strings ctx urlSuffix addrs w0 sent i b l e →
  produced json_strings ctx urlSuffix addrs w0 (sent ++ [j]) i b l e.
Proof.
  intros (k & addr & Hk & Haddr & Hres).
  exists k, addr. split; [apply lookup_app_l_Some; exact Hk |].
  split; [exact Haddr |].
  rewrite take_app_le; [exact Hres |].
  apply lookup_lt_Some in Hk. lia.
Qed.

Lemma run_inv_init :
  run_inv json_strings ctx urlSuffix addrs w0 [] [] (fanout_init addrs) w0.
Proof.
  split.
  - symmetry. apply world_after_nil.
  - constructor.
  - intros i wk Hwk. simpl in Hwk. rewrite list_lookup_fmap in Hwk.
    destruct (addrs !! i); [| discriminate]. injection Hwk as <-.
    split; [reflexivity | intros Hin; inversion Hin].
  - intros i Hin. inversion Hin.
  - intros i l e Hwk. simpl in Hwk. rewrite list_lookup_fmap in Hwk.
    destruct (addrs !! i); discriminate.
  - constructor.
Qed.

(** A goroutine that has made its request has taken a step. *)
Lemma run_inv_sent_done done sent st w :
  fanout_inv addrs st →
  run_inv json_strings ctx urlSuffix addrs w0 done sent st w →
  ∀ j, j ∈ sent → j ∈ done.
Proof.
  intros Hinv Hrun j Hj.
  destruct (run_sent _ _ _ _ _ _ _ _ _ Hrun j Hj) as [Hlt _].
  destruct (lookup_lt_is_Some_2 (workers st) j) as [wk Hwk].
  { rewrite (inv_length _ _ Hinv). exact Hlt. }
  pose proof (run_steps _ _ _ _ _ _ _ _ _ Hrun j wk Hwk) as Hst.
  apply steps_of_elem. destruct wk; destruct Hst as [Hst Hin]; [contradiction | lia | lia].
Qed.

(** A goroutine that has recorded its result has made its request. *)
Lemma run_inv_commit_sent done sent st w :
  fanout_inv addrs st →
  run_inv json_strings ctx urlSuffix addrs w0 done sent st w →
  ∀ c, c ∈ commits st → fst c ∈ sent.
Proof.
  intros Hinv Hrun c Hc.
  assert (Hfin : workers st !! fst c = Some Finished).
  { apply (inv_done _ _ Hinv). apply list_elem_of_fmap_2. exact Hc. }
  apply (run_steps _ _ _ _ _ _ _ _ _ Hrun) in Hfin. apply Hfin.
Qed.

(** The results recorded so far are those of the goroutines that were
    given both their steps. *)
Lemma run_inv_recorded done sent st w :
  fanout_inv addrs st →
  run_inv json_strings ctx urlSuffix addrs w0 done sent st w →
  length (commits st) = length (recorded_by (length addrs) done).
Proof.
  intros Hinv Hrun.
  rewrite <- (length_fmap fst (commits st)).
  apply Permutation_length.
  apply NoDup_Permutation.
  - apply (inv_nodup _ _ Hinv).
  - apply NoDup_filter, NoDup_seq.
  - intros j. unfold recorded_by.
    rewrite (inv_done _ _ Hinv), list_elem_of_filter, elem_of_seq. split.
    + intros Hfin. split.
      * apply (run_steps _ _ _ _ _ _ _ _ _ Hrun) in Hfin. apply Hfin.
      * apply lookup_lt_Some in Hfin. rewrite (inv_length _ _ Hinv) in Hfin. lia.
    + intros [Hsteps [_ Hlt]].
      destruct (lookup_lt_is_Some_2 (workers st) j) as [wk Hwk].
      { rewrite (inv_length _ _ Hinv). lia. }
      pose proof (run_steps _ _ _ _ _ _ _ _ _ Hrun j wk Hwk) as Hst.
      destruct wk; destruct Hst as [Hst _]; [lia | lia | exact Hwk].
Qed.

(** A step that sends nothing and records nothing. *)
Lemma run_inv_idle done sent st w i :
  fanout_inv addrs st →
  run_inv json_strings ctx urlSuffix addrs w0 done sent st w →
  (workers st !! i = None ∨ workers st !! i = Some Finished) →
  run_inv json_strings ctx urlSuffix addrs w0 (done ++ [i]) sent st w.
Proof.
  intros Hinv Hrun Hi.
  pose proof (run_inv_sent_done _ _ _ _ Hinv Hrun) as Hdone.
  pose proof (run_inv_commit_sent _ _ _ _ Hinv Hrun) as Hcs.
  destruct Hrun as [Hworld Hnd Hsteps Hsent Hfetched Hcommits].
  split; try assumption.
  - intros j wk Hwk. specialize (Hsteps j wk Hwk).
    rewrite steps_of_snoc. case_decide as Hij.
    + subst j. destruct Hi as [Hi | Hi]; rewrite Hi in Hwk; [discriminate |].
      injection Hwk as <-. destruct Hsteps. split; [lia | assumption].
    + rewrite Nat.add_0_r. exact Hsteps.
  - intros j Hj. rewrite recorded_before_stable by (apply Hdone; exact Hj).
    apply Hsent. exact Hj.
  - intros j l e Hwk.
    rewrite recorded_before_stable.
    + apply Hfetched. exact Hwk.
    + apply Hdone. apply (Hsteps j _ Hwk).
  - rewrite Forall_forall in Hcommits. apply Forall_forall. intros c Hc.
    rewrite recorded_before_stable by (apply Hdone, Hcs; exact Hc).
    apply Hcommits. exact Hc.
Qed.

(** The step in which a goroutine makes its request. *)
Lemma run_inv_fetch done sent st w i addr :
  fanout_inv addrs st →
  run_inv json_strings ctx urlSuffix addrs w0 done sent st w →
  workers st !! i = Some (Started addr) →
  ∃ l e,
    doListOne json_strings (WithCancel ctx (cancelled st)) urlSuffix addr w
    = (Ok (l, e), logged w (list_request urlSuffix addr))
    ∧ run_inv json_strings ctx urlSuffix addrs w0 (done ++ [i]) (sent ++ [i])
        {| workers := <[i := Fetched l e]> (workers st);
           fo_err := fo_err st; combinedList := combinedList st;
           cancelled := cancelled st; commits := commits st |}
        (logged w (list_request urlSuffix addr)).
Proof.
  intros Hinv Hrun Hi.
  pose proof (run_inv_sent_done _ _ _ _ Hinv Hrun) as Hdone.
  pose proof (run_inv_commit_sent _ _ _ _ Hinv Hrun) as Hcs.
  pose proof (run_inv_recorded _ _ _ _ Hinv Hrun) as Hrec.
  destruct Hrun as [Hworld Hnd Hsteps Hsent Hfetched Hcommits].
  destruct (doListOne_returns json_strings urlSuffix
              (WithCancel ctx (cancelled st)) addr w) as [[l e] Hr].
  exists l, e. split; [exact Hr |].
  assert (Hlt : i < length (workers st)) by (eapply lookup_lt_Some; exact Hi).
  pose proof (inv_started _ _ Hinv _ _ Hi) as Haddr.
  destruct (Hsteps i _ Hi) as [Hzero Hfresh].
  assert (Hnew : i ∉ done).
  { intros Hin. apply steps_of_elem in Hin. lia. }
  split; cbn [workers commits].
  - assert (Hreq : request_of urlSuffix addrs i = list_request urlSuffix addr)
      by (unfold request_of; rewrite Haddr; reflexivity).
    rewrite Hworld, world_after_logged, fmap_app. cbn [fmap list_fmap].
    rewrite Hreq. reflexivity.
  - apply NoDup_app. split; [exact Hnd |].
    split; [| apply NoDup_singleton].
    intros j Hj Hji. apply list_elem_of_singleton in Hji. congruence.
  - intros j wk Hwk. rewrite steps_of_snoc.
    destruct (decide (i = j)) as [<- | Hne].
    + rewrite list_lookup_insert_eq in Hwk by exact Hlt. injection Hwk as <-.
      split; [lia | apply elem_of_app; right; apply list_elem_of_singleton; reflexivity].
    + rewrite list_lookup_insert_ne in Hwk by exact Hne.
      rewrite Nat.add_0_r.
      specialize (Hsteps j wk Hwk).
      destruct wk; destruct Hsteps as [Hst Hin]; (split; [exact Hst |]).
      * intros Hj. apply elem_of_app in Hj. destruct Hj as [Hj | Hj]; [contradiction |].
        apply list_elem_of_singleton in Hj. congruence.
      * apply elem_of_app. left. exact Hin.
      * apply elem_of_app. left. exact Hin.
  - intros j Hj. apply elem_of_app in Hj. destruct Hj as [Hj | Hj].
    + rewrite recorded_before_stable by (apply Hdone; exact Hj).
      apply Hsent. exact Hj.
    + apply list_elem_of_singleton in Hj. subst j.
      rewrite recorded_before_request by exact Hnew.
      split; [rewrite <- (inv_length _ _ Hinv); exact Hlt | lia].
  - intros j l' e' Hwk. destruct (decide (i = j)) as [<- | Hne].
    + rewrite list_lookup_insert_eq in Hwk by exact Hlt. injection Hwk as <- <-.
      rewrite recorded_before_request by exact Hnew.
      rewrite <- Hrec, cancelled_when_all.
      rewrite <- (inv_err _ _ Hinv), <- (inv_cancel _ _ Hinv).
      exists (length sent), addr.
      split; [apply list_lookup_middle; reflexivity |].
      split; [exact Haddr |].
      rewrite take_app_length, <- Hworld, Hr. reflexivity.
    + rewrite list_lookup_insert_ne in Hwk by exact Hne.
      rewrite recorded_before_stable by (apply Hdone; apply (Hsteps j _ Hwk)).
      apply produced_snoc. apply Hfetched. exact Hwk.
  - rewrite Forall_forall in Hcommits. apply Forall_forall. intros c Hc.
    rewrite recorded_before_stable by (apply Hdone, Hcs; exact Hc).
    apply produced_snoc. apply Hcommits. exact Hc.
Qed.

(** The step in which a goroutine records its result. *)
Lemma run_inv_commit done sent st w i l e :
  fanout_inv addrs st →
  run_inv json_strings ctx urlSuffix addrs w0 done sent st w →
  workers st !! i = Some (Fetched l e) →
  run_inv json_strings ctx urlSuffix addrs w0 (done ++ [i]) sent
    (commit st i l e) w.
Proof.
  intros Hinv Hrun Hi.
  pose proof (run_inv_sent_done _ _ _ _ Hinv Hrun) as Hdone.
  pose proof (run_inv_commit_sent _ _ _ _ Hinv Hrun) as Hcs.
  destruct Hrun as [Hworld Hnd Hsteps Hsent Hfetched Hcommits].
  assert (Hlt : i < length (workers st)) by (eapply lookup_lt_Some; exact Hi).
  assert (Hbound : ∀ j, j ∈ sent →
            cancelled_when (commits st ++ [(i, (l, e))])
              (recorded_before (length addrs) (done ++ [i]) j)
            = cancelled_when (commits st) (recorded_before (length addrs) done j)).
  { intros j Hj. rewrite recorded_before_stable by (apply Hdone; exact Hj).
    apply cancelled_when_app. apply Hsent. exact Hj. }
  split; cbn [commit workers commits]; try assumption.
  - intros j wk Hwk. rewrite steps_of_snoc.
    destruct (decide (i = j)) as [<- | Hne].
    + rewrite list_lookup_insert_eq in Hwk by exact Hlt. injection Hwk as <-.
      destruct (Hsteps i _ Hi) as [Hone Hin]. split; [lia | exact Hin].
    + rewrite list_lookup_insert_ne in Hwk by exact Hne.
      rewrite Nat.add_0_r. apply Hsteps. exact Hwk.
  - intros j Hj. rewrite recorded_before_stable by (apply Hdone; exact Hj).
    destruct (Hsent j Hj) as [Hj1 Hj2]. split; [exact Hj1 |].
    rewrite length_app. lia.
  - intros j l' e' Hwk. destruct (decide (i = j)) as [<- | Hne].
    + rewrite list_lookup_insert_eq in Hwk by exact Hlt. discriminate.
    + rewrite list_lookup_insert_ne in Hwk by exact Hne.
      rewrite Hbound by (apply (Hsteps j _ Hwk)).
      apply Hfetched. exact Hwk.
  - rewrite Forall_forall in Hcommits. apply Forall_app. split.
    + apply Forall_forall. intros c Hc.
      rewrite Hbound by (apply Hcs; exact Hc).
      apply Hcommits. exact Hc.
    + constructor; [| constructor]. cbn [fst snd].
      rewrite Hbound by (apply (Hsteps i _ Hi)).
      apply Hfetched. exact Hi.
Qed.

Lemma worker_step_run done sent st w i :
  fanout_inv addrs st →
  run_inv json_strings ctx urlSuffix addrs w0 done sent st w →
  ∃ st' w' sent',
    worker_step json_strings ctx urlSuffix st i w = (Ok st', w')
    ∧ fanout_inv addrs st'
    ∧ run_inv json_strings ctx urlSuffix addrs w0 (done ++ [i]) sent' st' w'.
Proof.
  intros Hinv Hrun. unfold worker_step.
  destruct (workers st !! i) as [[addr | l e |] |] eqn:Hi.
  - destruct (run_inv_fetch _ _ _ _ _ _ Hinv Hrun Hi) as (l & e & Hr & Hrun').
    unfold bind. rewrite Hr. cbn [ret fst snd].
    eexists _, _, _. split; [reflexivity |].
    split; [eapply fanout_inv_fetch; eassumption | exact Hrun'].
  - exists (commit st i l e), w, sent. split; [reflexivity |].
    split; [apply fanout_inv_commit; assumption |].
    apply run_inv_commit; assumption.
  - exists st, w, sent. split; [reflexivity |].
    split; [assumption |]. apply run_inv_idle; [assumption | assumption |].
    right. exact Hi.
  - exists st, w, sent. split; [reflexivity |].
    split; [assumption |]. apply run_inv_idle; [assumption | assumption |].
    left. exact Hi.
Qed.

Lemma run_schedule_run sched :
  ∀ done sent st w,
    fanout_inv addrs st →
    run_inv json_strings ctx urlSuffix addrs w0 done sent st w →
    ∃ st' w' sent',
      run_schedule json_strings ctx urlSuffix sched st w = (Ok st', w')
      ∧ fanout_inv addrs st'
      ∧ run_inv json_strings ctx urlSuffix addrs w0 (done ++ sched) sent' st' w'.
Proof.
  induction sched as [| i sched IH]; intros done sent st w Hinv Hrun.
  - rewrite app_nil_r. eexists _, _, _. split; [reflexivity |]. split; eassumption.
  - destruct (worker_step_run done sent st w i Hinv Hrun)
      as (st1 & w1 & sent1 & Hstep & Hinv1 & Hrun1).
    destruct (IH _ _ _ _ Hinv1 Hrun1) as (st' & w' & sent' & Hsched & Hinv' & Hrun').
    exists st', w', sent'. split; [| split; [exact Hinv' |]].
    + cbn [run_schedule]. unfold bind. rewrite Hstep. exact Hsched.
    + rewrite (cons_middle i), app_assoc. exact Hrun'.
Qed.

(** Every goroutine has finished exactly when each was given its two
    steps. *)
Lemma run_inv_finished done sent st w :
  fanout_inv addrs st →
  run_inv json_strings ctx urlSuffix addrs w0 done sent st w →
  all_finished st = true ↔ ∀ i, i < length addrs → 2 ≤ steps_of done i.
Proof.
  intros Hinv Hrun. unfold all_finished.
  rewrite <- Is_true_true, forallb_True, Forall_lookup. split.
  - intros Hall i Hi.
    destruct (lookup_lt_is_Some_2 (workers st) i) as [wk Hwk].
    { rewrite (inv_length _ _ Hinv). exact Hi. }
    specialize (Hall i wk Hwk).
    pose proof (run_steps _ _ _ _ _ _ _ _ _ Hrun i wk Hwk) as Hst.
    destruct wk; simpl in Hall; try contradiction. apply Hst.
  - intros Hsteps i wk Hwk.
    assert (Hi : i < length addrs).
    { apply lookup_lt_Some in Hwk. rewrite <- (inv_length _ _ Hinv). exact Hwk. }
    specialize (Hsteps i Hi).
    pose proof (run_steps _ _ _ _ _ _ _ _ _ Hrun i wk Hwk) as Hst.
    destruct wk; destruct Hst as [Hst _]; [lia | lia | exact I].
Qed.

(** When every goroutine has finished, every one has made its request. *)
Lemma run_inv_all_sent done sent st w :
  fanout_inv addrs st →
  run_inv json_strings ctx urlSuffix addrs w0 done sent st w →
  all_finished st = true →
  sent ≡ₚ seq 0 (length addrs).
Proof.
  intros Hinv Hrun Hall.
  apply NoDup_Permutation;
    [apply (run_nodup _ _ _ _ _ _ _ _ _ Hrun) | apply NoDup_seq |].
  intros i. rewrite elem_of_seq. split.
  - intros Hi. apply (run_sent _ _ _ _ _ _ _ _ _ Hrun) in Hi. lia.
  - intros [_ Hi].
    destruct (lookup_lt_is_Some_2 (workers st) i) as [wk Hwk].
    { rewrite (inv_length _ _ Hinv). lia. }
    unfold all_finished in Hall.
    apply Is_true_true, forallb_True in Hall.
    rewrite Forall_lookup in Hall. specialize (Hall i wk Hwk).
    pose proof (run_steps _ _ _ _ _ _ _ _ _ Hrun i wk Hwk) as Hst.
    destruct wk; simpl in Hall; try contradiction. apply Hst.
Qed.
End fanout_run.

(** *** Every goroutine finishes under the round-robin schedule *)

Section fanout_progress.
Variable json_strings : Reader → list string * option error.
Variable ctx : Context.
Variable urlSuffix : string.

Lemma run_schedule_app s1 s2 st w :
  run_schedule json_strings ctx urlSuffix (s1 ++ s2) st w
  = match run_schedule json_strings ctx urlSuffix s1 st w with
    | (Ok st1, w1) => run_schedule json_strings ctx urlSuffix s2 st1 w1
    | (Panic msg, w1) => (Panic msg, w1)
    end.
Proof.
  revert st w. induction s1 as [| i s1 IH]; intros st w; [reflexivity |].
  cbn [app run_schedule]. unfold bind.
  destruct (worker_step json_strings ctx urlSuffix st i w) as [[st1 | msg] w1];
    [apply IH | reflexivity].
Qed.

Lemma run_fetch_pass rest :
  ∀ pre st w,
    workers st = pre ++ (Started <$> rest) →
    ∃ st' w' fetched,
      run_schedule json_strings ctx urlSuffix
        (seq (length pre) (length rest)) st w = (Ok st', w')
      ∧ workers st' = pre ++ fetched
      ∧ length fetched = length rest
      ∧ Forall is_fetched fetched.
Proof.
  induction rest as [| addr rest IH]; intros pre st w Hw.
  - exists st, w, []. repeat split; [exact Hw | constructor].
  - cbn [length seq run_schedule]. unfold bind, worker_step at 1.
    rewrite Hw. cbn [fmap list_fmap].
    rewrite list_lookup_middle by reflexivity.
    unfold bind.
    destruct (doListOne_returns json_strings urlSuffix
                (WithCancel ctx (cancelled st)) addr w) as [r ->].
    cbn [ret].
    rewrite insert_app_r_alt by lia.
    rewrite Nat.sub_diag. cbn [insert list_insert].
    set (wk := Fetched (fst r) (snd r)).
    set (st1 := {| workers := pre ++ wk :: (Started <$> rest) |}).
    destruct (IH (pre ++ [wk]) st1
                (logged w (GET ("http://" +:+ addr +:+ "/list" +:+ urlSuffix))))
      as (st' & w' & fetched & Hrun & Hw' & Hlen & Hall).
    { subst st1. simpl. rewrite <- app_assoc. reflexivity. }
    rewrite length_app in Hrun. cbn [length] in Hrun.
    rewrite Nat.add_1_r in Hrun.
    exists st', w', (wk :: fetched).
    split; [exact Hrun |].
    split; [rewrite Hw', <- app_assoc; reflexivity |].
    split; [simpl; rewrite Hlen; reflexivity |].
    constructor; [exact I | exact Hall].
Qed.

Lemma run_commit_pass rest :
  ∀ pre st w,
    workers st = pre ++ rest → Forall is_fetched rest →
    ∃ st',
      run_schedule json_strings ctx urlSuffix
        (seq (length pre) (length rest)) st w = (Ok st', w)
      ∧ workers st' = pre ++ replicate (length rest) Finished.
Proof.
  induction rest as [| wk rest IH]; intros pre st w Hw Hall.
  - exists st. split; [reflexivity | exact Hw].
  - apply Forall_cons in Hall. destruct Hall as [Hwk Hall].
    destruct wk as [| l e |]; try contradiction.
    cbn [length seq run_schedule]. unfold bind, worker_step at 1.
    rewrite Hw. rewrite list_lookup_middle by reflexivity. cbn [ret].
    destruct (IH (pre ++ [Finished]) (commit st (length pre) l e) w)
      as (st' & Hrun & Hw').
    { unfold commit. cbn [workers]. rewrite Hw.
      rewrite insert_app_r_alt by lia.
      rewrite Nat.sub_diag. cbn [insert list_insert].
      rewrite <- app_assoc. reflexivity. }
    { exact Hall. }
    rewrite length_app in Hrun. cbn [length] in Hrun.
    rewrite Nat.add_1_r in Hrun.
    exists st'. split; [exact Hrun |].
    rewrite Hw', <- app_assoc. reflexivity.
Qed.

Lemma round_robin_finishes addrs w :
  ∃ st w',
    fanout json_strings (round_robin (length addrs)) ctx urlSuffix addrs w
    = (Ok (Some st), w').
Proof.
  unfold fanout, round_robin, bind. rewrite run_schedule_app.
  destruct (run_fetch_pass addrs [] (fanout_init addrs) w eq_refl)
    as (st1 & w1 & fetched & Hrun1 & Hw1 & Hlen1 & Hall1).
  cbn [length] in Hrun1. rewrite Hrun1.
  destruct (run_commit_pass fetched [] st1 w1 Hw1 Hall1) as (st2 & Hrun2 & Hw2).
  cbn [length] in Hrun2. rewrite Hlen1 in Hrun2. rewrite Hrun2.
  assert (Hfin : all_finished st2 = true).
  { unfold all_finished. rewrite Hw2. cbn [app].
    generalize (length fetched). intros n.
    induction n as [| n IHn]; [reflexivity | exact IHn]. }
  cbn [ret]. rewrite Hfin. eauto.
Qed.
End fanout_progress.

(** C5. With two or more addresses, [doListMulti] never panics, and it
    returns exactly under the schedules that give every goroutine its two
    steps (its request and its critical section); the round-robin schedule
    is one of them. Under every such schedule it returns as follows. The
    world has changed by one request for each address and by nothing else.
    Every address has exactly one recorded result, and it is the one
    [doListOne] returned in this run: for the address of its goroutine, in
    the world as the requests made before had left it, under the shared
    derived context, which was cancelled at that moment exactly if one of
    the results recorded before the request was a failure other than a
    cancellation. The returned list is the sorted arrangement of all the
    recorded lists taken together. The returned error is the first
    recorded error, in recording order, that is not [context.Canceled]:
    results recorded before it carry no error or that of a cancellation,
    later errors do not replace it, and recording it called [cancel];
    there is no error, and no call of [cancel] by a goroutine, when no
    recorded result has such an error. List and error are returned
    together. *)
Theorem doListMulti_merge_and_first_error
    (json_strings : Reader → list string * option error)
    (ctx : Context) (urlSuffix : string) (addrs : list string) (w : World) :
  2 ≤ length addrs →
  (∃ res w',
     doListMulti json_strings (round_robin (length addrs)) ctx urlSuffix addrs w
     = (Ok (Some res), w'))
  ∧ (∀ sched, ∃ res w',
       doListMulti json_strings sched ctx urlSuffix addrs w = (Ok res, w')
       ∧ (is_Some res ↔ ∀ i, i < length addrs → 2 ≤ steps_of sched i))
  ∧ ∀ sched l e w',
      doListMulti json_strings sched ctx urlSuffix addrs w = (Ok (Some (l, e)), w') →
      ∃ st sent,
        fanout json_strings sched ctx urlSuffix addrs w = (Ok (Some st), w')
        ∧ w' = world_after w (request_of urlSuffix addrs <$> sent)
        ∧ sent ≡ₚ seq 0 (length addrs)
        ∧ (fst <$> commits st) ≡ₚ seq 0 (length addrs)
        ∧ Forall (λ c, produced json_strings ctx urlSuffix addrs w sent (fst c)
                         (cancelled_when (commits st)
                            (recorded_before (length addrs) sched (fst c)))
                         (fst (snd c)) (snd (snd c))) (commits st)
        ∧ l = sort_Strings (concat ((λ c, fst (snd c)) <$> commits st))
        ∧ Sorted String.le l
        ∧ l ≡ₚ concat ((λ c, fst (snd c)) <$> commits st)
        ∧ cancelled st = match e with Some _ => true | None => false end
        ∧ match e with
          | None =>
              Forall (λ c, snd (snd c) = None ∨ snd (snd c) = Some context_Canceled)
                     (commits st)
          | Some x =>
              ∃ pre c post,
                commits st = pre ++ c :: post
                ∧ snd (snd c) = Some x ∧ x ≠ context_Canceled
                ∧ Forall (λ c, snd (snd c) = None
                               ∨ snd (snd c) = Some context_Canceled) pre
          end.
Proof.
  intros Hlen.
  assert (Hne : length addrs ≠ 1) by lia.
  assert (Hsched : ∀ sched, ∃ st w' sent,
            run_schedule json_strings ctx urlSuffix sched (fanout_init addrs) w
            = (Ok st, w')
            ∧ fanout_inv addrs st
            ∧ run_inv json_strings ctx urlSuffix addrs w sched sent st w').
  { intros sched.
    apply (run_schedule_run json_strings ctx urlSuffix addrs w sched [] []
             (fanout_init addrs) w (fanout_inv_init addrs)
             (run_inv_init json_strings ctx urlSuffix addrs w)). }
  split; [| split].
  - destruct (round_robin_finishes json_strings ctx urlSuffix addrs w)
      as (st & w' & Hfan).
    unfold doListMulti. rewrite decide_False by exact Hne.
    unfold bind. rewrite Hfan. cbn. eauto.
  - intros sched.
    destruct (Hsched sched) as (st & w' & sent & Hrun & Hinv & Hr).
    unfold doListMulti. rewrite decide_False by exact Hne.
    unfold fanout, bind. rewrite Hrun. cbn [ret].
    eexists _, _. split; [reflexivity |].
    rewrite <- (run_inv_finished json_strings ctx urlSuffix addrs w
                  sched sent st w' Hinv Hr).
    destruct (all_finished st); cbn; split; intros H; try reflexivity; eauto.
    + destruct H as [? H]. discriminate H.
    + discriminate H.
  - intros sched l e w' Hrun.
    unfold doListMulti in Hrun. rewrite decide_False in Hrun by exact Hne.
    unfold fanout, bind in Hrun. unfold fanout, bind.
    destruct (Hsched sched) as (st & w1 & sent & Hs & Hinv & Hr).
    rewrite Hs in Hrun. rewrite Hs. cbn [ret] in *.
    destruct (all_finished st) eqn:Hfin; cbn in Hrun; [| discriminate].
    injection Hrun as <- <- <-.
    exists st, sent. split; [reflexivity |].
    split; [apply (run_world _ _ _ _ _ _ _ _ _ Hr) |].
    split; [eapply run_inv_all_sent; eassumption |].
    split; [eapply fanout_inv_finished; eassumption |].
    split; [apply (run_commits _ _ _ _ _ _ _ _ _ Hr) |].
    rewrite <- (inv_list _ _ Hinv).
    split; [reflexivity |].
    split; [apply (Sorted_merge_sort String.le) |].
    split; [apply (merge_sort_Permutation String.le) |].
    split; [eapply inv_cancel; eassumption |].
    rewrite (inv_err _ _ Hinv).
    pose proof (first_failure_split (commits st)) as Hsplit.
    destruct (first_failure (commits st)) as [x |].
    + destruct Hsplit as (pre & c & post & Hcs & Hc & Hx & Hpre).
      exists pre, c, post. repeat split; try assumption.
      eapply Forall_impl; [exact Hpre |].
      intros c0. apply hard_failure_None.
    + eapply Forall_impl; [exact Hsplit |].
      intros c0. apply hard_failure_None.
Qed.

Lemma doListMulti_merge_and_first_error_witness :
  2 ≤ length example.table
  ∧ (∃ res w',
       doListMulti fanout_example.decode_strings (round_robin (length example.table))
         example.background "?cloning" example.table fanout_example.w
       = (Ok (Some res), w'))
  ∧ ∃ res w',
      doListMulti fanout_example.decode_strings [2; 2; 0; 1; 0; 1]
        example.background "?cloning" example.table fanout_example.w
      = (Ok (Some res), w').
Proof.
  split; [simpl; lia |].
  destruct (doListMulti_merge_and_first_error fanout_example.decode_strings
              example.background "?cloning" example.table fanout_example.w)
    as (Hrr & Hall & _).
  { simpl. lia. }
  split; [exact Hrr |].
  destruct (Hall [2; 2; 0; 1; 0; 1]) as (res & w' & Hrun & Hsome).
  destruct Hsome as [_ Hsome].
  destruct Hsome as [r ->].
  - intros [| [| [| i]]] Hi; [vm_compute; lia .. |]. simpl in Hi. lia.
  - exists r, w'. exact Hrun.
Defined.

(** The failing shard records its result last: the two lists are merged
    and returned with the error. *)
Example ListCloning_partial_failure :
  fst (ListCloning fanout_example.decode_strings [0; 1; 2; 0; 1; 2]
         example.cl example.background fanout_example.w)
  = Ok (Some (["a"; "b"; "c"], Some (transport_error "connection refused"))).
Proof. vm_compute. reflexivity. Qed.

(** The failing shard records its result before the others have sent
    their requests: they run under the cancelled context, their
    cancellation errors are not recorded, and the first error is returned
    with the empty list. *)
Example ListCloning_cancels_siblings :
  fst (ListCloning fanout_example.decode_strings [2; 2; 0; 1; 0; 1]
         example.cl example.background fanout_example.w)
  = Ok (Some ([], Some (transport_error "connection refused"))).
Proof. vm_compute. reflexivity. Qed.

(** A schedule that stops before a goroutine has finished gives no
    result: [wg.Wait()] has not returned. *)
Example ListCloning_unfinished :
  fst (ListCloning fanout_example.decode_strings [0; 1; 2; 0; 1]
         example.cl example.background fanout_example.w)
  = Ok None.
Proof. vm_compute. reflexivity. Qed.

(** ** The memoized [RepoInfo] of the mirror-info resolver *)

Section memo.
Import graphqlbackend.
Variable json_RepoInfoResponse : Reader → option protocol.RepoInfoResponse * option error.
Variable DefaultClient : Client.
Variable CheckCurrentUserIsSiteAdmin : Context → option error.
Variable Format_RFC3339 : Z → string.

(** [RepoInfo] makes at most one request. *)
Lemma RepoInfo_requests cl ctx repo w :
  snd (RepoInfo json_RepoInfoResponse cl ctx repo w) = w
  ∨ ∃ req, snd (RepoInfo json_RepoInfoResponse cl ctx repo w) = logged w req.
Proof.
  unfold RepoInfo, bind, lift, go_index, httpPost, http_Do, ret.
  destruct (Addrs cl !! Z.to_nat 0) as [addr |]; [| left; reflexivity].
  right. eexists.
  destruct (network w ctx (http_log w) _) as [resp | err]; [| reflexivity].
  case_decide; reflexivity.
Qed.

Lemma gitserverRepoInfo_done ctx r w :
  repoInfoOnce r = true →
  gitserverRepoInfo json_RepoInfoResponse DefaultClient ctx (r, w)
  = (Ok (repoInfoResponse r, repoInfoErr r), (r, w)).
Proof.
  intros Hdone. unfold gitserverRepoInfo, bind, repoInfoOnce_Do.
  cbn [fst snd]. rewrite Hdone. reflexivity.
Qed.

Lemma gitserverRepoInfo_first ctx r w :
  repoInfoOnce r = false →
  gitserverRepoInfo json_RepoInfoResponse DefaultClient ctx (r, w)
  = (let res := RepoInfo json_RepoInfoResponse DefaultClient ctx
                  (sourcegraph.URI (repo (repository r))) w in
     (match fst res with
      | Ok p => Ok p
      | Panic msg => Panic msg
      end,
      (memoized r (fst res), snd res))).
Proof.
  intros Hfresh. unfold gitserverRepoInfo, bind, repoInfoOnce_Do, fetch_repoInfo.
  cbn [fst snd]. rewrite Hfresh.
  destruct (RepoInfo _ _ _ _ _) as [[[resp err] | msg] w']; reflexivity.
Qed.

(** A second call returns what the first returned and changes nothing. *)
Lemma gitserverRepoInfo_again ctx1 ctx2 h p h1 :
  gitserverRepoInfo json_RepoInfoResponse DefaultClient ctx1 h = (Ok p, h1) →
  gitserverRepoInfo json_RepoInfoResponse DefaultClient ctx2 h1 = (Ok p, h1).
Proof.
  destruct h as [r w]. destruct (repoInfoOnce r) eqn:Hdone.
  - rewrite gitserverRepoInfo_done by exact Hdone.
    intros [= <- <-]. apply gitserverRepoInfo_done. exact Hdone.
  - rewrite gitserverRepoInfo_first by exact Hdone. cbv zeta.
    destruct (RepoInfo _ _ _ _ _) as [[[resp err] | msg] w']; cbn [fst snd memoized];
      intros [= <- <-].
    apply gitserverRepoInfo_done. reflexivity.
Qed.

(** What a call does to the resolver and the world: nothing when the
    [sync.Once] is done or when the access check of [RemoteURL] fails;
    otherwise what [gitserverRepoInfo] does. *)
Lemma call_heap m ctx h :
  snd (call json_RepoInfoResponse DefaultClient CheckCurrentUserIsSiteAdmin
         Format_RFC3339 m ctx h)
  = match m, CheckCurrentUserIsSiteAdmin ctx with
    | MRemoteURL, Some _ => h
    | _, _ => snd (gitserverRepoInfo json_RepoInfoResponse DefaultClient ctx h)
    end.
Proof.
  unfold call, RemoteURL, Cloned, CloneInProgress, UpdatedAt, bind, lift, ret.
  destruct m; try destruct (CheckCurrentUserIsSiteAdmin ctx); try reflexivity;
    destruct (gitserverRepoInfo _ _ _ _) as [[[resp [err |]] | msg] h1];
    try reflexivity;
    destruct resp as [info |]; try reflexivity;
    cbn; try destruct (protocol.LastFetched info); reflexivity.
Qed.

Lemma call_done m ctx r w :
  repoInfoOnce r = true →
  snd (call json_RepoInfoResponse DefaultClient CheckCurrentUserIsSiteAdmin
         Format_RFC3339 m ctx (r, w)) = (r, w).
Proof.
  intros Hdone. rewrite call_heap.
  rewrite gitserverRepoInfo_done by exact Hdone.
  destruct m, (CheckCurrentUserIsSiteAdmin ctx); reflexivity.
Qed.

Lemma calls_done l h :
  repoInfoOnce (fst h) = true →
  snd (calls json_RepoInfoResponse DefaultClient CheckCurrentUserIsSiteAdmin
         Format_RFC3339 l h) = h.
Proof.
  revert h. induction l as [| [m ctx] l IH]; intros [r w] Hdone; [reflexivity |].
  cbn [calls].
  pose proof (call_done m ctx r w Hdone) as Hcall.
  destruct (call _ _ _ _ m ctx (r, w)) as [res h1]. cbn [snd] in Hcall. subst h1.
  specialize (IH (r, w) Hdone).
  destruct (calls _ _ _ _ l (r, w)) as [rest h2]. exact IH.
Qed.

Lemma calls_requests l h :
  length (http_log (snd (snd
    (calls json_RepoInfoResponse DefaultClient CheckCurrentUserIsSiteAdmin
       Format_RFC3339 l h))))
  ≤ S (length (http_log (snd h))).
Proof.
  revert h. induction l as [| [m ctx] l IH]; intros [r w]; [simpl; lia |].
  cbn [calls].
  pose proof (call_heap m ctx (r, w)) as Hcall.
  destruct (call _ _ _ _ m ctx (r, w)) as [res h1]. cbn [snd] in Hcall.
  assert (Hcases : h1 = (r, w)
                   ∨ (repoInfoOnce (fst h1) = true
                      ∧ length (http_log (snd h1)) ≤ S (length (http_log w)))).
  { destruct (repoInfoOnce r) eqn:Hdone.
    - left. rewrite gitserverRepoInfo_done in Hcall by exact Hdone.
      destruct m, (CheckCurrentUserIsSiteAdmin ctx); exact Hcall.
    - rewrite gitserverRepoInfo_first in Hcall by exact Hdone.
      cbv zeta in Hcall. cbn [snd] in Hcall.
      assert (Hread : repoInfoOnce (fst (memoized r (fst (RepoInfo json_RepoInfoResponse
                         DefaultClient ctx (sourcegraph.URI (repo (repository r))) w)),
                       snd (RepoInfo json_RepoInfoResponse DefaultClient ctx
                              (sourcegraph.URI (repo (repository r))) w))) = true
                      ∧ length (http_log (snd (RepoInfo json_RepoInfoResponse
                           DefaultClient ctx (sourcegraph.URI (repo (repository r))) w)))
                        ≤ S (length (http_log w))).
      { split.
        - cbn [fst]. destruct (fst (RepoInfo _ _ _ _ _)) as [[? ?] | ?]; reflexivity.
        - destruct (RepoInfo_requests DefaultClient ctx
                      (sourcegraph.URI (repo (repository r))) w) as [-> | [req ->]].
          + lia.
          + unfold logged. cbn [http_log]. rewrite length_app. simpl. lia. }
      destruct m, (CheckCurrentUserIsSiteAdmin ctx); subst h1;
        (left; reflexivity) || (right; exact Hread). }
  destruct Hcases as [-> | [Hdone Hlen]].
  - specialize (IH (r, w)).
    destruct (calls _ _ _ _ l (r, w)) as [rest h2]. exact IH.
  - pose proof (calls_done l h1 Hdone) as Hrest.
    destruct (calls _ _ _ _ l h1) as [rest h2]. cbn [snd] in *. subst h2.
    exact Hlen.
Qed.
End memo.

(** C9, as amended. On one resolver the [RepoInfo] request is made at
    most once, however many of the four methods are called and in whatever
    order. The read is made by the first call that reaches
    [gitserverRepoInfo]: the first call of [Cloned], [CloneInProgress] or
    [UpdatedAt], or of [RemoteURL] by a site admin; a [RemoteURL] call that
    fails the site-admin check returns that error and leaves the resolver
    and the world as they were. Once [gitserverRepoInfo] has returned a
    pair, every later call of it returns the same pair and changes nothing,
    and no later method call changes the resolver or the world. *)
Theorem RepoInfo_memoized_per_resolver
    (json_RepoInfoResponse : Reader → option protocol.RepoInfoResponse * option error)
    (DefaultClient : Client)
    (CheckCurrentUserIsSiteAdmin : Context → option error)
    (Format_RFC3339 : Z → string)
    (rr : graphqlbackend.repositoryResolver) (w : World) :
  (∀ l,
     length (http_log (snd (snd
       (graphqlbackend.calls json_RepoInfoResponse DefaultClient
          CheckCurrentUserIsSiteAdmin Format_RFC3339 l
          (graphqlbackend.MirrorInfo rr, w)))))
     ≤ S (length (http_log w)))
  ∧ (∀ m ctx,
       (m = graphqlbackend.MRemoteURL → CheckCurrentUserIsSiteAdmin ctx = None) →
       snd (graphqlbackend.call json_RepoInfoResponse DefaultClient
              CheckCurrentUserIsSiteAdmin Format_RFC3339 m ctx
              (graphqlbackend.MirrorInfo rr, w))
       = (memoized (graphqlbackend.MirrorInfo rr)
            (fst (RepoInfo json_RepoInfoResponse DefaultClient ctx
                    (sourcegraph.URI (graphqlbackend.repo rr)) w)),
          snd (RepoInfo json_RepoInfoResponse DefaultClient ctx
                 (sourcegraph.URI (graphqlbackend.repo rr)) w)))
  ∧ (∀ ctx err,
       CheckCurrentUserIsSiteAdmin ctx = Some err →
       graphqlbackend.call json_RepoInfoResponse DefaultClient
         CheckCurrentUserIsSiteAdmin Format_RFC3339 graphqlbackend.MRemoteURL ctx
         (graphqlbackend.MirrorInfo rr, w)
       = (Ok (graphqlbackend.VString "", Some err), (graphqlbackend.MirrorInfo rr, w)))
  ∧ (∀ ctx1 ctx2 h p h1,
       graphqlbackend.gitserverRepoInfo json_RepoInfoResponse DefaultClient ctx1 h
       = (Ok p, h1) →
       graphqlbackend.gitserverRepoInfo json_RepoInfoResponse DefaultClient ctx2 h1
       = (Ok p, h1)
       ∧ graphqlbackend.repoInfoOnce (fst h1) = true
       ∧ ∀ l,
           snd (graphqlbackend.calls json_RepoInfoResponse DefaultClient
                  CheckCurrentUserIsSiteAdmin Format_RFC3339 l h1) = h1).
Proof.
  split; [| split; [| split]].
  - intros l. apply (calls_requests _ _ _ _ l (graphqlbackend.MirrorInfo rr, w)).
  - intros m ctx Hadmin. rewrite call_heap.
    rewrite gitserverRepoInfo_first by reflexivity. cbv zeta. cbn [snd].
    destruct m; try reflexivity.
    rewrite Hadmin by reflexivity. reflexivity.
  - intros ctx err Hcheck.
    unfold graphqlbackend.call, graphqlbackend.RemoteURL, bind, ret.
    rewrite Hcheck. reflexivity.
  - intros ctx1 ctx2 h p h1 Hfirst.
    assert (Hdone : graphqlbackend.repoInfoOnce (fst h1) = true).
    { destruct h as [r w0]. destruct (graphqlbackend.repoInfoOnce r) eqn:Hr.
      - rewrite gitserverRepoInfo_done in Hfirst by exact Hr.
        injection Hfirst as _ Hh1. subst h1. exact Hr.
      - rewrite gitserverRepoInfo_first in Hfirst by exact Hr. cbv zeta in Hfirst.
        destruct (RepoInfo _ _ _ _ _) as [[[resp err] | msg] w']; cbn in Hfirst;
          [| discriminate].
        injection Hfirst as _ Hh1. subst h1. reflexivity. }
    split; [eapply gitserverRepoInfo_again; exact Hfirst |].
    split; [exact Hdone |].
    intros l. apply calls_done. exact Hdone.
Qed.

(** C9 as stated fails when the first call is [RemoteURL] by a caller who
    is not a site admin: the call returns the access error, no request has
    been made and the [sync.Once] has not run. The read is made by the next
    call, here [Cloned]. *)
Lemma RemoteURL_first_call_counterexample :
  graphqlbackend.call memo_example.decode example.cl memo_example.not_admin
    memo_example.format graphqlbackend.MRemoteURL example.background
    (graphqlbackend.MirrorInfo memo_example.rr, memo_example.w)
  = (Ok (graphqlbackend.VString "", Some (errors_New "must be site admin")),
     (graphqlbackend.MirrorInfo memo_example.rr, memo_example.w))
  ∧ http_log memo_example.w = []
  ∧ graphqlbackend.repoInfoOnce (graphqlbackend.MirrorInfo memo_example.rr) = false
  ∧ (let '(results, (r, w')) :=
       graphqlbackend.calls memo_example.decode example.cl memo_example.not_admin
         memo_example.format
         [(graphqlbackend.MRemoteURL, example.background);
          (graphqlbackend.MCloned, example.background);
          (graphqlbackend.MCloneInProgress, example.background)]
         (graphqlbackend.MirrorInfo memo_example.rr, memo_example.w) in
     results = [Ok (graphqlbackend.VString "", Some (errors_New "must be site admin"));
                Ok (graphqlbackend.VBool true, None);
                Ok (graphqlbackend.VBool false, None)]
     ∧ http_log w'
       = [POST "http://gitserver-0:3178/repo" (RepoInfoRequest "github.com/gorilla/mux")]).
Proof.
  repeat split; vm_compute; reflexivity.
Qed.

(** * Further properties of the client *)

(** ** The wrappers of [DividedOutput] *)

Section wrappers.
Variable NormalizeRepo : string → string.
Variable json_NotFoundPayload : Reader → protocol.NotFoundPayload * option error.

Lemma Run_of_DividedOutput c ctx w c' stdout stderr err w' :
  DividedOutput NormalizeRepo json_NotFoundPayload c ctx w
  = (Ok (c', (stdout, stderr, err)), w') →
  Run NormalizeRepo json_NotFoundPayload c ctx w = (Ok (c', err), w')
  ∧ Output NormalizeRepo json_NotFoundPayload c ctx w = (Ok (c', (stdout, err)), w')
  ∧ CombinedOutput NormalizeRepo json_NotFoundPayload c ctx w
    = (Ok (c', (stdout ++ stderr, err)), w').
Proof.
  intros Hdiv. unfold Run, Output, CombinedOutput, bind.
  rewrite Hdiv. repeat split.
Qed.
End wrappers.

(** X1. On a 200 answer whose body is read to its end and whose exit
    status parses, [Run], [Output] and [CombinedOutput] return nothing,
    stdout, and stdout followed by stderr; their error is the error trailer
    when that is not empty and [nil] otherwise. A non-zero exit status is
    not an error by itself: it is only stored in the [ExitStatus] field. *)
Theorem exit_status_alone_is_not_an_error
    (NormalizeRepo : string → string)
    (json_NotFoundPayload : Reader → protocol.NotFoundPayload * option error)
    (c : Cmd) (ctx : Context) (w : World) (req : Request) (resp : Response)
    (stdout : list Z) (v : Z) :
  exec_answered NormalizeRepo c ctx w req (inl resp) →
  StatusCode resp = 200%Z →
  ReadAll (Body resp) = (stdout, None) →
  strconv.Atoi (Header_Get (Trailer resp) "X-Exec-Exit-Status") = (v, None) →
  ∃ err,
    err = (if decide (Header_Get (Trailer resp) "X-Exec-Error" = "") then None
           else Some (errors_New (Header_Get (Trailer resp) "X-Exec-Error")))
    ∧ Run NormalizeRepo json_NotFoundPayload c ctx w
      = (Ok (set_ExitStatus c v, err), logged w req)
    ∧ Output NormalizeRepo json_NotFoundPayload c ctx w
      = (Ok (set_ExitStatus c v, (stdout, err)), logged w req)
    ∧ CombinedOutput NormalizeRepo json_NotFoundPayload c ctx w
      = (Ok (set_ExitStatus c v,
             (stdout ++ bytes_of_string (Header_Get (Trailer resp) "X-Exec-Stderr"),
              err)),
         logged w req).
Proof.
  intros Hans Hcode Hread Hatoi.
  pose proof (DividedOutput_200 NormalizeRepo json_NotFoundPayload
                c ctx w req resp Hans Hcode) as Heq.
  rewrite Hread, Hatoi in Heq.
  eexists. split; [reflexivity |].
  apply Run_of_DividedOutput. rewrite Heq.
  repeat case_decide; try reflexivity; contradiction.
Qed.

Lemma exit_status_alone_is_not_an_error_witness :
  Run example.normalize example.decode_NotFoundPayload
    example.cmd example.background
    (example.world (inl (example.exec_answer (Reader_of_string "ok") "3" "warn" "")))
  = (Ok (set_ExitStatus example.cmd 3, None),
     logged (example.world
               (inl (example.exec_answer (Reader_of_string "ok") "3" "warn" "")))
            (POST "http://gitserver-0:3178/exec"
               (ExecRequest "github.com/gorilla/mux" "" ["log"]))).
Proof.
  destruct (exit_status_alone_is_not_an_error example.normalize
              example.decode_NotFoundPayload example.cmd example.background _ _
              (example.exec_answer (Reader_of_string "ok") "3" "warn" "")
              (bytes_of_string "ok") 3%Z
              (example_exec_answered _) eq_refl eq_refl eq_refl)
    as (err & Herr & Hrun & _).
  rewrite Hrun, Herr. reflexivity.
Defined.

(** ** The calls that go to the first address *)

Section first_address.
Variable json_strings : Reader → list string * option error.
Variable json_bool : Reader → bool * option error.
Variable json_string : Reader → string * option error.
Variable json_RepoInfoResponse : Reader → option protocol.RepoInfoResponse * option error.

Lemma ListGitolite_answer cl ctx w addr :
  Addrs cl !! 0 = Some addr →
  ListGitolite json_strings cl ctx w
  = (Ok match network w ctx (http_log w) (list_request "?gitolite" addr) with
        | inr err => ([], Some err)
        | inl resp => json_strings (Body resp)
        end,
     logged w (list_request "?gitolite" addr)).
Proof.
  intros Haddr.
  unfold ListGitolite, doListOne, bind, lift, go_index, http_Do, ret, list_request.
  change (Z.to_nat 0) with 0. rewrite Haddr.
  destruct (network w ctx (http_log w) _); reflexivity.
Qed.

Lemma EnqueueRepoUpdate_answer cl ctx repo w addr :
  Addrs cl !! 0 = Some addr →
  EnqueueRepoUpdate cl ctx repo w
  = (Ok match network w ctx (http_log w)
                (first_address_request addr "enqueue-repo-update"
                   (RepoUpdateRequest repo)) with
        | inr err => Some err
        | inl _ => None
        end,
     logged w (first_address_request addr "enqueue-repo-update"
                 (RepoUpdateRequest repo))).
Proof.
  intros Haddr.
  unfold EnqueueRepoUpdate, bind, lift, go_index, httpPost, http_Do, ret,
    first_address_request.
  change (Z.to_nat 0) with 0. rewrite Haddr.
  destruct (network w ctx (http_log w) _); reflexivity.
Qed.

Lemma IsRepoCloneable_answer cl ctx repo w addr :
  Addrs cl !! 0 = Some addr →
  IsRepoCloneable json_bool cl ctx repo w
  = (Ok match network w ctx (http_log w)
                (first_address_request addr "is-repo-cloneable"
                   (IsRepoCloneableRequest repo)) with
        | inr err => (false, Some err)
        | inl resp => json_bool (Body resp)
        end,
     logged w (first_address_request addr "is-repo-cloneable"
                 (IsRepoCloneableRequest repo))).
Proof.
  intros Haddr.
  unfold IsRepoCloneable, bind, lift, go_index, httpPost, http_Do, ret,
    first_address_request.
  change (Z.to_nat 0) with 0. rewrite Haddr.
  destruct (network w ctx (http_log w) _); reflexivity.
Qed.

Lemma IsRepoCloned_answer cl ctx repo w addr :
  Addrs cl !! 0 = Some addr →
  IsRepoCloned cl ctx repo w
  = (Ok match network w ctx (http_log w)
                (first_address_request addr "is-repo-cloned"
                   (IsRepoClonedRequest repo)) with
        | inr err => (false, Some err)
        | inl resp =>
            (if decide (StatusCode resp = 200%Z) then true else false, None)
        end,
     logged w (first_address_request addr "is-repo-cloned"
                 (IsRepoClonedRequest repo))).
Proof.
  intros Haddr.
  unfold IsRepoCloned, bind, lift, go_index, httpPost, http_Do, ret,
    first_address_request.
  change (Z.to_nat 0) with 0. rewrite Haddr.
  destruct (network w ctx (http_log w) _); reflexivity.
Qed.

Lemma RepoFromRemoteURL_answer cl ctx remoteURL w addr :
  Addrs cl !! 0 = Some addr →
  RepoFromRemoteURL json_string cl ctx remoteURL w
  = (Ok match network w ctx (http_log w)
                (first_address_request addr "repo-from-remote-url"
                   (RepoFromRemoteURLRequest remoteURL)) with
        | inr err => ("", Some err)
        | inl resp => json_string (Body resp)
        end,
     logged w (first_address_request addr "repo-from-remote-url"
                 (RepoFromRemoteURLRequest remoteURL))).
Proof.
  intros Haddr.
  unfold RepoFromRemoteURL, bind, lift, go_index, httpPost, http_Do, ret,
    first_address_request.
  change (Z.to_nat 0) with 0. rewrite Haddr.
  destruct (network w ctx (http_log w) _); reflexivity.
Qed.

Lemma RepoInfo_answer cl ctx repo w addr :
  Addrs cl !! 0 = Some addr →
  ∃ r,
    RepoInfo json_RepoInfoResponse cl ctx repo w
    = (Ok r, logged w (first_address_request addr "repo" (RepoInfoRequest repo))).
Proof.
  intros Haddr.
  unfold RepoInfo, bind, lift, go_index, httpPost, http_Do, ret,
    first_address_request.
  change (Z.to_nat 0) with 0. rewrite Haddr.
  destruct (network w ctx (http_log w) _); [case_decide |]; eauto.
Qed.
End first_address.

(** X2. [ListGitolite], [EnqueueRepoUpdate], [IsRepoCloneable],
    [IsRepoCloned], [RepoInfo] and [RepoFromRemoteURL] are not routed by the
    repository: each returns after exactly one request, sent to the first
    address of the table whatever the other addresses and the argument are,
    and the POST payload carries the argument as given (not normalized). *)
Theorem single_shard_calls_use_first_address
    (json_strings : Reader → list string * option error)
    (json_bool : Reader → bool * option error)
    (json_string : Reader → string * option error)
    (json_RepoInfoResponse : Reader → option protocol.RepoInfoResponse * option error)
    (cl : Client) (ctx : Context) (w : World) (addr : string) (rest : list string) :
  Addrs cl = addr :: rest →
  (∃ r, ListGitolite json_strings cl ctx w
        = (Ok r, logged w (list_request "?gitolite" addr)))
  ∧ (∀ repo, ∃ r,
       EnqueueRepoUpdate cl ctx repo w
       = (Ok r, logged w (first_address_request addr "enqueue-repo-update"
                            (RepoUpdateRequest repo))))
  ∧ (∀ repo, ∃ r,
       IsRepoCloneable json_bool cl ctx repo w
       = (Ok r, logged w (first_address_request addr "is-repo-cloneable"
                            (IsRepoCloneableRequest repo))))
  ∧ (∀ repo, ∃ r,
       IsRepoCloned cl ctx repo w
       = (Ok r, logged w (first_address_request addr "is-repo-cloned"
                            (IsRepoClonedRequest repo))))
  ∧ (∀ repo, ∃ r,
       RepoInfo json_RepoInfoResponse cl ctx repo w
       = (Ok r, logged w (first_address_request addr "repo" (RepoInfoRequest repo))))
  ∧ (∀ remoteURL, ∃ r,
       RepoFromRemoteURL json_string cl ctx remoteURL w
       = (Ok r, logged w (first_address_request addr "repo-from-remote-url"
                            (RepoFromRemoteURLRequest remoteURL)))).
Proof.
  intros Htable.
  assert (Haddr : Addrs cl !! 0 = Some addr) by (rewrite Htable; reflexivity).
  repeat split; intros.
  - rewrite (ListGitolite_answer _ _ _ _ _ Haddr). eauto.
  - rewrite (EnqueueRepoUpdate_answer _ _ _ _ _ Haddr). eauto.
  - rewrite (IsRepoCloneable_answer _ _ _ _ _ _ Haddr). eauto.
  - rewrite (IsRepoCloned_answer _ _ _ _ _ Haddr). eauto.
  - apply RepoInfo_answer. exact Haddr.
  - rewrite (RepoFromRemoteURL_answer _ _ _ _ _ _ Haddr). eauto.
Qed.

Lemma single_shard_calls_use_first_address_witness :
  http_log (snd (IsRepoCloned example.cl example.background
                   "GitHub.com/Gorilla/Mux"
                   (example.world (inr (transport_error "connection refused")))))
  = [POST "http://gitserver-0:3178/is-repo-cloned"
       (IsRepoClonedRequest "GitHub.com/Gorilla/Mux")].
Proof.
  destruct (single_shard_calls_use_first_address
              (λ _, ([], None)) (λ _, (false, None)) (λ _, ("", None))
              (λ _, (None, None)) example.cl example.background
              (example.world (inr (transport_error "connection refused")))
              "gitserver-0:3178" ["gitserver-1:3178"; "gitserver-2:3178"] eq_refl)
    as (_ & _ & _ & Hcloned & _).
  destruct (Hcloned "GitHub.com/Gorilla/Mux") as [r ->]. reflexivity.
Defined.

(** X3. With an empty address table the six calls that go to the first
    address panic on [c.Addrs[0]], and [UploadPack] and an exec call under a
    live context panic on the modulo by the table size; none of them makes
    a request. An exec call under an expired context still returns the
    context error. *)
Theorem empty_table_panics
    (NormalizeRepo : string → string)
    (json_NotFoundPayload : Reader → protocol.NotFoundPayload * option error)
    (json_strings : Reader → list string * option error)
    (json_bool : Reader → bool * option error)
    (json_string : Reader → string * option error)
    (json_RepoInfoResponse : Reader → option protocol.RepoInfoResponse * option error)
    (url_Parse : string → option error) (url_QueryEscape : string → string)
    (cl : Client) (ctx : Context) (w : World) :
  Addrs cl = [] →
  ListGitolite json_strings cl ctx w
  = (Panic "runtime error: index out of range", w)
  ∧ (∀ repo,
       EnqueueRepoUpdate cl ctx repo w
       = (Panic "runtime error: index out of range", w)
       ∧ IsRepoCloneable json_bool cl ctx repo w
         = (Panic "runtime error: index out of range", w)
       ∧ IsRepoCloned cl ctx repo w
         = (Panic "runtime error: index out of range", w)
       ∧ RepoInfo json_RepoInfoResponse cl ctx repo w
         = (Panic "runtime error: index out of range", w)
       ∧ RepoFromRemoteURL json_string cl ctx repo w
         = (Panic "runtime error: index out of range", w)
       ∧ UploadPack NormalizeRepo url_Parse url_QueryEscape cl repo
         = Panic "runtime error: integer divide by zero")
  ∧ (∀ c r name args,
       client c = cl → Repo c = Some r → Args c = name :: args →
       (ctx_Err ctx = None →
        sendExec NormalizeRepo json_NotFoundPayload c ctx w
        = (Panic "runtime error: integer divide by zero", w))
       ∧ (∀ err, ctx_Err ctx = Some err →
          sendExec NormalizeRepo json_NotFoundPayload c ctx w
          = (Ok (inr err), counted w))).
Proof.
  intros Htable.
  split; [| split].
  - unfold ListGitolite, bind, lift, go_index. rewrite Htable. reflexivity.
  - intros repo.
    unfold EnqueueRepoUpdate, IsRepoCloneable, IsRepoCloned, RepoInfo,
      RepoFromRemoteURL, UploadPack, bind, lift, go_index.
    rewrite Htable. repeat split. cbv zeta.
    destruct (BigEndian_Uint64_be_uint
                (md5.Sum (bytes_of_string (NormalizeRepo repo)))) as [-> _].
    + apply md5_Sum_bytes.
    + rewrite md5_Sum_length. lia.
    + reflexivity.
  - intros c r name args Hcl HRepo HArgs. split.
    + intros Hctx. unfold sendExec, bind, lift.
      rewrite HRepo, HArgs, Hctx, Hcl, Htable. cbn [go_deref].
      destruct (BigEndian_Uint64_be_uint
                  (md5.Sum (bytes_of_string (NormalizeRepo (sourcegraph.URI r)))))
        as [-> _].
      * apply md5_Sum_bytes.
      * rewrite md5_Sum_length. lia.
      * reflexivity.
    + intros err Hctx. eapply sendExec_expired; eassumption.
Qed.

Lemma empty_table_panics_witness :
  IsRepoCloned {| Addrs := []; NoCreds := false |} example.background
    "github.com/gorilla/mux" (example.world (inr (transport_error "unreachable")))
  = (Panic "runtime error: index out of range",
     example.world (inr (transport_error "unreachable"))).
Proof.
  apply (empty_table_panics example.normalize example.decode_NotFoundPayload
           (λ _, ([], None)) (λ _, (false, None)) (λ _, ("", None))
           (λ _, (None, None)) example.parse example.escape
           {| Addrs := []; NoCreds := false |} example.background
           (example.world (inr (transport_error "unreachable"))) eq_refl).
Defined.

(** X4. [IsRepoCloned] looks at the status code only: it reports an error
    exactly when the exchange itself failed (and then [false]), and
    otherwise [true] exactly when the status is 200, so that any other
    status, a server error included, is answered [false] with a nil error,
    whatever the body holds. *)
Theorem IsRepoCloned_reads_the_status_only
    (cl : Client) (ctx : Context) (repo : string) (w : World)
    (addr : string) (rest : list string) :
  Addrs cl = addr :: rest →
  ∃ cloned err,
    fst (IsRepoCloned cl ctx repo w) = Ok (cloned, err)
    ∧ (∀ e, err = Some e ↔
            network w ctx (http_log w)
              (first_address_request addr "is-repo-cloned" (IsRepoClonedRequest repo))
            = inr e)
    ∧ (cloned = true ↔
       ∃ resp,
         network w ctx (http_log w)
           (first_address_request addr "is-repo-cloned" (IsRepoClonedRequest repo))
         = inl resp ∧ StatusCode resp = 200%Z).
Proof.
  intros Htable.
  assert (Haddr : Addrs cl !! 0 = Some addr) by (rewrite Htable; reflexivity).
  rewrite (IsRepoCloned_answer _ _ _ _ _ Haddr). cbn [fst].
  destruct (network w ctx (http_log w) _) as [resp | e0].
  - eexists _, _. split; [reflexivity |]. split.
    + intros e. split; intros H; discriminate H.
    + case_decide as Hcode.
      * split; [intros _; eauto | reflexivity].
      * split; [intros H; discriminate H |].
        intros (resp' & Heq & Hcode'). congruence.
  - eexists _, _. split; [reflexivity |]. split.
    + intros e. split; intros H; congruence.
    + split; [intros H; discriminate H |].
      intros (resp' & Heq & _). discriminate Heq.
Qed.

Lemma IsRepoCloned_reads_the_status_only_witness :
  fst (IsRepoCloned example.cl example.background "github.com/gorilla/mux"
         (example.world (inl {| StatusCode := 500;
                                Body := Reader_of_string "internal error";
                                Trailer := ∅; Request_URL := "" |})))
  = Ok (false, None).
Proof.
  destruct (IsRepoCloned_reads_the_status_only example.cl example.background
              "github.com/gorilla/mux"
              (example.world (inl {| StatusCode := 500;
                                     Body := Reader_of_string "internal error";
                                     Trailer := ∅; Request_URL := "" |}))
              "gitserver-0:3178" ["gitserver-1:3178"; "gitserver-2:3178"] eq_refl)
    as (cloned & err & -> & Herr & Hcloned).
  destruct err as [e |].
  - destruct (Herr e) as [Habs _]. discriminate (Habs eq_refl).
  - destruct cloned; [| reflexivity].
    destruct Hcloned as [Habs _].
    destruct (Habs eq_refl) as (resp & Heq & Hcode).
    injection Heq as <-. discriminate Hcode.
Defined.

(** X5. [EnqueueRepoUpdate], [IsRepoCloneable], [RepoFromRemoteURL] and
    [ListGitolite] never look at the status code of the answer: once a
    response arrives, whatever its status, [EnqueueRepoUpdate] returns nil
    and the three others return what the JSON decoder makes of the body,
    value and error. *)
Theorem status_code_is_not_inspected
    (json_strings : Reader → list string * option error)
    (json_bool : Reader → bool * option error)
    (json_string : Reader → string * option error)
    (cl : Client) (ctx : Context) (w : World) (addr : string) (rest : list string)
    (arg : string) (resp : Response) :
  Addrs cl = addr :: rest →
  (network w ctx (http_log w)
     (first_address_request addr "enqueue-repo-update" (RepoUpdateRequest arg))
   = inl resp →
   fst (EnqueueRepoUpdate cl ctx arg w) = Ok None)
  ∧ (network w ctx (http_log w)
       (first_address_request addr "is-repo-cloneable" (IsRepoCloneableRequest arg))
     = inl resp →
     fst (IsRepoCloneable json_bool cl ctx arg w) = Ok (json_bool (Body resp)))
  ∧ (network w ctx (http_log w)
       (first_address_request addr "repo-from-remote-url"
          (RepoFromRemoteURLRequest arg))
     = inl resp →
     fst (RepoFromRemoteURL json_string cl ctx arg w) = Ok (json_string (Body resp)))
  ∧ (network w ctx (http_log w) (list_request "?gitolite" addr) = inl resp →
     fst (ListGitolite json_strings cl ctx w) = Ok (json_strings (Body resp))).
Proof.
  intros Htable.
  assert (Haddr : Addrs cl !! 0 = Some addr) by (rewrite Htable; reflexivity).
  repeat split; intros Hnet.
  - rewrite (EnqueueRepoUpdate_answer _ _ _ _ _ Haddr), Hnet. reflexivity.
  - rewrite (IsRepoCloneable_answer _ _ _ _ _ _ Haddr), Hnet. reflexivity.
  - rewrite (RepoFromRemoteURL_answer _ _ _ _ _ _ Haddr), Hnet. reflexivity.
  - rewrite (ListGitolite_answer _ _ _ _ _ Haddr), Hnet. reflexivity.
Qed.

Lemma status_code_is_not_inspected_witness :
  fst (EnqueueRepoUpdate example.cl example.background "github.com/gorilla/mux"
         (example.world (inl {| StatusCode := 500;
                                Body := Reader_of_string "internal error";
                                Trailer := ∅; Request_URL := "" |})))
  = Ok None.
Proof.
  apply (status_code_is_not_inspected
           (λ _, ([], None)) (λ _, (false, None)) (λ _, ("", None))
           example.cl example.background
           (example.world (inl {| StatusCode := 500;
                                  Body := Reader_of_string "internal error";
                                  Trailer := ∅; Request_URL := "" |}))
           "gitserver-0:3178" ["gitserver-1:3178"; "gitserver-2:3178"]
           "github.com/gorilla/mux"
           {| StatusCode := 500; Body := Reader_of_string "internal error";
              Trailer := ∅; Request_URL := "" |} eq_refl).
  reflexivity.
Defined.

(** ** From [Command] to the exec request *)



(** X7. [Command] leaves the [Repo] field nil. A command that is executed
    as [Command] returned it panics on the nil dereference of [c.Repo.URI],
    the first statement of [sendExec]: under every context, expired or not,
    no request is sent and the counter is not touched, and this holds for
    [DividedOutput], [Run], [Output], [CombinedOutput] and [StdoutReader]
    alike. *)
Theorem Command_without_Repo_panics
    (NormalizeRepo : string → string)
    (json_NotFoundPayload : Reader → protocol.NotFoundPayload * option error)
    (cl : Client) (name : string) (arg : list string) (c : Cmd)
    (ctx : Context) (w : World) :
  Command cl name arg = Ok c →
  sendExec NormalizeRepo json_NotFoundPayload c ctx w
  = (Panic "runtime error: invalid memory address or nil pointer dereference", w)
  ∧ DividedOutput NormalizeRepo json_NotFoundPayload c ctx w
    = (Panic "runtime error: invalid memory address or nil pointer dereference", w)
  ∧ Run NormalizeRepo json_NotFoundPayload c ctx w
    = (Panic "runtime error: invalid memory address or nil pointer dereference", w)
  ∧ Output NormalizeRepo json_NotFoundPayload c ctx w
    = (Panic "runtime error: invalid memory address or nil pointer dereference", w)
  ∧ CombinedOutput NormalizeRepo json_NotFoundPayload c ctx w
    = (Panic "runtime error: invalid memory address or nil pointer dereference", w)
  ∧ StdoutReader NormalizeRepo json_NotFoundPayload ctx c w
    = (Panic "runtime error: invalid memory address or nil pointer dereference", w).
Proof.
  unfold Command. case_decide; [discriminate |].
  intros [= <-].
  repeat split.
Qed.

Lemma Command_without_Repo_panics_witness :
  ∃ c,
    Command example.cl "git" ["status"] = Ok c
    ∧ Run example.normalize example.decode_NotFoundPayload c example.expired
        (example.world (inr (transport_error "connection refused")))
      = (Panic "runtime error: invalid memory address or nil pointer dereference",
         example.world (inr (transport_error "connection refused"))).
Proof.
  eexists. split; [reflexivity |].
  apply (Command_without_Repo_panics example.normalize
           example.decode_NotFoundPayload example.cl "git" ["status"] _
           example.expired _ eq_refl).
Defined.

(** ** The fan-out query: the requests it sends *)

Lemma concat_Permutation {A} (l k : list (list A)) :
  l ≡ₚ k → concat l ≡ₚ concat k.
Proof.
  induction 1 as [| x l k _ IH | x y l | l k m _ IH1 _ IH2]; simpl.
  - reflexivity.
  - rewrite IH. reflexivity.
  - rewrite !app_assoc. rewrite (Permutation_app_comm y x). reflexivity.
  - etransitivity; eassumption.
Qed.

Lemma fmap_lookup_seq {B} (f : string → B) (l : list string) :
  (λ i, f (default "" (l !! i))) <$> seq 0 (length l) = f <$> l.
Proof.
  apply list_eq. intros i. rewrite !list_lookup_fmap.
  destruct (l !! i) as [a |] eqn:Hi.
  - rewrite lookup_seq_lt by (eapply lookup_lt_Some; eassumption).
    simpl. rewrite Hi. reflexivity.
  - rewrite lookup_seq_ge by (apply lookup_ge_None; assumption). reflexivity.
Qed.

Lemma WithCancel_false ctx : WithCancel ctx false = ctx.
Proof. destruct ctx as [[e |] v]; reflexivity. Qed.

Section fanout_requests.
Variable json_strings : Reader → list string * option error.
Variable ctx : Context.
Variable urlSuffix : string.
Variable addrs : list string.
Variable w0 : World.

Lemma doListOne_result ctx' addr w :
  doListOne json_strings ctx' urlSuffix addr w
  = (Ok (list_result json_strings
           (network w ctx' (http_log w) (list_request urlSuffix addr))),
     logged w (list_request urlSuffix addr)).
Proof.
  unfold doListOne, bind, http_Do, ret, list_request, list_result.
  destruct (network w ctx' (http_log w) _); reflexivity.
Qed.

(** A property of the shared variables and the world that every step
    keeps holds when the schedule ends. *)
Lemma run_schedule_preserves (P : FanOut → World → Prop) :
  (∀ st w i st' w',
     fanout_inv addrs st → P st w →
     worker_step json_strings ctx urlSuffix st i w = (Ok st', w') → P st' w') →
  ∀ sched st w,
    fanout_inv addrs st → P st w →
    ∃ st' w',
      run_schedule json_strings ctx urlSuffix sched st w = (Ok st', w')
      ∧ fanout_inv addrs st' ∧ P st' w'.
Proof.
  intros Hstep sched. induction sched as [| i sched IH]; intros st w Hinv HP.
  - eexists _, _. split; [reflexivity | split; assumption].
  - destruct (worker_step_inv json_strings ctx urlSuffix addrs st i w Hinv)
      as (st1 & w1 & Hst1 & Hinv1).
    destruct (IH st1 w1 Hinv1 (Hstep _ _ _ _ _ Hinv HP Hst1))
      as (st' & w' & Hrun & Hinv' & HP').
    exists st', w'. split; [| split; assumption].
    cbn [run_schedule]. unfold bind. rewrite Hst1. exact Hrun.
Qed.

Lemma requests_inv_init :
  requests_inv urlSuffix addrs w0 (fanout_init addrs) w0.
Proof.
  exists []. split; [constructor |]. split.
  - intros i. split.
    + intros Hin. inversion Hin.
    + intros (wk & Hwk & Hns). simpl in Hwk.
      rewrite list_lookup_fmap in Hwk.
      destruct (addrs !! i) as [addr |]; [| discriminate].
      injection Hwk as <-. destruct (Hns addr). reflexivity.
  - simpl. rewrite app_nil_r. repeat split.
Qed.

Lemma worker_step_requests st w i st' w' :
  fanout_inv addrs st →
  requests_inv urlSuffix addrs w0 st w →
  worker_step json_strings ctx urlSuffix st i w = (Ok st', w') →
  requests_inv urlSuffix addrs w0 st' w'.
Proof.
  intros Hinv (sent & Hnd & Hsent & Hlog & Hnet & Hcnt) Hstep.
  unfold worker_step in Hstep.
  destruct (workers st !! i) as [[addr | l e |] |] eqn:Hi.
  - unfold bind in Hstep. rewrite doListOne_result in Hstep.
    injection Hstep as <- <-.
    assert (Hlt : i < length (workers st)) by (eapply lookup_lt_Some; exact Hi).
    assert (Hfresh : i ∉ sent).
    { intros Hin. apply Hsent in Hin. destruct Hin as (wk & Hwk & Hns).
      rewrite Hi in Hwk. injection Hwk as <-. destruct (Hns addr). reflexivity. }
    exists (sent ++ [i]). split; [| split; [| split; [| split]]].
    + apply NoDup_app. split; [exact Hnd |].
      split; [| apply NoDup_singleton].
      intros j Hj Hji. apply list_elem_of_singleton in Hji. congruence.
    + intros j. rewrite elem_of_app, list_elem_of_singleton. cbn [workers].
      destruct (decide (i = j)) as [<- | Hne].
      * rewrite list_lookup_insert_eq by exact Hlt. split.
        -- intros _. eexists. split; [reflexivity | discriminate].
        -- intros _. right. reflexivity.
      * rewrite list_lookup_insert_ne by exact Hne. rewrite Hsent.
        split; [intros [? | ?]; [assumption | congruence] | tauto].
    + cbn [logged http_log]. rewrite Hlog, fmap_app, app_assoc.
      cbn [fmap list_fmap]. unfold request_of.
      rewrite (inv_started _ _ Hinv _ _ Hi). reflexivity.
    + exact Hnet.
    + exact Hcnt.
  - injection Hstep as <- <-.
    assert (Hlt : i < length (workers st)) by (eapply lookup_lt_Some; exact Hi).
    exists sent. split; [exact Hnd |]. split; [| repeat split; assumption].
    intros j. rewrite Hsent. cbn [commit workers].
    destruct (decide (i = j)) as [<- | Hne].
    + rewrite list_lookup_insert_eq by exact Hlt. rewrite Hi. split.
      * intros _. eexists. split; [reflexivity | discriminate].
      * intros _. eexists. split; [reflexivity | discriminate].
    + rewrite list_lookup_insert_ne by exact Hne. tauto.
  - injection Hstep as <- <-. exists sent. repeat split; try assumption; apply Hsent.
  - injection Hstep as <- <-. exists sent. repeat split; try assumption; apply Hsent.
Qed.

(** The requests, read off the invariant. *)
Lemma requests_inv_sent st w :
  fanout_inv addrs st →
  requests_inv urlSuffix addrs w0 st w →
  ∃ sent,
    http_log w = http_log w0 ++ sent
    ∧ sent ⊆+ (list_request urlSuffix <$> addrs)
    ∧ (all_finished st = true → sent ≡ₚ list_request urlSuffix <$> addrs).
Proof.
  intros Hinv (sent & Hnd & Hsent & Hlog & _ & _).
  exists (request_of urlSuffix addrs <$> sent).
  assert (Hreq : request_of urlSuffix addrs <$> seq 0 (length addrs)
                 = list_request urlSuffix <$> addrs).
  { apply (fmap_lookup_seq (list_request urlSuffix)). }
  assert (Hin : ∀ i, i ∈ sent → i ∈ seq 0 (length addrs)).
  { intros i Hi. apply Hsent in Hi. destruct Hi as (wk & Hwk & _).
    apply lookup_lt_Some in Hwk.
    rewrite (inv_length _ _ Hinv) in Hwk.
    apply elem_of_seq. lia. }
  split; [exact Hlog |]. split.
  - rewrite <- Hreq. apply fmap_submseteq.
    apply NoDup_submseteq; assumption.
  - intros Hall. rewrite <- Hreq. apply fmap_Permutation.
    apply NoDup_Permutation; [exact Hnd | apply NoDup_seq |].
    intros i. split; [apply Hin |].
    intros Hi. apply elem_of_seq in Hi. apply Hsent.
    destruct (lookup_lt_is_Some_2 (workers st) i) as [wk Hwk].
    { rewrite (inv_length _ _ Hinv). lia. }
    exists wk. split; [exact Hwk |].
    unfold all_finished in Hall.
    apply Is_true_true, forallb_True in Hall.
    rewrite Forall_lookup in Hall. specialize (Hall i wk Hwk).
    destruct wk; simpl in Hall; try contradiction. discriminate.
Qed.
End fanout_requests.

(** X8. [doListMulti] never panics and asks every gitserver at most
    once: under every schedule, the requests it has sent when the schedule
    ends are GET requests of [/list] with the given suffix to addresses of
    the list, no address more often than it occurs there, and nothing else
    of the world has changed; when it returns (every goroutine has
    finished) each address has received exactly one request. *)
Theorem doListMulti_one_request_per_address
    (json_strings : Reader → list string * option error)
    (sched : list nat) (ctx : Context) (urlSuffix : string)
    (addrs : list string) (w : World) :
  ∃ res w' sent,
    doListMulti json_strings sched ctx urlSuffix addrs w = (Ok res, w')
    ∧ network w' = network w
    ∧ deadlineExceededCounter w' = deadlineExceededCounter w
    ∧ http_log w' = http_log w ++ sent
    ∧ sent ⊆+ (list_request urlSuffix <$> addrs)
    ∧ (is_Some res → sent ≡ₚ list_request urlSuffix <$> addrs).
Proof.
  unfold doListMulti. case_decide as Hlen.
  - destruct addrs as [| addr [| ? ?]]; try discriminate Hlen.
    unfold bind, lift. change (go_index [addr] 0) with (Ok addr).
    eexists _, _, [list_request urlSuffix addr].
    rewrite doListOne_result.
    repeat split; reflexivity.
  - unfold fanout, bind.
    destruct (run_schedule_preserves json_strings ctx urlSuffix addrs
                (requests_inv urlSuffix addrs w)
                (λ st w1 i st' w', worker_step_requests json_strings ctx
                                     urlSuffix addrs w st w1 i st' w')
                sched (fanout_init addrs) w
                (fanout_inv_init _)
                (requests_inv_init urlSuffix addrs w))
      as (st & w' & Hrun & Hinv & Hreq).
    rewrite Hrun. cbn [ret].
    destruct (requests_inv_sent urlSuffix addrs w st w' Hinv Hreq)
      as (sent & Hlog & Hsub & Hall).
    destruct Hreq as (_ & _ & _ & _ & Hnet & Hcnt).
    eexists _, w', sent.
    split; [reflexivity |].
    repeat split; try assumption.
    intros Hres. apply Hall.
    destruct (all_finished st); [reflexivity |].
    destruct Hres as [? Hres]. discriminate Hres.
Qed.

(** X9. With no address at all, [ListCloning] returns the empty list and
    a nil error under every schedule and sends nothing: no goroutine is
    started. *)
Theorem ListCloning_empty_table
    (json_strings : Reader → list string * option error)
    (sched : list nat) (cl : Client) (ctx : Context) (w : World) :
  Addrs cl = [] →
  ListCloning json_strings sched cl ctx w = (Ok (Some ([], None)), w).
Proof.
  intros Htable. unfold ListCloning, doListMulti. rewrite Htable.
  rewrite decide_False by discriminate.
  unfold fanout, bind.
  assert (Hrun : ∀ s, run_schedule json_strings ctx "?cloning" s (fanout_init []) w
                      = (Ok (fanout_init []), w)).
  { intros s. induction s as [| i s IH]; [reflexivity |].
    cbn [run_schedule]. unfold bind, worker_step.
    cbn [fanout_init fmap list_fmap workers]. rewrite lookup_nil.
    cbn [ret]. exact IH. }
  rewrite Hrun. reflexivity.
Qed.

Lemma ListCloning_empty_table_witness :
  ListCloning fanout_example.decode_strings [0; 1; 0]
    {| Addrs := []; NoCreds := false |} example.background fanout_example.w
  = (Ok (Some ([], None)), fanout_example.w).
Proof.
  apply (ListCloning_empty_table fanout_example.decode_strings [0; 1; 0]
           {| Addrs := []; NoCreds := false |} example.background
           fanout_example.w eq_refl).
Defined.

(** X10. With exactly one address [doListMulti] takes no part in the
    answer: whatever the schedule, it sends the one request under the
    caller's own context and returns what [doListOne] returns, the list in
    the order the server gave it (it is not sorted) and the error as it is,
    [context.Canceled] included. *)
Theorem doListMulti_single_address
    (json_strings : Reader → list string * option error)
    (sched : list nat) (ctx : Context) (urlSuffix : string)
    (addrs : list string) (addr : string) (w : World) :
  addrs = [addr] →
  doListMulti json_strings sched ctx urlSuffix addrs w
  = (Ok (Some (list_result json_strings
                 (network w ctx (http_log w) (list_request urlSuffix addr)))),
     logged w (list_request urlSuffix addr)).
Proof.
  intros ->. unfold doListMulti. rewrite decide_True by reflexivity.
  unfold bind, lift. change (go_index [addr] 0) with (Ok addr). cbv beta iota.
  rewrite doListOne_result. reflexivity.
Qed.

Lemma doListMulti_single_address_witness :
  fst (doListMulti fanout_example.decode_strings [] example.background "?cloning"
         ["gitserver-0:3178"] fanout_example.w)
  = Ok (Some (["b"; "a"], None))
  ∧ fst (doListMulti fanout_example.decode_strings [] example.expired "?cloning"
           ["gitserver-0:3178"] fanout_example.w)
    = Ok (Some ([], Some context_DeadlineExceeded)).
Proof.
  split.
  - rewrite (doListMulti_single_address fanout_example.decode_strings []
               example.background "?cloning" ["gitserver-0:3178"]
               "gitserver-0:3178" fanout_example.w eq_refl).
    vm_compute. reflexivity.
  - rewrite (doListMulti_single_address fanout_example.decode_strings []
               example.expired "?cloning" ["gitserver-0:3178"]
               "gitserver-0:3178" fanout_example.w eq_refl).
    vm_compute. reflexivity.
Defined.

(** ** The fan-out query when no shard fails *)

Section fanout_clean.
Variable json_strings : Reader → list string * option error.
Variable ctx : Context.
Variable urlSuffix : string.
Variable addrs : list string.
Variable w0 : World.
Variable net : string → Response + error.
Hypothesis Hnet :
  ∀ log addr, addr ∈ addrs →
    network w0 ctx log (list_request urlSuffix addr) = net addr.
Hypothesis Hok :
  ∀ addr, addr ∈ addrs → snd (list_result json_strings (net addr)) = None.

Lemma clean_inv_init : clean_inv json_strings net addrs (fanout_init addrs).
Proof.
  repeat split.
  - intros i l e Hi. simpl in Hi. rewrite list_lookup_fmap in Hi.
    destruct (addrs !! i); discriminate.
  - constructor.
Qed.

Lemma worker_step_clean st w i st' w' :
  fanout_inv addrs st →
  requests_inv urlSuffix addrs w0 st w ∧ clean_inv json_strings net addrs st →
  worker_step json_strings ctx urlSuffix st i w = (Ok st', w') →
  requests_inv urlSuffix addrs w0 st' w' ∧ clean_inv json_strings net addrs st'.
Proof.
  intros Hinv [Hreq Hclean] Hstep.
  split; [eapply worker_step_requests; eassumption |].
  destruct Hreq as (_ & _ & _ & _ & Hnetw & _).
  destruct Hclean as (Hcan & Herr & Hfe & Hco).
  unfold worker_step in Hstep.
  destruct (workers st !! i) as [[addr | l e |] |] eqn:Hi.
  - unfold bind in Hstep. rewrite doListOne_result in Hstep.
    injection Hstep as <- _.
    assert (Hlt : i < length (workers st)) by (eapply lookup_lt_Some; exact Hi).
    pose proof (inv_started _ _ Hinv _ _ Hi) as Haddr.
    repeat split; try assumption.
    intros j l e. cbn [workers].
    destruct (decide (i = j)) as [<- | Hne].
    + rewrite list_lookup_insert_eq by exact Hlt. intros [= <- <-].
      exists addr. split; [exact Haddr |].
      rewrite Hcan, WithCancel_false, Hnetw, Hnet
        by (eapply list_elem_of_lookup_2; exact Haddr).
      destruct (list_result json_strings (net addr)); reflexivity.
    + rewrite list_lookup_insert_ne by exact Hne. apply Hfe.
  - injection Hstep as <- _.
    assert (Hlt : i < length (workers st)) by (eapply lookup_lt_Some; exact Hi).
    destruct (Hfe _ _ _ Hi) as (addr & Haddr & Hres).
    assert (He : e = None).
    { pose proof (Hok addr (list_elem_of_lookup_2 _ _ _ Haddr)) as H.
      rewrite <- Hres in H. exact H. }
    subst e. unfold clean_inv, commit. cbn [first_hard_failure].
    cbn [workers fo_err cancelled commits].
    repeat split; try assumption.
    + intros j l' e'.
      destruct (decide (i = j)) as [<- | Hne].
      * rewrite list_lookup_insert_eq by exact Hlt. discriminate.
      * rewrite list_lookup_insert_ne by exact Hne. apply Hfe.
    + apply Forall_app. split; [exact Hco |].
      constructor; [| constructor]. exists addr. split; assumption.
  - injection Hstep as <- _. repeat split; assumption.
  - injection Hstep as <- _. repeat split; assumption.
Qed.

(** The merged list once every goroutine has finished. *)
Lemma clean_inv_finished st :
  fanout_inv addrs st →
  clean_inv json_strings net addrs st →
  all_finished st = true →
  fo_err st = None
  ∧ sort_Strings (combinedList st)
    = sort_Strings
        (concat ((λ addr, fst (list_result json_strings (net addr))) <$> addrs)).
Proof.
  intros Hinv (_ & Herr & _ & Hco) Hall.
  split; [exact Herr |].
  apply sort_Strings_unique; [apply (Sorted_merge_sort String.le) |].
  unfold sort_Strings. rewrite (merge_sort_Permutation String.le).
  rewrite (inv_list _ _ Hinv).
  assert (Hlists :
    (λ c : nat * (list string * option error), fst (snd c)) <$> commits st
    = (λ i, fst (list_result json_strings (net (default "" (addrs !! i)))))
        <$> (fst <$> commits st)).
  { induction Hco as [| c cs (addr & Haddr & Hres) _ IH]; [reflexivity |].
    cbn [fmap list_fmap]. rewrite Haddr. cbn [default from_option id].
    rewrite <- Hres. f_equal. exact IH. }
  rewrite Hlists.
  rewrite <- (fmap_lookup_seq
                (λ addr, fst (list_result json_strings (net addr))) addrs).
  apply concat_Permutation, fmap_Permutation.
  eapply fanout_inv_finished; eassumption.
Qed.
End fanout_clean.

(** X11. When the answer of each gitserver does not depend on the
    requests made before and no answer fails, the result of [doListMulti]
    over no or several addresses does not depend on the schedule: under
    every schedule that lets the goroutines finish, and the round-robin
    schedule does, it returns the sorted merge of the lists of all the
    addresses, with a nil error. *)
Theorem doListMulti_schedule_independent
    (json_strings : Reader → list string * option error)
    (ctx : Context) (urlSuffix : string) (addrs : list string) (w : World)
    (net : string → Response + error) :
  length addrs ≠ 1 →
  (∀ log addr, addr ∈ addrs →
     network w ctx log (list_request urlSuffix addr) = net addr) →
  (∀ addr, addr ∈ addrs → snd (list_result json_strings (net addr)) = None) →
  (∃ res w',
     doListMulti json_strings (round_robin (length addrs)) ctx urlSuffix addrs w
     = (Ok (Some res), w'))
  ∧ ∀ sched res w',
      doListMulti json_strings sched ctx urlSuffix addrs w = (Ok (Some res), w') →
      res = (sort_Strings
               (concat ((λ addr, fst (list_result json_strings (net addr)))
                          <$> addrs)),
             None).
Proof.
  intros Hlen Hnet Hok. split.
  - destruct (round_robin_finishes json_strings ctx urlSuffix addrs w)
      as (st & w' & Hfan).
    unfold doListMulti. rewrite decide_False by exact Hlen.
    unfold bind. rewrite Hfan. cbn. eauto.
  - intros sched res w' Hrun.
    unfold doListMulti in Hrun. rewrite decide_False in Hrun by exact Hlen.
    unfold fanout, bind in Hrun.
    destruct (run_schedule_preserves json_strings ctx urlSuffix addrs
                (λ st w1, requests_inv urlSuffix addrs w st w1
                          ∧ clean_inv json_strings net addrs st)
                (worker_step_clean json_strings ctx urlSuffix addrs w net Hnet Hok)
                sched (fanout_init addrs) w
                (fanout_inv_init _)
                (conj (requests_inv_init urlSuffix addrs w)
                      (clean_inv_init json_strings addrs net)))
      as (st & w1 & Hsched & Hinv & _ & Hclean).
    rewrite Hsched in Hrun. cbn [ret] in Hrun.
    destruct (all_finished st) eqn:Hfin; cbn in Hrun; [| discriminate].
    injection Hrun as <- _.
    destruct (clean_inv_finished json_strings addrs net
                st Hinv Hclean Hfin) as [-> ->].
    reflexivity.
Qed.

Lemma doListMulti_schedule_independent_witness :
  fst (doListMulti fanout_example.decode_strings [1; 0; 1; 0] example.background
         "?cloning" ["gitserver-0:3178"; "gitserver-1:3178"] fanout_example.w)
  = Ok (Some (["a"; "b"; "c"], None)).
Proof.
  destruct (doListMulti_schedule_independent fanout_example.decode_strings
              example.background "?cloning"
              ["gitserver-0:3178"; "gitserver-1:3178"] fanout_example.w
              (λ addr, fanout_example.net example.background []
                         (list_request "?cloning" addr)))
    as [_ Hall].
  - simpl. lia.
  - intros log addr _. reflexivity.
  - intros addr Hin.
    apply elem_of_cons in Hin. destruct Hin as [-> | Hin]; [reflexivity |].
    apply list_elem_of_singleton in Hin. subst addr. reflexivity.
  - destruct (doListMulti fanout_example.decode_strings [1; 0; 1; 0]
                example.background "?cloning"
                ["gitserver-0:3178"; "gitserver-1:3178"] fanout_example.w)
      as [res w'] eqn:Hrun.
    assert (Hres : res = Ok (Some (["a"; "b"; "c"], None))).
    { vm_compute in Hrun. injection Hrun as <- _. reflexivity. }
    subst res. rewrite (Hall _ _ _ Hrun). vm_compute. reflexivity.
Defined.

(** ** The stream read to its end, and the buffered output *)

Lemma ReadAll_split (n : nat) (data : list Z) (err : option error) (r : Reader) :
  ReadAll ((data, err) :: r)
  = (take n data ++ fst (ReadAll ((drop n data, err) :: r)),
     snd (ReadAll ((drop n data, err) :: r))).
Proof.
  cbn [ReadAll]. destruct err as [e |].
  - destruct e; cbn [fst snd]; rewrite take_drop; reflexivity.
  - destruct (ReadAll r) as [rest e]. cbn [fst snd].
    rewrite app_assoc, take_drop. reflexivity.
Qed.

Lemma read_to_end_result
    (strconv_Quote : string → string) (tr : Header) (cap : nat) :
  0 < cap →
  ∀ fuel r,
    separate_EOF r → reads_bound r ≤ fuel →
    read_to_end strconv_Quote cap fuel {| rc := r; trailer := tr |}
    = (fst (ReadAll r),
       Some match snd (ReadAll r) with
            | Some e => e
            | None => end_of_stream_error strconv_Quote tr
            end).
Proof.
  intros Hcap. induction fuel as [| fuel IH]; intros r Hsep Hfuel.
  { destruct r as [| [? ?] ?]; simpl in Hfuel; lia. }
  cbn [read_to_end].
  destruct r as [| [data err] r'].
  - rewrite (cmdReader_Read_EOF strconv_Quote {| rc := []; trailer := tr |}
               cap [] [] eq_refl). cbv zeta.
    unfold end_of_stream_error. cbn [trailer ReadAll fst snd].
    repeat case_decide; reflexivity.
  - apply Forall_cons in Hsep. destruct Hsep as [Hev Hsep]. cbn [fst snd] in Hev.
    cbn [reads_bound] in Hfuel.
    destruct (decide (length data ≤ cap)) as [Hfit | Hbig].
    + assert (Hread : Reader_Read (rc {| rc := (data, err) :: r'; trailer := tr |}) cap
                      = ((data, err), r')).
      { cbn [rc Reader_Read]. rewrite decide_True by exact Hfit. reflexivity. }
      destruct err as [e |].
      * assert (e = io_EOF ∨ e ≠ io_EOF) as [-> | Hne]
          by (destruct e; (left; reflexivity) || (right; discriminate)).
        -- rewrite (cmdReader_Read_EOF strconv_Quote _ cap data r' Hread). cbv zeta.
           unfold end_of_stream_error. cbn [trailer ReadAll fst snd].
           rewrite (Hev eq_refl).
           repeat case_decide; reflexivity.
        -- rewrite (cmdReader_Read_passes_through strconv_Quote _ cap data (Some e) r' Hread)
             by congruence.
           cbn [rr_err trailer]. rewrite delivered_all.
           destruct e; try reflexivity. congruence.
      * rewrite (cmdReader_Read_passes_through strconv_Quote _ cap data None r' Hread)
          by discriminate.
        cbn [rr_err trailer]. rewrite delivered_all.
        rewrite (IH r' Hsep) by lia.
        cbn [ReadAll]. destruct (ReadAll r') as [rest e]. reflexivity.
    + assert (Hread : Reader_Read (rc {| rc := (data, err) :: r'; trailer := tr |}) cap
                      = ((take cap data, None), (drop cap data, err) :: r')).
      { cbn [rc Reader_Read]. rewrite decide_False by exact Hbig. reflexivity. }
      rewrite (cmdReader_Read_passes_through strconv_Quote _ cap _ None _ Hread)
        by discriminate.
      cbn [rr_err trailer]. rewrite delivered_all.
      rewrite (IH ((drop cap data, err) :: r')).
      * rewrite (ReadAll_split cap data err r'). reflexivity.
      * constructor; [| exact Hsep]. cbn [fst snd]. intros Heof.
        specialize (Hev Heof). subst data. simpl in Hbig. lia.
      * cbn [reads_bound]. rewrite length_drop. lia.
Qed.

(** X12. A caller that reads the stream until a read returns an error,
    with a buffer of any positive size, receives exactly the bytes that
    [ioutil.ReadAll] collects from the same body, when the body reports its
    end of stream alone. The error that ends the loop is the read error of
    the body if it has one; otherwise it is the error of the trailers
    (error trailer first, then an exit status other than [0]), and [io.EOF]
    only when the trailers report neither. *)
Theorem stream_read_to_end
    (strconv_Quote : string → string) (tr : Header) (cap fuel : nat) (r : Reader) :
  0 < cap →
  separate_EOF r → reads_bound r ≤ fuel →
  read_to_end strconv_Quote cap fuel {| rc := r; trailer := tr |}
  = (fst (ReadAll r),
     Some match snd (ReadAll r) with
          | Some e => e
          | None => end_of_stream_error strconv_Quote tr
          end).
Proof.
  intros Hcap Hsep Hfuel. apply read_to_end_result; assumption.
Qed.

Lemma stream_read_to_end_witness :
  read_to_end example.quote 2 10
    {| rc := [(bytes_of_string "abc", None);
              (bytes_of_string "de", Some (transport_error "connection reset"))];
       trailer := {[ "X-Exec-Exit-Status" := ["1"] ]} |}
  = (bytes_of_string "abcde", Some (transport_error "connection reset")).
Proof.
  rewrite (stream_read_to_end example.quote
             {[ "X-Exec-Exit-Status" := ["1"] ]} 2 10
             [(bytes_of_string "abc", None);
              (bytes_of_string "de", Some (transport_error "connection reset"))]).
  - reflexivity.
  - lia.
  - repeat constructor; discriminate.
  - simpl. lia.
Defined.

(** X13. The two ways of running a command agree on a success: for a 200
    answer with exit status [0] and no error trailer, whose body reports
    its end of stream alone and is read without error, [Output] returns the
    standard output with a nil error, and the stream of [StdoutReader],
    read to its end with a buffer of any positive size, delivers the same
    bytes and ends with [io.EOF]; each sends the same single request. *)
Theorem stream_agrees_with_Output
    (NormalizeRepo : string → string)
    (json_NotFoundPayload : Reader → protocol.NotFoundPayload * option error)
    (strconv_Quote : string → string)
    (c : Cmd) (ctx : Context) (w : World) (req : Request) (resp : Response)
    (cap fuel : nat) (stdout : list Z) :
  exec_answered NormalizeRepo c ctx w req (inl resp) →
  StatusCode resp = 200%Z →
  separate_EOF (Body resp) →
  ReadAll (Body resp) = (stdout, None) →
  Header_Get (Trailer resp) "X-Exec-Exit-Status" = "0" →
  Header_Get (Trailer resp) "X-Exec-Error" = "" →
  0 < cap → reads_bound (Body resp) ≤ fuel →
  Output NormalizeRepo json_NotFoundPayload c ctx w
  = (Ok (set_ExitStatus c 0, (stdout, None)), logged w req)
  ∧ ∃ rd,
      StdoutReader NormalizeRepo json_NotFoundPayload ctx c w
      = (Ok (inl rd), logged w req)
      ∧ read_to_end strconv_Quote cap fuel rd = (stdout, Some io_EOF).
Proof.
  intros Hans Hcode Hsep Hread Hstatus Herror Hcap Hfuel. split.
  - pose proof (DividedOutput_200 NormalizeRepo json_NotFoundPayload
                  c ctx w req resp Hans Hcode) as Heq.
    rewrite Hread, Hstatus, Herror in Heq.
    apply Run_of_DividedOutput in Heq. apply Heq.
  - eexists. split.
    + unfold StdoutReader, bind.
      rewrite (sendExec_200 _ _ _ _ _ _ _ Hans Hcode). reflexivity.
    + rewrite (read_to_end_result strconv_Quote (Trailer resp) cap Hcap fuel
                 (Body resp) Hsep Hfuel).
      rewrite Hread. unfold end_of_stream_error.
      rewrite Hstatus, Herror. reflexivity.
Qed.

Lemma stream_agrees_with_Output_witness :
  ∃ rd,
    StdoutReader example.normalize example.decode_NotFoundPayload
      example.background example.cmd
      (example.world (inl (example.exec_answer (Reader_of_string "commit 1") "0" "" "")))
    = (Ok (inl rd),
       logged (example.world
                 (inl (example.exec_answer (Reader_of_string "commit 1") "0" "" "")))
              (POST "http://gitserver-0:3178/exec"
                 (ExecRequest "github.com/gorilla/mux" "" ["log"])))
    ∧ read_to_end example.quote 3 20 rd = (bytes_of_string "commit 1", Some io_EOF).
Proof.
  apply (stream_agrees_with_Output example.normalize example.decode_NotFoundPayload
           example.quote example.cmd example.background
           (example.world
              (inl (example.exec_answer (Reader_of_string "commit 1") "0" "" "")))
           (POST "http://gitserver-0:3178/exec"
              (ExecRequest "github.com/gorilla/mux" "" ["log"]))
           (example.exec_answer (Reader_of_string "commit 1") "0" "" "")
           3 20 (bytes_of_string "commit 1")).
  - apply example_exec_answered.
  - reflexivity.
  - repeat constructor; discriminate.
  - reflexivity.
  - reflexivity.
  - reflexivity.
  - lia.
  - simpl. lia.
Defined.

(** ** The methods of the mirror-info resolver *)

Section methods.
Import graphqlbackend.
Variable json_RepoInfoResponse : Reader → option protocol.RepoInfoResponse * option error.
Variable DefaultClient : Client.
Variable CheckCurrentUserIsSiteAdmin : Context → option error.
Variable Format_RFC3339 : Z → string.

(** A method call, in terms of what [gitserverRepoInfo] returns. *)
Lemma call_eq m ctx h :
  call json_RepoInfoResponse DefaultClient CheckCurrentUserIsSiteAdmin
    Format_RFC3339 m ctx h
  = match m, CheckCurrentUserIsSiteAdmin ctx with
    | MRemoteURL, Some e => (Ok (VString "", Some e), h)
    | _, _ =>
        match gitserverRepoInfo json_RepoInfoResponse DefaultClient ctx h with
        | (Panic msg, h1) => (Panic msg, h1)
        | (Ok (_, Some err), h1) => (Ok (zero_value m, Some err), h1)
        | (Ok (None, None), h1) =>
            (Panic "runtime error: invalid memory address or nil pointer dereference",
             h1)
        | (Ok (Some info, None), h1) => (Ok (field_of Format_RFC3339 m info, None), h1)
        end
    end.
Proof.
  unfold call, RemoteURL, Cloned, CloneInProgress, UpdatedAt, bind, lift, ret.
  destruct m; try destruct (CheckCurrentUserIsSiteAdmin ctx); try reflexivity;
    destruct (gitserverRepoInfo _ _ _ _) as [[[resp [err |]] | msg] h1];
    try reflexivity;
    destruct resp as [info |]; try reflexivity;
    cbn; try destruct (protocol.LastFetched info); reflexivity.
Qed.

(** A call of a caller who gets past the access check, on a resolver whose
    [sync.Once] is done. *)
Lemma call_memoized m ctx r w :
  repoInfoOnce r = true →
  allowed CheckCurrentUserIsSiteAdmin m ctx →
  call json_RepoInfoResponse DefaultClient CheckCurrentUserIsSiteAdmin
    Format_RFC3339 m ctx (r, w)
  = (match repoInfoErr r, repoInfoResponse r with
     | Some err, _ => Ok (zero_value m, Some err)
     | None, None =>
         Panic "runtime error: invalid memory address or nil pointer dereference"
     | None, Some info => Ok (field_of Format_RFC3339 m info, None)
     end, (r, w)).
Proof.
  intros Hdone Hallowed. rewrite call_eq.
  rewrite gitserverRepoInfo_done by exact Hdone.
  assert (Hcheck : m = MRemoteURL → CheckCurrentUserIsSiteAdmin ctx = None)
    by exact Hallowed.
  destruct m; try rewrite Hcheck by reflexivity;
    destruct (repoInfoErr r), (repoInfoResponse r); reflexivity.
Qed.

(** The first call of a caller who gets past the access check, on a new
    resolver. *)
Lemma call_first m ctx rr w :
  allowed CheckCurrentUserIsSiteAdmin m ctx →
  call json_RepoInfoResponse DefaultClient CheckCurrentUserIsSiteAdmin
    Format_RFC3339 m ctx (MirrorInfo rr, w)
  = (let res := RepoInfo json_RepoInfoResponse DefaultClient ctx
                  (sourcegraph.URI (repo rr)) w in
     (match fst res with
      | Panic msg => Panic msg
      | Ok (_, Some err) => Ok (zero_value m, Some err)
      | Ok (None, None) =>
          Panic "runtime error: invalid memory address or nil pointer dereference"
      | Ok (Some info, None) => Ok (field_of Format_RFC3339 m info, None)
      end,
      (memoized (MirrorInfo rr) (fst res), snd res))).
Proof.
  intros Hallowed. rewrite call_eq.
  rewrite gitserverRepoInfo_first by reflexivity. cbv zeta.
  cbn [MirrorInfo repository].
  assert (Hcheck : m = MRemoteURL → CheckCurrentUserIsSiteAdmin ctx = None)
    by exact Hallowed.
  destruct m; try rewrite Hcheck by reflexivity;
    destruct (RepoInfo _ _ _ _ _) as [[[[info |] [err |]] | msg] w'];
    reflexivity.
Qed.

(** What [gitserverRepoInfo] returns is what the resolver holds. *)
Lemma gitserverRepoInfo_holds ctx h p h1 :
  gitserverRepoInfo json_RepoInfoResponse DefaultClient ctx h = (Ok p, h1) →
  p = (repoInfoResponse (fst h1), repoInfoErr (fst h1)).
Proof.
  destruct h as [r w]. destruct (repoInfoOnce r) eqn:Hdone.
  - rewrite gitserverRepoInfo_done by exact Hdone. intros [= <- <-]. reflexivity.
  - rewrite gitserverRepoInfo_first by exact Hdone. cbv zeta.
    destruct (RepoInfo _ _ _ _ _) as [[[resp err] | msg] w']; cbn [fst snd memoized];
      intros [= <- <-].
    reflexivity.
Qed.
End methods.

(** X14. [RemoteURL] gives the URL to site admins only, whatever the
    resolver already holds: when the access check fails the call returns
    the empty string and the error of the check and touches neither the
    resolver nor the world, even if the response is already memoized; and a
    call that returns a non-empty URL has passed the check, returns a nil
    error, and the URL is the one of the memoized response. *)
Theorem RemoteURL_is_for_site_admins
    (json_RepoInfoResponse : Reader → option protocol.RepoInfoResponse * option error)
    (DefaultClient : Client)
    (CheckCurrentUserIsSiteAdmin : Context → option error)
    (ctx : Context) (h : graphqlbackend.Heap) :
  (∀ err,
     CheckCurrentUserIsSiteAdmin ctx = Some err →
     graphqlbackend.RemoteURL json_RepoInfoResponse DefaultClient
       CheckCurrentUserIsSiteAdmin ctx h
     = (Ok ("", Some err), h))
  ∧ (∀ url e h',
       graphqlbackend.RemoteURL json_RepoInfoResponse DefaultClient
         CheckCurrentUserIsSiteAdmin ctx h
       = (Ok (url, e), h') →
       url ≠ "" →
       CheckCurrentUserIsSiteAdmin ctx = None
       ∧ e = None
       ∧ ∃ info,
           graphqlbackend.repoInfoResponse (fst h') = Some info
           ∧ url = protocol.URL info).
Proof.
  split.
  - intros err Hcheck. unfold graphqlbackend.RemoteURL. rewrite Hcheck. reflexivity.
  - intros url e h' Hcall Hurl. unfold graphqlbackend.RemoteURL in Hcall.
    destruct (CheckCurrentUserIsSiteAdmin ctx) as [err |].
    { injection Hcall as <- _ _. contradiction. }
    unfold bind, lift, ret in Hcall.
    destruct (graphqlbackend.gitserverRepoInfo _ _ _ _) as [[p | msg] h1] eqn:Hinfo;
      [| discriminate].
    apply gitserverRepoInfo_holds in Hinfo. subst p. cbn [fst snd] in Hcall.
    destruct (graphqlbackend.repoInfoErr (fst h1)) as [err |].
    { injection Hcall as <- _ _. contradiction. }
    destruct (graphqlbackend.repoInfoResponse (fst h1)) as [info |] eqn:Hresp;
      cbn in Hcall; [| discriminate].
    injection Hcall as <- <- <-.
    split; [reflexivity |]. split; [reflexivity |].
    exists info. split; [exact Hresp | reflexivity].
Qed.

(** X15. A failed read is memoized like a successful one and is never
    tried again: when the [RepoInfo] read of the first call fails with an
    error, that call and every later call on the same resolver return this
    error with the zero value, in whatever state the world is by then (the
    gitserver may have recovered), and the later calls send nothing. *)
Theorem failed_read_is_not_retried
    (json_RepoInfoResponse : Reader → option protocol.RepoInfoResponse * option error)
    (DefaultClient : Client)
    (CheckCurrentUserIsSiteAdmin : Context → option error)
    (Format_RFC3339 : Z → string)
    (rr : graphqlbackend.repositoryResolver) (w : World)
    (m : graphqlbackend.Method) (ctx : Context)
    (resp : option protocol.RepoInfoResponse) (err : error) :
  fst (RepoInfo json_RepoInfoResponse DefaultClient ctx
         (sourcegraph.URI (graphqlbackend.repo rr)) w)
  = Ok (resp, Some err) →
  allowed CheckCurrentUserIsSiteAdmin m ctx →
  ∃ r1 w1,
    graphqlbackend.call json_RepoInfoResponse DefaultClient
      CheckCurrentUserIsSiteAdmin Format_RFC3339 m ctx
      (graphqlbackend.MirrorInfo rr, w)
    = (Ok (zero_value m, Some err), (r1, w1))
    ∧ ∀ m2 ctx2 w2,
        allowed CheckCurrentUserIsSiteAdmin m2 ctx2 →
        graphqlbackend.call json_RepoInfoResponse DefaultClient
          CheckCurrentUserIsSiteAdmin Format_RFC3339 m2 ctx2 (r1, w2)
        = (Ok (zero_value m2, Some err), (r1, w2)).
Proof.
  intros Hread Hallowed.
  rewrite (call_first _ _ _ _ _ _ _ _ Hallowed). cbv zeta. rewrite Hread.
  eexists _, _. split; [destruct resp; reflexivity |].
  intros m2 ctx2 w2 Hallowed2.
  rewrite (call_memoized _ _ _ _ m2 ctx2 _ w2) by (reflexivity || exact Hallowed2). reflexivity.
Qed.

Lemma failed_read_is_not_retried_witness :
  ∃ r1 w1,
    graphqlbackend.call memo_example.decode example.cl (λ _, None)
      memo_example.format graphqlbackend.MCloned example.background
      (graphqlbackend.MirrorInfo memo_example.rr,
       example.world (inr (transport_error "connection refused")))
    = (Ok (graphqlbackend.VBool false, Some (transport_error "connection refused")),
       (r1, w1))
    ∧ graphqlbackend.call memo_example.decode example.cl (λ _, None)
        memo_example.format graphqlbackend.MRemoteURL example.background
        (r1, memo_example.w)
      = (Ok (graphqlbackend.VString "", Some (transport_error "connection refused")),
         (r1, memo_example.w)).
Proof.
  destruct (failed_read_is_not_retried memo_example.decode example.cl (λ _, None)
              memo_example.format memo_example.rr
              (example.world (inr (transport_error "connection refused")))
              graphqlbackend.MCloned example.background None
              (transport_error "connection refused") eq_refl (λ _, eq_refl))
    as (r1 & w1 & Hfirst & Hlater).
  exists r1, w1. split; [exact Hfirst |].
  apply (Hlater graphqlbackend.MRemoteURL example.background memo_example.w
           (λ _, eq_refl)).
Defined.

(** X16. The four methods answer from one snapshot: when the [RepoInfo]
    read of the first call returns a response and no error, that call and
    every later call on the same resolver return the fields of this one
    response ([UpdatedAt] the formatted [LastFetched], or nil when there is
    none) with a nil error, in whatever state the world is by then. *)
Theorem methods_answer_from_one_snapshot
    (json_RepoInfoResponse : Reader → option protocol.RepoInfoResponse * option error)
    (DefaultClient : Client)
    (CheckCurrentUserIsSiteAdmin : Context → option error)
    (Format_RFC3339 : Z → string)
    (rr : graphqlbackend.repositoryResolver) (w : World)
    (m : graphqlbackend.Method) (ctx : Context)
    (info : protocol.RepoInfoResponse) :
  fst (RepoInfo json_RepoInfoResponse DefaultClient ctx
         (sourcegraph.URI (graphqlbackend.repo rr)) w)
  = Ok (Some info, None) →
  allowed CheckCurrentUserIsSiteAdmin m ctx →
  ∃ r1 w1,
    graphqlbackend.call json_RepoInfoResponse DefaultClient
      CheckCurrentUserIsSiteAdmin Format_RFC3339 m ctx
      (graphqlbackend.MirrorInfo rr, w)
    = (Ok (field_of Format_RFC3339 m info, None), (r1, w1))
    ∧ ∀ m2 ctx2 w2,
        allowed CheckCurrentUserIsSiteAdmin m2 ctx2 →
        graphqlbackend.call json_RepoInfoResponse DefaultClient
          CheckCurrentUserIsSiteAdmin Format_RFC3339 m2 ctx2 (r1, w2)
        = (Ok (field_of Format_RFC3339 m2 info, None), (r1, w2)).
Proof.
  intros Hread Hallowed.
  rewrite (call_first _ _ _ _ _ _ _ _ Hallowed). cbv zeta. rewrite Hread.
  eexists _, _. split; [reflexivity |].
  intros m2 ctx2 w2 Hallowed2.
  rewrite (call_memoized _ _ _ _ m2 ctx2 _ w2) by (reflexivity || exact Hallowed2). reflexivity.
Qed.

Lemma methods_answer_from_one_snapshot_witness :
  ∃ r1 w1,
    graphqlbackend.call memo_example.decode example.cl (λ _, None)
      memo_example.format graphqlbackend.MUpdatedAt example.background
      (graphqlbackend.MirrorInfo memo_example.rr, memo_example.w)
    = (Ok (graphqlbackend.VStringPtr None, None), (r1, w1))
    ∧ graphqlbackend.call memo_example.decode example.cl (λ _, None)
        memo_example.format graphqlbackend.MRemoteURL example.expired
        (r1, example.world (inr (transport_error "connection refused")))
      = (Ok (graphqlbackend.VString "https://github.com/gorilla/mux", None),
         (r1, example.world (inr (transport_error "connection refused")))).
Proof.
  destruct (methods_answer_from_one_snapshot memo_example.decode example.cl
              (λ _, None) memo_example.format memo_example.rr memo_example.w
              graphqlbackend.MUpdatedAt example.background memo_example.info
              eq_refl (λ _, eq_refl))
    as (r1 & w1 & Hfirst & Hlater).
  exists r1, w1. split; [exact Hfirst |].
  apply (Hlater graphqlbackend.MRemoteURL example.expired
           (example.world (inr (transport_error "connection refused")))
           (λ _, eq_refl)).
Defined.

(** X17. A read that leaves no response and no error makes the methods
    panic from then on. When the [RepoInfo] read of the first call panics
    (the address table is empty), or returns a nil response with a nil
    error (the decoder read a JSON null), that call panics, the
    [sync.Once] counts as done, and every later call on the same resolver
    panics on the nil dereference of the memoized response without
    sending anything. *)
Theorem nil_response_makes_the_methods_panic
    (json_RepoInfoResponse : Reader → option protocol.RepoInfoResponse * option error)
    (DefaultClient : Client)
    (CheckCurrentUserIsSiteAdmin : Context → option error)
    (Format_RFC3339 : Z → string)
    (rr : graphqlbackend.repositoryResolver) (w : World)
    (m : graphqlbackend.Method) (ctx : Context) :
  fst (RepoInfo json_RepoInfoResponse DefaultClient ctx
         (sourcegraph.URI (graphqlbackend.repo rr)) w) = Ok (None, None)
  ∨ (∃ msg, fst (RepoInfo json_RepoInfoResponse DefaultClient ctx
                   (sourcegraph.URI (graphqlbackend.repo rr)) w) = Panic msg) →
  allowed CheckCurrentUserIsSiteAdmin m ctx →
  ∃ msg r1 w1,
    graphqlbackend.call json_RepoInfoResponse DefaultClient
      CheckCurrentUserIsSiteAdmin Format_RFC3339 m ctx
      (graphqlbackend.MirrorInfo rr, w)
    = (Panic msg, (r1, w1))
    ∧ graphqlbackend.repoInfoOnce r1 = true
    ∧ ∀ m2 ctx2 w2,
        allowed CheckCurrentUserIsSiteAdmin m2 ctx2 →
        graphqlbackend.call json_RepoInfoResponse DefaultClient
          CheckCurrentUserIsSiteAdmin Format_RFC3339 m2 ctx2 (r1, w2)
        = (Panic "runtime error: invalid memory address or nil pointer dereference",
           (r1, w2)).
Proof.
  intros Hread Hallowed.
  rewrite (call_first _ _ _ _ _ _ _ _ Hallowed). cbv zeta.
  destruct Hread as [Hread | [msg Hread]]; rewrite Hread;
    eexists _, _, _; (split; [reflexivity |]); (split; [reflexivity |]);
    intros m2 ctx2 w2 Hallowed2;
    rewrite (call_memoized _ _ _ _ m2 ctx2 _ w2) by (reflexivity || exact Hallowed2); reflexivity.
Qed.

Lemma nil_response_makes_the_methods_panic_witness :
  ∃ r1 w1,
    graphqlbackend.call memo_example.decode {| Addrs := []; NoCreds := false |}
      (λ _, None) memo_example.format graphqlbackend.MCloned example.background
      (graphqlbackend.MirrorInfo memo_example.rr, memo_example.w)
    = (Panic "runtime error: index out of range", (r1, w1))
    ∧ graphqlbackend.call memo_example.decode {| Addrs := []; NoCreds := false |}
        (λ _, None) memo_example.format graphqlbackend.MCloned example.background
        (r1, memo_example.w)
      = (Panic "runtime error: invalid memory address or nil pointer dereference",
         (r1, memo_example.w)).
Proof.
  destruct (nil_response_makes_the_methods_panic memo_example.decode
              {| Addrs := []; NoCreds := false |} (λ _, None) memo_example.format
              memo_example.rr memo_example.w graphqlbackend.MCloned
              example.background
              (or_intror (ex_intro _ "runtime error: index out of range" eq_refl))
              (λ _, eq_refl))
    as (msg & r1 & w1 & Hfirst & _ & Hlater).
  exists r1, w1. split.
  - rewrite Hfirst. f_equal. f_equal.
    assert (Hmsg : fst (graphqlbackend.call memo_example.decode
                          {| Addrs := []; NoCreds := false |} (λ _, None)
                          memo_example.format graphqlbackend.MCloned
                          example.background
                          (graphqlbackend.MirrorInfo memo_example.rr, memo_example.w))
                   = Panic "runtime error: index out of range") by reflexivity.
    rewrite Hfirst in Hmsg. injection Hmsg as ->. reflexivity.
  - apply (Hlater graphqlbackend.MCloned example.background memo_example.w
             (λ _, eq_refl)).
Defined.

(** ** What an exec call does to the world, whatever its input *)

Section exec_effects.
Variable NormalizeRepo : string → string.
Variable json_NotFoundPayload : Reader → protocol.NotFoundPayload * option error.

Lemma sendExec_effects c ctx w :
  match ctx_Err ctx with
  | Some _ =>
      snd (sendExec NormalizeRepo json_NotFoundPayload c ctx w) = w
      ∨ snd (sendExec NormalizeRepo json_NotFoundPayload c ctx w) = counted w
  | None =>
      snd (sendExec NormalizeRepo json_NotFoundPayload c ctx w) = w
      ∨ ∃ addr args,
          addr ∈ Addrs (client c)
          ∧ snd (sendExec NormalizeRepo json_NotFoundPayload c ctx w)
            = logged w (POST ("http://" +:+ addr +:+ "/exec") args)
  end.
Proof.
  unfold sendExec, bind, lift, ret, panic, httpPost, http_Do,
    deadlineExceededCounter_Inc.
  destruct (Repo c) as [r |]; cbn [go_deref];
    [| destruct (ctx_Err ctx); left; reflexivity].
  destruct (Args c) as [| name args];
    [destruct (ctx_Err ctx); left; reflexivity |].
  destruct (ctx_Err ctx) as [err |]; [right; reflexivity |].
  destruct (BigEndian_Uint64 _) as [h |]; [| left; reflexivity].
  destruct (go_mod _ _) as [serverIndex | msg]; [| left; reflexivity].
  unfold go_index.
  destruct (Addrs (client c) !! Z.to_nat serverIndex) as [addr |] eqn:Haddr;
    [| left; reflexivity].
  right. exists addr, (ExecRequest (NormalizeRepo (sourcegraph.URI r))
                         (EnsureRevision c) args).
  split; [eapply list_elem_of_lookup_2; exact Haddr |].
  destruct (network w ctx (http_log w) _) as [resp | err]; [| reflexivity].
  repeat case_decide; try reflexivity.
  destruct (json_NotFoundPayload _) as [? [?|]]; reflexivity.
Qed.

Lemma DividedOutput_world c ctx w :
  snd (DividedOutput NormalizeRepo json_NotFoundPayload c ctx w)
  = snd (sendExec NormalizeRepo json_NotFoundPayload c ctx w).
Proof.
  unfold DividedOutput, bind.
  destruct (sendExec _ _ _ _ _) as [[[[body tr] | err] | msg] w']; try reflexivity.
  destruct (ReadAll body) as [stdout [e |]]; [reflexivity |].
  destruct (strconv.Atoi _) as [status [e |]]; [reflexivity |].
  case_decide; reflexivity.
Qed.

Lemma StdoutReader_world c ctx w :
  snd (StdoutReader NormalizeRepo json_NotFoundPayload ctx c w)
  = snd (sendExec NormalizeRepo json_NotFoundPayload c ctx w).
Proof.
  unfold StdoutReader, bind.
  destruct (sendExec _ _ _ _ _) as [[[[body tr] | err] | msg] w']; reflexivity.
Qed.
End exec_effects.

(** X18. Whatever the command, the context and the world, an exec call
    is a single attempt: [DividedOutput] and [StdoutReader] change the world
    exactly as their one [sendExec] does, which under an expired context
    sends nothing (it can only count the expiry) and under a live context
    leaves the counter alone and sends at most one request, a POST to
    [/exec] on an address of the table. Nothing is retried, also not after
    an error answer. *)
Theorem exec_call_is_a_single_attempt
    (NormalizeRepo : string → string)
    (json_NotFoundPayload : Reader → protocol.NotFoundPayload * option error)
    (c : Cmd) (ctx : Context) (w : World) :
  snd (DividedOutput NormalizeRepo json_NotFoundPayload c ctx w)
  = snd (sendExec NormalizeRepo json_NotFoundPayload c ctx w)
  ∧ snd (StdoutReader NormalizeRepo json_NotFoundPayload ctx c w)
    = snd (sendExec NormalizeRepo json_NotFoundPayload c ctx w)
  ∧ match ctx_Err ctx with
    | Some _ =>
        snd (sendExec NormalizeRepo json_NotFoundPayload c ctx w) = w
        ∨ snd (sendExec NormalizeRepo json_NotFoundPayload c ctx w) = counted w
    | None =>
        snd (sendExec NormalizeRepo json_NotFoundPayload c ctx w) = w
        ∨ ∃ addr args,
            addr ∈ Addrs (client c)
            ∧ snd (sendExec NormalizeRepo json_NotFoundPayload c ctx w)
              = logged w (POST ("http://" +:+ addr +:+ "/exec") args)
    end.
Proof.
  split; [apply DividedOutput_world |].
  split; [apply StdoutReader_world | apply sendExec_effects].
Qed.

(** * The package.json dependency diagnostics: locating a match *)

Section match_range.
Import packageJsonDependency.

Lemma starts_with_spec str line :
  starts_with str line = true ↔ ∃ post, line = str ++ post.
Proof.
  revert line. induction str as [| c str IH]; intros line.
  - simpl. split; [intros _; exists line; reflexivity | reflexivity].
  - destruct line as [| d line]; simpl.
    + split; [discriminate | intros [post Hpost]; discriminate].
    + case_decide as Hcd.
      * subst d. rewrite IH. split; intros [post Hpost]; exists post; congruence.
      * split; [discriminate | intros [post Hpost]; congruence].
Qed.

Lemma starts_with_occurs str line :
  starts_with str line = true ↔ occurs_at str line 0.
Proof.
  rewrite starts_with_spec. unfold occurs_at. split.
  - intros [post ->]. exists [], post. split; reflexivity.
  - intros (pre & post & -> & Hpre). destruct pre; [| discriminate].
    exists post. reflexivity.
Qed.

Lemma occurs_at_cons str c line j :
  occurs_at str (c :: line) (S j) ↔ occurs_at str line j.
Proof.
  unfold occurs_at. split.
  - intros (pre & post & Heq & Hlen). destruct pre as [| c' pre]; [discriminate |].
    injection Heq as -> ->. injection Hlen as Hlen. eauto.
  - intros (pre & post & -> & Hlen). exists (c :: pre), post.
    split; [reflexivity | simpl; congruence].
Qed.

Lemma occurs_at_nil str j : occurs_at str [] j → str = [] ∧ j = 0.
Proof.
  intros (pre & post & Heq & Hlen). symmetry in Heq.
  apply app_eq_nil in Heq. destruct Heq as [-> Heq].
  apply app_eq_nil in Heq. destruct Heq as [-> _].
  split; [reflexivity | simpl in Hlen; congruence].
Qed.

(** [indexOf] returns the first position at which [str] occurs, and [-1]
    exactly when it occurs nowhere. *)
Lemma indexOf_from_spec k line str :
  (indexOf_from k line str = (-1)%Z ∧ ∀ j, ¬ occurs_at str line j)
  ∨ ∃ j,
      indexOf_from k line str = Z.of_nat (k + j)
      ∧ occurs_at str line j
      ∧ ∀ j', occurs_at str line j' → j ≤ j'.
Proof.
  revert k. induction line as [| c line IH]; intros k.
  - cbn [indexOf_from]. destruct (starts_with str []) eqn:Hs.
    + right. exists 0. rewrite Nat.add_0_r. split; [reflexivity |].
      split; [apply starts_with_occurs; exact Hs | intros; lia].
    + left. split; [reflexivity |].
      intros j Hocc. destruct (occurs_at_nil _ _ Hocc) as [-> ->]. discriminate.
  - cbn [indexOf_from]. destruct (starts_with str (c :: line)) eqn:Hs.
    + right. exists 0. rewrite Nat.add_0_r. split; [reflexivity |].
      split; [apply starts_with_occurs; exact Hs | intros; lia].
    + assert (Hzero : ¬ occurs_at str (c :: line) 0).
      { intros Hocc. apply starts_with_occurs in Hocc. congruence. }
      destruct (IH (S k)) as [[Hidx Hnone] | (j & Hidx & Hocc & Hfirst)].
      * left. split; [exact Hidx |].
        intros [| j] Hocc; [exact (Hzero Hocc) |].
        apply occurs_at_cons in Hocc. exact (Hnone j Hocc).
      * right. exists (S j). split; [rewrite Hidx; f_equal; lia |].
        split; [apply occurs_at_cons; exact Hocc |].
        intros [| j'] Hocc'; [destruct (Hzero Hocc') |].
        apply occurs_at_cons in Hocc'. specialize (Hfirst j' Hocc'). lia.
Qed.

Lemma findMatchRange_from_None i lines str :
  findMatchRange_from i lines str = None ↔
  ∀ line j, line ∈ lines → ¬ occurs_at str line j.
Proof.
  revert i. induction lines as [| line lines IH]; intros i.
  - simpl. split; [| reflexivity]. intros _ line j Hin. inversion Hin.
  - cbn [findMatchRange_from]. cbv zeta. unfold indexOf.
    destruct (indexOf_from_spec 0 line str)
      as [[Hidx Hnone] | (j & Hidx & Hocc & Hfirst)]; rewrite Hidx.
    + rewrite decide_False by (intros Hne; apply Hne; reflexivity).
      rewrite IH. split.
      * intros Hrest line' j' Hin. apply elem_of_cons in Hin.
        destruct Hin as [-> | Hin]; [apply Hnone | apply Hrest; exact Hin].
      * intros Hall line' j' Hin. apply Hall. apply elem_of_cons. right. exact Hin.
    + rewrite decide_True by lia. split; [discriminate |].
      intros Hall. destruct (Hall line j); [apply elem_of_cons; left; reflexivity |].
      exact Hocc.
Qed.

Lemma findMatchRange_from_Some i lines str r :
  findMatchRange_from i lines str = Some r →
  ∃ before pre post after,
    lines = before ++ (pre ++ str ++ post) :: after
    ∧ r = {| startLine := Z.of_nat (i + length before);
             startCharacter := Z.of_nat (length pre);
             endLine := Z.of_nat (i + length before);
             endCharacter := Z.of_nat (length pre) + Z.of_nat (length str) |}
    ∧ (∀ line j, line ∈ before → ¬ occurs_at str line j)
    ∧ (∀ j, occurs_at str (pre ++ str ++ post) j → length pre ≤ j).
Proof.
  revert i. induction lines as [| line lines IH]; intros i; [discriminate |].
  cbn [findMatchRange_from]. cbv zeta. unfold indexOf.
  destruct (indexOf_from_spec 0 line str)
    as [[Hidx Hnone] | (j & Hidx & Hocc & Hfirst)]; rewrite Hidx.
  - rewrite decide_False by (intros Hne; apply Hne; reflexivity).
    intros Hrest. destruct (IH _ Hrest)
      as (before & pre & post & after & -> & -> & Hbefore & Hpre).
    exists (line :: before), pre, post, after.
    split; [reflexivity |].
    split; [cbn [length]; rewrite Nat.add_succ_comm; reflexivity |].
    split; [| exact Hpre].
    intros line' j' Hin. apply elem_of_cons in Hin.
    destruct Hin as [-> | Hin]; [apply Hnone | apply Hbefore; exact Hin].
  - rewrite decide_True by lia. intros [= <-].
    destruct Hocc as (pre & post & -> & Hlen).
    exists [], pre, post, lines.
    split; [reflexivity |].
    split; [cbn [length]; rewrite Nat.add_0_r, Hlen; reflexivity |].
    split; [intros line j' Hin; inversion Hin |].
    intros j' Hocc'. rewrite Hlen. apply Hfirst. exact Hocc'.
Qed.

Lemma split_nonempty text : split text ≠ [].
Proof.
  destruct text as [| c text]; simpl; [discriminate |].
  case_decide; [discriminate |]. destruct (split text); discriminate.
Qed.

Lemma split_join text : join_lines (split text) = text.
Proof.
  induction text as [| c text IH]; [reflexivity |].
  cbn [split]. pose proof (split_nonempty text) as Hne.
  destruct (split text) as [| line lines]; [congruence |].
  case_decide as Hc.
  - subst c. cbn [join_lines app]. f_equal. exact IH.
  - destruct lines as [| line' lines].
    + cbn [join_lines] in *. f_equal. exact IH.
    + cbn [join_lines] in *. rewrite <- IH. reflexivity.
Qed.

Lemma split_no_LF text : Forall (λ line, LF ∉ line) (split text).
Proof.
  induction text as [| c text IH]; cbn [split].
  - constructor; [| constructor]. intros Hin. inversion Hin.
  - case_decide as Hc.
    + constructor; [| exact IH]. intros Hin. inversion Hin.
    + destruct (split text) as [| line lines].
      * constructor; [| constructor]. intros Hin.
        apply list_elem_of_singleton in Hin. congruence.
      * apply Forall_cons in IH. destruct IH as [Hline Hlines].
        constructor; [| exact Hlines]. intros Hin.
        apply elem_of_cons in Hin. destruct Hin as [Hin | Hin]; [congruence |].
        exact (Hline Hin).
Qed.

Lemma split_line line : LF ∉ line → split line = [line].
Proof.
  induction line as [| c line IH]; intros Hno; [reflexivity |].
  cbn [split]. rewrite decide_False.
  - rewrite IH; [reflexivity |].
    intros Hin. apply Hno. apply elem_of_cons. right. exact Hin.
  - intros ->. apply Hno. apply elem_of_cons. left. reflexivity.
Qed.

Lemma split_app_LF line text :
  LF ∉ line → split (line ++ LF :: text) = line :: split text.
Proof.
  induction line as [| c line IH]; intros Hno.
  - cbn [app split]. rewrite decide_True by reflexivity. reflexivity.
  - cbn [app split]. rewrite decide_False.
    + rewrite IH; [reflexivity |].
      intros Hin. apply Hno. apply elem_of_cons. right. exact Hin.
    + intros ->. apply Hno. apply elem_of_cons. left. reflexivity.
Qed.

(** The lines of a text are determined by the text. *)
Lemma split_join_inv lines :
  lines ≠ [] → Forall (λ line, LF ∉ line) lines → split (join_lines lines) = lines.
Proof.
  induction lines as [| line lines IH]; intros Hne Hall; [congruence |].
  apply Forall_cons in Hall. destruct Hall as [Hline Hlines].
  destruct lines as [| line' lines].
  - cbn [join_lines]. apply split_line. exact Hline.
  - change (join_lines (line :: line' :: lines))
      with (line ++ LF :: join_lines (line' :: lines)).
    rewrite split_app_LF by exact Hline.
    rewrite IH; [reflexivity | discriminate | exact Hlines].
Qed.
End match_range.

(** X19. A range that [findMatchRange] returns designates the first
    occurrence of [str] on the first line of [text] that has one. The text
    is made of lines without line feed, joined by line feeds, among which
    [before] come first, then a line [pre ++ str ++ post]; the range lies on
    that line (its number is the number of lines before it), starts after
    [pre] and is as long as [str]; no line before has an occurrence of
    [str], and the line has none that starts earlier. *)
Theorem findMatchRange_first_occurrence
    (text str : packageJsonDependency.JSString) (r : packageJsonDependency.Range) :
  packageJsonDependency.findMatchRange text str = Some r →
  ∃ before pre post after,
    text = join_lines (before ++ (pre ++ str ++ post) :: after)
    ∧ Forall (λ line, packageJsonDependency.LF ∉ line)
             (before ++ (pre ++ str ++ post) :: after)
    ∧ r = {| packageJsonDependency.startLine := Z.of_nat (length before);
             packageJsonDependency.startCharacter := Z.of_nat (length pre);
             packageJsonDependency.endLine := Z.of_nat (length before);
             packageJsonDependency.endCharacter :=
               Z.of_nat (length pre) + Z.of_nat (length str) |}
    ∧ (∀ line j, line ∈ before → ¬ occurs_at str line j)
    ∧ (∀ j, occurs_at str (pre ++ str ++ post) j → length pre ≤ j).
Proof.
  unfold packageJsonDependency.findMatchRange. intros Hfind.
  destruct (findMatchRange_from_Some _ _ _ _ Hfind)
    as (before & pre & post & after & Hlines & -> & Hbefore & Hpre).
  exists before, pre, post, after.
  split; [rewrite <- Hlines; symmetry; apply split_join |].
  split; [rewrite <- Hlines; apply split_no_LF |].
  split; [reflexivity |].
  split; assumption.
Qed.

Lemma findMatchRange_first_occurrence_witness :
  ∃ before pre post after,
    [123; 10; 32; 34; 97; 34; 58; 34; 97; 34; 10; 125]
    = join_lines (before ++ (pre ++ [34; 97; 34] ++ post) :: after)
    ∧ length before = 1 ∧ length pre = 1.
Proof.
  destruct (findMatchRange_first_occurrence
              [123; 10; 32; 34; 97; 34; 58; 34; 97; 34; 10; 125] [34; 97; 34]
              {| packageJsonDependency.startLine := 1;
                 packageJsonDependency.startCharacter := 1;
                 packageJsonDependency.endLine := 1;
                 packageJsonDependency.endCharacter := 4 |} eq_refl)
    as (before & pre & post & after & Htext & _ & Hr & _).
  exists before, pre, post, after.
  split; [exact Htext |].
  injection Hr as Hline Hchar _ _. split; lia.
Defined.

(** X20. [findMatchRange] returns null exactly when no line of the text
    has an occurrence of [str]: when the text cannot be cut into lines
    without line feed, joined by line feeds, one of which contains [str]. *)
Theorem findMatchRange_null_iff_no_occurrence
    (text str : packageJsonDependency.JSString) :
  packageJsonDependency.findMatchRange text str = None ↔
  ¬ ∃ before pre post after,
      text = join_lines (before ++ (pre ++ str ++ post) :: after)
      ∧ Forall (λ line, packageJsonDependency.LF ∉ line)
               (before ++ (pre ++ str ++ post) :: after).
Proof.
  unfold packageJsonDependency.findMatchRange. split.
  - intros Hnone (before & pre & post & after & -> & Hall).
    rewrite split_join_inv in Hnone;
      [| intros Hnil; apply app_eq_nil in Hnil; destruct Hnil; discriminate
       | exact Hall].
    rewrite findMatchRange_from_None in Hnone.
    apply (Hnone (pre ++ str ++ post) (length pre)).
    + apply elem_of_app. right. apply elem_of_cons. left. reflexivity.
    + exists pre, post. split; reflexivity.
  - intros Hno.
    destruct (packageJsonDependency.findMatchRange_from 0
                (packageJsonDependency.split text) str) as [r |] eqn:Hfind;
      [| reflexivity].
    destruct Hno.
    destruct (findMatchRange_from_Some _ _ _ _ Hfind)
      as (before & pre & post & after & Hlines & _).
    exists before, pre, post, after.
    split; [rewrite <- Hlines; symmetry; apply split_join |].
    rewrite <- Hlines. apply split_no_LF.
Qed.

(** X21. Two edge cases of [findMatchRange]. For the empty string it
    returns the empty range at the very start, [Range(0, 0, 0, 0)], whatever
    the text, the empty text included. A string that contains a line feed
    is never found, even when the text contains it: a match does not span
    lines. *)
Theorem findMatchRange_edge_cases (text str : packageJsonDependency.JSString) :
  packageJsonDependency.findMatchRange text []
  = Some {| packageJsonDependency.startLine := 0;
            packageJsonDependency.startCharacter := 0;
            packageJsonDependency.endLine := 0;
            packageJsonDependency.endCharacter := 0 |}
  ∧ (packageJsonDependency.LF ∈ str →
     packageJsonDependency.findMatchRange text str = None
     ∧ packageJsonDependency.findMatchRange (text ++ str) str = None).
Proof.
  split.
  - unfold packageJsonDependency.findMatchRange.
    pose proof (split_nonempty text) as Hne.
    destruct (packageJsonDependency.split text) as [| line lines]; [congruence |].
    destruct line; reflexivity.
  - intros HLF.
    assert (Hnone : ∀ t, packageJsonDependency.findMatchRange t str = None).
    { intros t. unfold packageJsonDependency.findMatchRange.
      apply findMatchRange_from_None. intros line j Hin (pre & post & -> & _).
      pose proof (split_no_LF t) as Hall.
      rewrite Forall_forall in Hall. apply (Hall _ Hin).
      apply elem_of_app. right. apply elem_of_app. left. exact HLF. }
    split; apply Hnone.
Qed.

Lemma findMatchRange_edge_cases_witness :
  packageJsonDependency.findMatchRange [97; 10; 98; 99] [10; 98] = None.
Proof.
  destruct (findMatchRange_edge_cases [97] [10; 98]) as [_ Hspan].
  destruct Hspan as [_ Hnone].
  - apply elem_of_cons. left. reflexivity.
  - exact Hnone.
Defined.

(** * Further properties: error answers, and resolvers side by side *)

(** X22. An exec call that is refused returns the error and nothing
    else. When the exchange fails, or the status is neither 200 nor 404
    (the error then names the status code), or the status is 404 and the
    body does not decode (the error is then the decoder's, not the typed
    not-found error), [sendExec] and [StdoutReader] return that error, and
    [DividedOutput], [Run], [Output] and [CombinedOutput] return it with no
    output and leave the command, its [ExitStatus] included, as it was.
    The same holds when the status is 200 and reading the body fails: the
    bytes read before the failure are dropped. *)
Theorem refused_exec_returns_only_the_error
    (NormalizeRepo : string → string)
    (json_NotFoundPayload : Reader → protocol.NotFoundPayload * option error)
    (c : Cmd) (ctx : Context) (w : World) (req : Request)
    (answer : Response + error) :
  exec_answered NormalizeRepo c ctx w req answer →
  (∀ err,
     exec_refused json_NotFoundPayload answer err →
     sendExec NormalizeRepo json_NotFoundPayload c ctx w
     = (Ok (inr err), logged w req)
     ∧ StdoutReader NormalizeRepo json_NotFoundPayload ctx c w
       = (Ok (inr err), logged w req)
     ∧ DividedOutput NormalizeRepo json_NotFoundPayload c ctx w
       = (Ok (c, ([], [], Some err)), logged w req)
     ∧ Run NormalizeRepo json_NotFoundPayload c ctx w
       = (Ok (c, Some err), logged w req)
     ∧ Output NormalizeRepo json_NotFoundPayload c ctx w
       = (Ok (c, ([], Some err)), logged w req)
     ∧ CombinedOutput NormalizeRepo json_NotFoundPayload c ctx w
       = (Ok (c, ([], Some err)), logged w req))
  ∧ (∀ resp stdout err,
       answer = inl resp → StatusCode resp = 200%Z →
       ReadAll (Body resp) = (stdout, Some err) →
       DividedOutput NormalizeRepo json_NotFoundPayload c ctx w
       = (Ok (c, ([], [], Some err)), logged w req)
       ∧ Output NormalizeRepo json_NotFoundPayload c ctx w
         = (Ok (c, ([], Some err)), logged w req)).
Proof.
  intros Hans.
  pose proof (sendExec_dispatch NormalizeRepo json_NotFoundPayload _ _ _ _ _ Hans)
    as Hsend.
  split.
  - intros err Href.
    assert (Hexec : sendExec NormalizeRepo json_NotFoundPayload c ctx w
                    = (Ok (inr err), logged w req)).
    { rewrite Hsend.
      destruct Href as [-> | [(resp & -> & H200 & H404 & ->)
                             | (resp & payload & -> & H404 & Hdec)]].
      - reflexivity.
      - rewrite decide_False by exact H200.
        rewrite decide_False by exact H404. reflexivity.
      - rewrite decide_False by (rewrite H404; discriminate).
        rewrite decide_True by exact H404. rewrite Hdec. reflexivity. }
    assert (Hdiv : DividedOutput NormalizeRepo json_NotFoundPayload c ctx w
                   = (Ok (c, ([], [], Some err)), logged w req)).
    { unfold DividedOutput, bind. rewrite Hexec. reflexivity. }
    split; [exact Hexec |].
    split; [unfold StdoutReader, bind; rewrite Hexec; reflexivity |].
    split; [exact Hdiv |].
    apply (Run_of_DividedOutput _ _ _ _ _ _ _ _ _ _ Hdiv).
  - intros resp stdout err -> Hcode Hread.
    assert (Hdiv : DividedOutput NormalizeRepo json_NotFoundPayload c ctx w
                   = (Ok (c, ([], [], Some err)), logged w req)).
    { rewrite (DividedOutput_200 _ _ _ _ _ _ _ Hans Hcode), Hread. reflexivity. }
    split; [exact Hdiv |].
    apply (Run_of_DividedOutput _ _ _ _ _ _ _ _ _ _ Hdiv).
Qed.

Lemma refused_exec_returns_only_the_error_witness :
  Output example.normalize example.decode_NotFoundPayload example.cmd
    example.background
    (example.world (inl {| StatusCode := 500;
                           Body := Reader_of_string "partial output";
                           Trailer := ∅; Request_URL := "" |}))
  = (Ok (example.cmd, ([], Some (errors_New "unexpected status code: 500"))),
     logged (example.world (inl {| StatusCode := 500;
                                   Body := Reader_of_string "partial output";
                                   Trailer := ∅; Request_URL := "" |}))
       (POST "http://gitserver-0:3178/exec"
          (ExecRequest "github.com/gorilla/mux" "" ["log"]))).
Proof.
  destruct (refused_exec_returns_only_the_error example.normalize
              example.decode_NotFoundPayload example.cmd example.background
              (example.world (inl {| StatusCode := 500;
                                     Body := Reader_of_string "partial output";
                                     Trailer := ∅; Request_URL := "" |}))
              (POST "http://gitserver-0:3178/exec"
                 (ExecRequest "github.com/gorilla/mux" "" ["log"]))
              (inl {| StatusCode := 500;
                      Body := Reader_of_string "partial output";
                      Trailer := ∅; Request_URL := "" |})
              (example_exec_answered _))
    as [Hrefused _].
  apply (Hrefused (errors_New "unexpected status code: 500")).
  right. left. eexists. split; [reflexivity |].
  split; [discriminate |]. split; [discriminate | reflexivity].
Defined.

(** X23. The memo belongs to the resolver object, not to the repository:
    every [MirrorInfo()] call returns a resolver of its own, so two
    resolvers of the same repository each make their own [RepoInfo]
    request, both to the first address, whatever the first one has
    memoized, and the second one holds the answer to its own request. *)
Theorem memo_is_not_shared_between_resolvers
    (json_RepoInfoResponse : Reader → option protocol.RepoInfoResponse * option error)
    (DefaultClient : Client)
    (CheckCurrentUserIsSiteAdmin : Context → option error)
    (Format_RFC3339 : Z → string)
    (rr : graphqlbackend.repositoryResolver) (w : World)
    (m1 m2 : graphqlbackend.Method) (ctx1 ctx2 : Context)
    (addr : string) (rest : list string) :
  Addrs DefaultClient = addr :: rest →
  allowed CheckCurrentUserIsSiteAdmin m1 ctx1 →
  allowed CheckCurrentUserIsSiteAdmin m2 ctx2 →
  ∃ r1 r2 w1 w2,
    snd (graphqlbackend.call json_RepoInfoResponse DefaultClient
           CheckCurrentUserIsSiteAdmin Format_RFC3339 m1 ctx1
           (graphqlbackend.MirrorInfo rr, w)) = (r1, w1)
    ∧ snd (graphqlbackend.call json_RepoInfoResponse DefaultClient
             CheckCurrentUserIsSiteAdmin Format_RFC3339 m2 ctx2
             (graphqlbackend.MirrorInfo rr, w1)) = (r2, w2)
    ∧ http_log w2
      = http_log w
        ++ [first_address_request addr "repo"
              (RepoInfoRequest (sourcegraph.URI (graphqlbackend.repo rr)));
            first_address_request addr "repo"
              (RepoInfoRequest (sourcegraph.URI (graphqlbackend.repo rr)))]
    ∧ r2 = memoized (graphqlbackend.MirrorInfo rr)
             (fst (RepoInfo json_RepoInfoResponse DefaultClient ctx2
                     (sourcegraph.URI (graphqlbackend.repo rr)) w1)).
Proof.
  intros Htable Hallowed1 Hallowed2.
  assert (Haddr : Addrs DefaultClient !! 0 = Some addr)
    by (rewrite Htable; reflexivity).
  destruct (RepoInfo_answer json_RepoInfoResponse DefaultClient ctx1
              (sourcegraph.URI (graphqlbackend.repo rr)) w addr Haddr) as [p1 Hp1].
  destruct (RepoInfo_answer json_RepoInfoResponse DefaultClient ctx2
              (sourcegraph.URI (graphqlbackend.repo rr))
              (logged w (first_address_request addr "repo"
                           (RepoInfoRequest (sourcegraph.URI (graphqlbackend.repo rr)))))
              addr Haddr) as [p2 Hp2].
  rewrite (call_first _ _ _ _ _ _ _ _ Hallowed1). cbv zeta. cbn [snd].
  rewrite Hp1. cbn [fst snd].
  eexists _, _, _, _. split; [reflexivity |].
  rewrite (call_first _ _ _ _ _ _ _ _ Hallowed2). cbv zeta. cbn [snd].
  rewrite Hp2. cbn [fst snd].
  split; [reflexivity |].
  split; [| reflexivity].
  cbn [logged http_log]. rewrite <- app_assoc. reflexivity.
Qed.

Lemma memo_is_not_shared_between_resolvers_witness :
  ∃ r1 r2 w1 w2,
    snd (graphqlbackend.call memo_example.decode example.cl (λ _, None)
           memo_example.format graphqlbackend.MCloned example.background
           (graphqlbackend.MirrorInfo memo_example.rr, memo_example.w)) = (r1, w1)
    ∧ snd (graphqlbackend.call memo_example.decode example.cl (λ _, None)
             memo_example.format graphqlbackend.MCloned example.background
             (graphqlbackend.MirrorInfo memo_example.rr, w1)) = (r2, w2)
    ∧ length (http_log w2) = 2.
Proof.
  destruct (memo_is_not_shared_between_resolvers memo_example.decode example.cl
              (λ _, None) memo_example.format memo_example.rr memo_example.w
              graphqlbackend.MCloned graphqlbackend.MCloned
              example.background example.background
              "gitserver-0:3178" ["gitserver-1:3178"; "gitserver-2:3178"]
              eq_refl (λ _, eq_refl) (λ _, eq_refl))
    as (r1 & r2 & w1 & w2 & H1 & H2 & Hlog & _).
  exists r1, r2, w1, w2. split; [exact H1 |]. split; [exact H2 |].
  rewrite Hlog. reflexivity.
Defined.
